(** * Laser diffraction visualiser: the LaserDiffraction component

    A shallow embedding of the React component
    [src/components/LaserDiffraction/index.tsx] in its two revisions that
    paint ten orders: the revision with the zoom slider and the screenshot
    export, and the earlier revision without zoom that ends its painting
    with a caption.

    JavaScript numbers are kept behind an interface, [Number], so that the
    component is translated once and read twice: over IEEE-754 binary64
    (the arithmetic the browser runs, [IEEE754]) and over the extended
    reals (the arithmetic the optical formula is written in, [Exact]). *)

From Stdlib Require Import ZArith NArith List Sorted String Ascii Bool Lia.
From Stdlib Require Import Reals Lra.
From Stdlib Require Floats.SpecFloat.
Import ListNotations.

Local Open Scope string_scope.
Local Open Scope list_scope.
Local Open Scope Z_scope.

(** ** Strings *)

Module JSString.

Definition digit_char (d : Z) : ascii :=
  ascii_of_nat (48 + Z.to_nat d).

(** Decimal digits of a non-negative integer, most significant first. *)
Fixpoint digits_fuel (fuel : nat) (n : Z) (acc : string) : string :=
  match fuel with
  | O => acc
  | S fuel' =>
      let acc' := String (digit_char (n mod 10)) acc in
      if n / 10 =? 0 then acc' else digits_fuel fuel' (n / 10) acc'
  end.

(** [Number.prototype.toString] on an integer-valued number. *)
Definition of_Z (n : Z) : string :=
  let a := Z.abs n in
  let body := digits_fuel (S (Z.to_nat (Z.log2 a))) a "" in
  if n <? 0 then String "-" body else body.

(** Truthiness of a string: only the empty string is falsy. *)
Definition truthy (s : string) : bool :=
  match s with EmptyString => false | _ => true end.

(** [a || b] on strings. *)
Definition or_else (a b : string) : string := if truthy a then a else b.

(** [s.charAt(0).toUpperCase() + s.slice(1)] on ASCII text. *)
Definition upper (c : ascii) : ascii :=
  let n := nat_of_ascii c in
  if (andb (Nat.leb 97 n) (Nat.leb n 122)) then ascii_of_nat (n - 32) else c.

Definition capitalize (s : string) : string :=
  match s with
  | EmptyString => EmptyString
  | String c r => String (upper c) r
  end.

(** The digits of [x.toFixed(1)] for [|x| = n / 10] rounded: all digits
    of [n] but the last, a point, the last digit. *)
Definition fixed1 (neg : bool) (n : Z) : string :=
  let body := (of_Z (n / 10) ++ "." ++ of_Z (n mod 10))%string in
  if neg then String "-" body else body.

End JSString.

(** ** Numbers *)

(** What [parseFloat] reads off the front of a string, before it is turned
    into a number: nothing, an infinity, or a decimal [(-1)^s * n * 10^e]. *)
Inductive Decimal :=
| DNaN
| DInfinity (neg : bool)
| DNum (neg : bool) (n : N) (e : Z).

(** The operations on JavaScript numbers that the component uses. *)
Class Number (num : Type) := {
  (* the value of a numeric literal or of a parsed decimal *)
  ofDecimal : Decimal -> num;
  mul : num -> num -> num;
  div : num -> num -> num;
  add : num -> num -> num;
  sub : num -> num -> num;
  (* [a >= b], [a <= b], [a < b] *)
  geb : num -> num -> bool;
  leb : num -> num -> bool;
  ltb : num -> num -> bool;
  Math_abs : num -> num;
  Math_min : num -> num -> num;
  Math_asin : num -> num;
  Math_tan : num -> num;
  Math_PI : num;
  (* neither NaN nor an infinity *)
  isFinite : num -> bool;
  (* the number that the canvas keeps of an argument of a path method *)
  narrow : num -> num;
  (* [x.toFixed(1)] *)
  toFixed1 : num -> string
}.

Section Literals.
Context {num : Type} `{Number num}.

Definition NaN : num := ofDecimal DNaN.

(** An integer-valued number. *)
Definition int (z : Z) : num := ofDecimal (DNum (z <? 0) (Z.abs_N z) 0).

(** The literal [d]e[e]. *)
Definition lit (d : N) (e : Z) : num := ofDecimal (DNum false d e).
End Literals.

(** *** parseFloat *)

Module Parse.

Definition is_digit (c : ascii) : bool :=
  let n := nat_of_ascii c in andb (Nat.leb 48 n) (Nat.leb n 57).

Definition digit_val (c : ascii) : N := N.of_nat (nat_of_ascii c - 48).

(** White space and line terminators of the ASCII range. *)
Definition is_space (c : ascii) : bool :=
  let n := nat_of_ascii c in
  orb (Nat.eqb n 32) (andb (Nat.leb 9 n) (Nat.leb n 13)).

Fixpoint trim_start (s : string) : string :=
  match s with
  | String c r => if is_space c then trim_start r else s
  | EmptyString => s
  end.

(** Reads the longest run of decimal digits: its value (continuing from
    [acc]), the number of digits read and the rest of the string. *)
Fixpoint digits (s : string) (acc : N) (count : nat) : N * nat * string :=
  match s with
  | String c r =>
      if is_digit c then digits r (acc * 10 + digit_val c)%N (S count)
      else (acc, count, s)
  | EmptyString => (acc, count, s)
  end.

(** ExponentPart: [e] or [E], an optional sign and at least one digit;
    anything else is not part of the literal and counts as exponent 0. *)
Definition exponent (s : string) : Z :=
  match s with
  | String c r =>
      if orb (Ascii.eqb c "e") (Ascii.eqb c "E") then
        let '(neg, r') :=
          match r with
          | String "+" r' => (false, r')
          | String "-" r' => (true, r')
          | _ => (false, r)
          end in
        let '(v, count, _) := digits r' 0%N O in
        match count with
        | O => 0
        | _ => if neg then - Z.of_N v else Z.of_N v
        end
      else 0
  | EmptyString => 0
  end.

(** StrUnsignedDecimalLiteral, longest prefix. *)
Definition unsigned (neg : bool) (s : string) : Decimal :=
  if String.prefix "Infinity" s then DInfinity neg
  else
    let '(ip, ni, r1) := digits s 0%N O in
    let '(v, nf, r2) :=
      match r1 with
      | String "." r => digits r ip O
      | _ => (ip, O, r1)
      end in
    match ni, nf with
    | O, O => DNaN
    | _, _ => DNum neg v (exponent r2 - Z.of_nat nf)
    end.

(** StrDecimalLiteral after trimming: the decimal that [parseFloat]
    converts. *)
Definition decimal (s : string) : Decimal :=
  match trim_start s with
  | String "+" r => unsigned false r
  | String "-" r => unsigned true r
  | r => unsigned false r
  end.

End Parse.

Definition parseFloat {num : Type} `{Number num} (s : string) : num :=
  ofDecimal (Parse.decimal s).

(** ** The component *)

(** The three [<option>] values of the material [<select>]; the state
    variable [selectedMaterial] only ever holds one of them. *)
Inductive Material := lycopodium | silica | custom.

Definition material_value (m : Material) : string :=
  match m with
  | lycopodium => "lycopodium"
  | silica => "silica"
  | custom => "custom"
  end.

Definition Material_eqb (a b : Material) : bool :=
  match a, b with
  | lycopodium, lycopodium | silica, silica | custom, custom => true
  | _, _ => false
  end.

(** [materialsData]: particle sizes in micrometres, [null] for custom. *)
Definition materialsData (m : Material) : option Z :=
  match m with
  | lycopodium => Some 30
  | silica => Some 5
  | custom => None
  end.

(** Truthiness of a [materialsData] entry: [null] and [0] are falsy. *)
Definition truthy_entry (v : option Z) : bool :=
  match v with
  | Some n => negb (n =? 0)
  | None => false
  end.

(** [entry?.toString()]: [undefined] (falsy) on [null]. *)
Definition entry_toString (v : option Z) : string :=
  match v with
  | Some n => JSString.of_Z n
  | None => ""
  end.

(** What a call leaves behind: it returned, or it threw [err]; in both
    cases [a] is the state reached. *)
Inductive Outcome (A : Type) :=
| Returned (a : A)
| Thrown (err : string) (a : A).
Arguments Returned {A} a.
Arguments Thrown {A} err a.

Definition reached {A : Type} (o : Outcome A) : A :=
  match o with Returned a | Thrown _ a => a end.

Definition threw {A : Type} (o : Outcome A) : bool :=
  match o with Returned _ => false | Thrown _ _ => true end.

Definition outcome_map {A B : Type} (f : A -> B) (o : Outcome A) : Outcome B :=
  match o with
  | Returned a => Returned (f a)
  | Thrown e a => Thrown e (f a)
  end.

(** [new Date()] as the screenshot export reads it. *)
Record Clock := {
  toLocaleDateString : string;
  toLocaleTimeString : string;
  getTime : Z
}.

(** A download started by clicking a synthesised link. *)
Record Download := { download : string; href : string }.

Section Component.
Context {num : Type} `{Number num}.

(** *** State *)

Record State := {
  wavelength : string;
  distance : string;
  particleSize : string;
  selectedMaterial : Material;
  zoomLevel : list num
}.

Definition initialState : State :=
  {| wavelength := "650"; distance := "100"; particleSize := "10";
     selectedMaterial := lycopodium; zoomLevel := [int 1] |}.

Definition setWavelength (v : string) (st : State) : State :=
  {| wavelength := v; distance := distance st;
     particleSize := particleSize st;
     selectedMaterial := selectedMaterial st; zoomLevel := zoomLevel st |}.

Definition setDistance (v : string) (st : State) : State :=
  {| wavelength := wavelength st; distance := v;
     particleSize := particleSize st;
     selectedMaterial := selectedMaterial st; zoomLevel := zoomLevel st |}.

Definition setParticleSize (v : string) (st : State) : State :=
  {| wavelength := wavelength st; distance := distance st;
     particleSize := v;
     selectedMaterial := selectedMaterial st; zoomLevel := zoomLevel st |}.

Definition setSelectedMaterial (v : Material) (st : State) : State :=
  {| wavelength := wavelength st; distance := distance st;
     particleSize := particleSize st;
     selectedMaterial := v; zoomLevel := zoomLevel st |}.

Definition setZoomLevel (v : list num) (st : State) : State :=
  {| wavelength := wavelength st; distance := distance st;
     particleSize := particleSize st;
     selectedMaterial := selectedMaterial st; zoomLevel := v |}.

(** *** Parameter store *)

(** The effect that depends on [selectedMaterial]. *)
Definition materialEffect (st : State) : State :=
  if andb (negb (Material_eqb (selectedMaterial st) custom))
          (truthy_entry (materialsData (selectedMaterial st)))
  then setParticleSize
         (JSString.or_else
            (entry_toString (materialsData (selectedMaterial st))) "10") st
  else st.

(** The [disabled] attribute of the particle-size input. *)
Definition particleSizeDisabled (st : State) : bool :=
  negb (Material_eqb (selectedMaterial st) custom).

(** State after mounting: the effects run once after the first render. *)
Definition mounted : State := materialEffect initialState.

(** User input that changes the state. *)
Inductive Event :=
| ChangeWavelength (v : string)
| ChangeDistance (v : string)
| ChangeParticleSize (v : string)
| ChangeMaterial (v : Material)
| ChangeZoom (v : list num).

(** One event, the re-render and the effects it triggers.  A disabled
    input fires no change event; the material effect runs only when
    [selectedMaterial] has changed. *)
Definition handle (ev : Event) (st : State) : State :=
  match ev with
  | ChangeWavelength v => setWavelength v st
  | ChangeDistance v => setDistance v st
  | ChangeParticleSize v =>
      if particleSizeDisabled st then st else setParticleSize v st
  | ChangeMaterial v =>
      if Material_eqb v (selectedMaterial st) then st
      else materialEffect (setSelectedMaterial v st)
  | ChangeZoom v => setZoomLevel v st
  end.

Definition run (evs : list Event) (st : State) : State :=
  fold_left (fun s ev => handle ev s) evs st.

(** *** Canvas *)

(** Calls on a 2D context, in the order they were made.  What the
    bitmap shows is determined by this sequence. *)
#[warnings="-register-all"]
Inductive Cmd :=
| SetFillStyle (style : string)
| SetStrokeStyle (style : string)
| SetLineWidth (w : num)
| SetFont (font : string)
| FillRect (x y w h : num)
| BeginPath
| MoveTo (x y : num)
| LineTo (x y : num)
| Arc (x y r startAngle endAngle : num)
| Stroke
| Fill
| FillText (text : string) (x y : num)
| DrawImage (image : list Cmd) (dx dy : num).

(** A canvas element.  [context2d] is [None] when [getContext('2d')]
    returns [null], otherwise the calls made on the context so far. *)
Record Canvas := {
  width : Z;
  height : Z;
  context2d : option (list Cmd)
}.

(** Assigning [width] or [height] clears the bitmap. *)
Definition set_width (v : Z) (c : Canvas) : Canvas :=
  {| width := v; height := height c;
     context2d := option_map (fun _ => []) (context2d c) |}.

Definition set_height (v : Z) (c : Canvas) : Canvas :=
  {| width := width c; height := v;
     context2d := option_map (fun _ => []) (context2d c) |}.

Definition with_context (log : list Cmd) (c : Canvas) : Canvas :=
  {| width := width c; height := height c; context2d := Some log |}.

(** What [drawImage] copies from a canvas. *)
Definition bitmap (c : Canvas) : list Cmd :=
  match context2d c with Some log => log | None => [] end.

(** Everything outside the component's state that it touches. *)
Record World := {
  canvasRef : option Canvas;
  screenshotCanvasRef : option Canvas;
  downloads : list Download
}.

(** *** Drawing *)

(** A drawing step extends the log of calls, or throws. *)
Definition Draw := list Cmd -> Outcome (list Cmd).

Definition done : Draw := fun log => Returned log.

Definition call (c : Cmd) : Draw := fun log => Returned (log ++ [c]).

Definition andThen (a b : Draw) : Draw :=
  fun log =>
    match a log with
    | Returned log' => b log'
    | Thrown e log' => Thrown e log'
    end.

Local Notation "a ;; b" := (andThen a b) (at level 61, right associativity).

(** [ctx.arc]: the canvas narrows its arguments, returns without drawing
    when one of them is then not finite, and throws IndexSizeError when
    the narrowed radius is below zero.  The log keeps the arguments of
    the call as the component passed them. *)
Definition arc (x y r a0 a1 : num) : Draw :=
  fun log =>
    if andb (forallb (fun a => isFinite (narrow a)) [x; y; r; a0; a1])
            (ltb (narrow r) (int 0))
    then Thrown "IndexSizeError" log
    else Returned (log ++ [Arc x y r a0 a1]).

(** [for (let m = first; m <= last; m++) body], the values of [m]
    being [range first last]. *)
Fixpoint forEach {A : Type} (ms : list A) (body : A -> Draw) : Draw :=
  match ms with
  | [] => done
  | m :: rest => body m ;; forEach rest body
  end.

Definition range (first last : Z) : list Z :=
  List.map (fun i => first + Z.of_nat i) (seq 0 (Z.to_nat (last - first + 1))).

Definition maxOrder : Z := 10.

(** *** generatePattern *)

Definition wavelengthSI (st : State) : num :=
  mul (parseFloat (wavelength st)) (lit 1 (-9)).
Definition distanceSI (st : State) : num :=
  mul (parseFloat (distance st)) (lit 1 (-2)).
Definition particleSizeSI (st : State) : num :=
  mul (parseFloat (particleSize st)) (lit 1 (-6)).

Definition baseScaleFactor : num := int 4000.

(** [zoomLevel[0]], [undefined] (NaN in arithmetic) on an empty array. *)
Definition zoom (st : State) : num := hd NaN (zoomLevel st).

Definition scaleFactor (st : State) : num := mul baseScaleFactor (zoom st).

Definition sinTheta (st : State) (m : Z) : num :=
  div (mul (int m) (wavelengthSI st)) (particleSizeSI st).

Definition skipped (st : State) (m : Z) : bool :=
  geb (Math_abs (sinTheta st m)) (int 1).

Definition theta (st : State) (m : Z) : num := Math_asin (sinTheta st m).

Definition radius (st : State) (m : Z) : num :=
  mul (distanceSI st) (Math_tan (theta st m)).

Definition pixelRadius (st : State) (m : Z) : num :=
  mul (radius st m) (scaleFactor st).

(** The fits-on-canvas test. *)
Definition fits (canvas : Canvas) (r : num) : bool :=
  leb r (div (Math_min (int (width canvas)) (int (height canvas))) (int 2)).

Definition centerX (canvas : Canvas) : num := div (int (width canvas)) (int 2).
Definition centerY (canvas : Canvas) : num := div (int (height canvas)) (int 2).

(** Black background and the crosshair. *)
Definition drawBackground (canvas : Canvas) : Draw :=
  call (SetFillStyle "black") ;;
  call (FillRect (int 0) (int 0) (int (width canvas)) (int (height canvas))) ;;
  call (SetStrokeStyle "rgba(255, 255, 255, 0.2)") ;;
  call BeginPath ;;
  call (MoveTo (centerX canvas) (int 0)) ;;
  call (LineTo (centerX canvas) (int (height canvas))) ;;
  call (MoveTo (int 0) (centerY canvas)) ;;
  call (LineTo (int (width canvas)) (centerY canvas)) ;;
  call Stroke.

(** The central bright spot. *)
Definition drawCentralSpot (canvas : Canvas) : Draw :=
  call BeginPath ;;
  call (SetFillStyle "rgba(255, 0, 0, 0.8)") ;;
  arc (centerX canvas) (centerY canvas) (int 5) (int 0) (mul Math_PI (int 2)) ;;
  call Fill.

(** The ring of radius [r] with its label. *)
Definition drawRing (canvas : Canvas) (m : Z) (r : num) : Draw :=
  call BeginPath ;;
  call (SetStrokeStyle "rgba(255, 0, 0, 0.9)") ;;
  call (SetLineWidth (int 3)) ;;
  arc (centerX canvas) (centerY canvas) r (int 0) (mul Math_PI (int 2)) ;;
  call Stroke ;;
  call (SetFillStyle "rgba(255, 255, 255, 0.7)") ;;
  call (SetFont "12px Arial") ;;
  call (FillText ("m=" ++ JSString.of_Z m)%string
          (add (add (centerX canvas) r) (int 5)) (centerY canvas)).

(** One turn of the loop over the orders. *)
Definition ringBody (st : State) (canvas : Canvas) (m : Z) : Draw :=
  if skipped st m then done
  else if fits canvas (pixelRadius st m)
       then drawRing canvas m (pixelRadius st m)
       else done.

(** The body of [generatePattern] once canvas and context are there. *)
Definition paint (st : State) (canvas : Canvas) : Draw :=
  drawBackground canvas ;;
  drawCentralSpot canvas ;;
  forEach (range 1 maxOrder) (ringBody st canvas).

Definition onCanvas (st : World) (canvas : Canvas) (log : list Cmd) : World :=
  {| canvasRef := Some (with_context log canvas);
     screenshotCanvasRef := screenshotCanvasRef st;
     downloads := downloads st |}.

Definition generatePattern (st : State) (w : World) : Outcome World :=
  match canvasRef w with
  | None => Returned w
  | Some canvas =>
      match context2d canvas with
      | None => Returned w
      | Some log => outcome_map (onCanvas w canvas) (paint st canvas log)
      end
  end.

(** *** The rings as data *)

Record RingGeometry := { order : Z; ringRadius : num }.

(** What one turn of the loop decides: no ring, or the ring to draw. *)
Definition ringOf (st : State) (canvas : Canvas) (m : Z) : list RingGeometry :=
  if skipped st m then []
  else if fits canvas (pixelRadius st m)
       then [ {| order := m; ringRadius := pixelRadius st m |} ]
       else [].

(** The orders that get a ring, with their pixel radius: the loop of
    [generatePattern] without the drawing. *)
Definition computeRings (st : State) (canvas : Canvas) : list RingGeometry :=
  flat_map (ringOf st canvas) (range 1 maxOrder).

(** Drawing a list of rings, one after the other. *)
Definition drawRings (canvas : Canvas) (rings : list RingGeometry) : Draw :=
  forEach rings (fun r => drawRing canvas (order r) (ringRadius r)).

(** *** takeScreenshot *)

(** What the export needs from the browser: the clock and the PNG
    encoder. *)
Record Browser := {
  now : Clock;
  toDataURL : Canvas -> string
}.

Definition materialName (st : State) : string :=
  if Material_eqb (selectedMaterial st) custom then "Custom"
  else JSString.capitalize (material_value (selectedMaterial st)).

Definition throw (err : string) : Draw := fun log => Thrown err log.

(** [ctx.drawImage(canvas, dx, dy)]: InvalidStateError on a source
    canvas without area. *)
Definition drawImage (source : Canvas) (dx dy : num) : Draw :=
  if orb (width source =? 0) (height source =? 0)
  then throw "InvalidStateError"
  else call (DrawImage (bitmap source) dx dy).

Definition timestamp (clock : Clock) : string :=
  (toLocaleDateString clock ++ " " ++ toLocaleTimeString clock)%string.

(** Background, pattern and the three rows of text; [shot] is the
    screenshot canvas after it has been resized. *)
Definition compose (st : State) (mainCanvas shot : Canvas) (clock : Clock)
  : Draw :=
  let padding := int 10 in
  let yPos0 := add (int (height mainCanvas)) (int 20) in
  let yPos1 := add yPos0 (int 25) in
  let yPos2 := add yPos1 (int 25) in
  call (SetFillStyle "#f5f5f5") ;;
  call (FillRect (int 0) (int 0) (int (width shot)) (int (height shot))) ;;
  drawImage mainCanvas (int 0) (int 0) ;;
  call (SetFillStyle "#333") ;;
  call (SetFont "14px Arial") ;;
  call (FillText ("Material: " ++ materialName st)%string padding yPos0) ;;
  call (FillText ("Wavelength: " ++ wavelength st ++ " nm")%string
          (add padding (int 180)) yPos0) ;;
  call (FillText ("Particle Size: " ++ particleSize st ++ " μm")%string
          padding yPos1) ;;
  call (FillText ("Screen Distance: " ++ distance st ++ " cm")%string
          (add padding (int 180)) yPos1) ;;
  match zoomLevel st with
  | [] => throw "TypeError"
  | z :: _ =>
      call (FillText ("Zoom Level: " ++ toFixed1 z ++ "x")%string padding yPos2)
  end ;;
  call (FillText ("Generated: " ++ timestamp clock)%string
          (sub (int (width shot)) (int 220)) yPos2).

Definition fileName (clock : Clock) : string :=
  ("laser-diffraction-" ++ JSString.of_Z (getTime clock) ++ ".png")%string.

Definition takeScreenshot (browser : Browser) (st : State) (w : World)
  : Outcome World :=
  match canvasRef w, screenshotCanvasRef w with
  | Some mainCanvas, Some screenshotCanvas =>
      match context2d screenshotCanvas with
      | None => Returned w
      | Some _ =>
          let shot :=
            set_height (height mainCanvas + 100)
              (set_width (width mainCanvas) screenshotCanvas) in
          match compose st mainCanvas shot (now browser) (bitmap shot) with
          | Thrown e log =>
              Thrown e
                {| canvasRef := canvasRef w;
                   screenshotCanvasRef := Some (with_context log shot);
                   downloads := downloads w |}
          | Returned log =>
              let final := with_context log shot in
              Returned
                {| canvasRef := canvasRef w;
                   screenshotCanvasRef := Some final;
                   downloads :=
                     downloads w ++
                     [ {| download := fileName (now browser);
                          href := toDataURL browser final |} ] |}
          end
      end
  | _, _ => Returned w
  end.

(** *** Vocabulary of the results *)

(** The canvas an operation asks for is missing, or it has no 2D
    context. *)
Definition unavailable (ref : option Canvas) : Prop :=
  match ref with
  | None => True
  | Some canvas => context2d canvas = None
  end.

(** The calls that paint the background, the crosshair and the central
    spot on [canvas]. *)
Definition emptyPattern (canvas : Canvas) : list Cmd :=
  [ SetFillStyle "black";
    FillRect (int 0) (int 0) (int (width canvas)) (int (height canvas));
    SetStrokeStyle "rgba(255, 255, 255, 0.2)";
    BeginPath;
    MoveTo (centerX canvas) (int 0);
    LineTo (centerX canvas) (int (height canvas));
    MoveTo (int 0) (centerY canvas);
    LineTo (int (width canvas)) (centerY canvas);
    Stroke;
    BeginPath;
    SetFillStyle "rgba(255, 0, 0, 0.8)";
    Arc (centerX canvas) (centerY canvas) (int 5) (int 0) (mul Math_PI (int 2));
    Fill ].

(** The tangent of the angle of order [m], as the host computes it, lies
    between the sine [s] and [s * (1 + s * s)]. *)
Definition tangent_in_range (st : State) (m : Z) : bool :=
  let s := sinTheta st m in
  let t := Math_tan (theta st m) in
  leb s t && leb t (mul s (add (int 1) (mul s s))).

(** [d] only appends calls that satisfy [P], whether it returns or
    throws. *)
Definition appends (P : Cmd -> Prop) (d : Draw) : Prop :=
  forall log, exists calls, reached (d log) = log ++ calls /\ Forall P calls.

End Component.

Arguments State : clear implicits.
Arguments Event : clear implicits.
Arguments Cmd : clear implicits.
Arguments Canvas : clear implicits.
Arguments World : clear implicits.
Arguments Draw : clear implicits.
Arguments RingGeometry : clear implicits.
Arguments Browser : clear implicits.

(** ** The revision without zoom *)

(** The earlier revision of the component has no zoom slider and no
    screenshot export: its state is [State] without [zoomLevel], which it
    never reads.  Its [generatePattern] scales by the constant 4000 and
    ends with a caption. *)
Module Captioned.
Section Revision.
Context {num : Type} `{Number num}.

Local Notation "a ;; b" := (andThen a b) (at level 61, right associativity).

Definition scaleFactor : num := int 4000.

Definition pixelRadius (st : State num) (m : Z) : num :=
  mul (radius st m) scaleFactor.

Definition ringBody (st : State num) (canvas : Canvas num) (m : Z) : Draw num :=
  if skipped st m then done
  else if fits canvas (pixelRadius st m)
       then drawRing canvas m (pixelRadius st m)
       else done.

Definition caption : string :=
  "Note: Diffraction pattern scale has been enhanced for visibility".

(** The note about the visualisation scale. *)
Definition drawCaption (canvas : Canvas num) : Draw num :=
  call (SetFillStyle "rgba(255, 255, 255, 0.7)") ;;
  call (SetFont "14px Arial") ;;
  call (FillText caption (int 20) (sub (int (height canvas)) (int 20))).

(** The three calls of [drawCaption]. *)
Definition captionCalls (canvas : Canvas num) : list (Cmd num) :=
  [ SetFillStyle "rgba(255, 255, 255, 0.7)";
    SetFont "14px Arial";
    FillText caption (int 20) (sub (int (height canvas)) (int 20)) ].

(** Background, spot and rings: everything before the caption. *)
Definition paintRings (st : State num) (canvas : Canvas num) : Draw num :=
  drawBackground canvas ;;
  drawCentralSpot canvas ;;
  forEach (range 1 maxOrder) (ringBody st canvas).

(** A call that writes the caption text. *)
Definition is_caption (c : Cmd num) : bool :=
  match c with
  | FillText text _ _ => String.eqb text caption
  | _ => false
  end.

Definition paint (st : State num) (canvas : Canvas num) : Draw num :=
  drawBackground canvas ;;
  drawCentralSpot canvas ;;
  forEach (range 1 maxOrder) (ringBody st canvas) ;;
  drawCaption canvas.

Definition generatePattern (st : State num) (w : World num)
  : Outcome (World num) :=
  match canvasRef w with
  | None => Returned w
  | Some canvas =>
      match context2d canvas with
      | None => Returned w
      | Some log => outcome_map (onCanvas w canvas) (paint st canvas log)
      end
  end.

Definition no_caption (c : Cmd num) : Prop := is_caption c = false.

End Revision.
End Captioned.

(** ** IEEE-754 binary64 *)

(** The numbers the browser computes with.  Arithmetic and comparisons
    are those of the standard ([SpecFloat], round to nearest even).
    [Math.asin], [Math.tan] and [Number::toString] belong to the host:
    ECMAScript fixes [Math.asin] and [Math.tan] only at a few arguments
    and leaves the rest to the implementation, so they are taken from a
    [Host]. *)
Module IEEE754.
Import Floats.SpecFloat.

Definition prec : Z := 53.
Definition emax : Z := 1024.

Definition float := spec_float.

Definition fmul : float -> float -> float := SFmul prec emax.
Definition fdiv : float -> float -> float := SFdiv prec emax.
Definition fadd : float -> float -> float := SFadd prec emax.
Definition fsub : float -> float -> float := SFsub prec emax.
Definition fsqrt : float -> float := SFsqrt prec emax.

Definition fgeb (a b : float) : bool := SFleb b a.

(** The largest finite single-precision number, [(2^24 - 1) * 2^104]. *)
Definition single_max : float := S754_finite false 16777215 104.

(** The single-precision number that the canvas keeps of a double
    argument: an infinity beyond the largest single, otherwise the
    nearest single, ties to even (a double below half the smallest
    single becomes a zero of its sign). *)
Definition to_single (x : float) : float :=
  match x with
  | S754_finite s m e =>
      if SFltb single_max (SFabs x) then S754_infinity s
      else binary_normalize 24 128 (cond_Zopp s (Zpos m)) e s
  | _ => x
  end.

(** The double nearest to [(-1)^neg * n * 10^e], ties to even. *)
Definition round_decimal (neg : bool) (n : N) (e : Z) : float :=
  match n with
  | N0 => S754_zero neg
  | Npos p =>
      match e with
      | Zneg k =>
          let '(q, e', l) :=
            SFdiv_core_binary prec emax (Zpos p) 0 (Z.pow_pos 10 k) 0 in
          binary_round_aux prec emax neg q e' l
      | _ => binary_round prec emax neg (p * Z.to_pos (10 ^ e))%positive 0
      end
  end.

Definition of_decimal (d : Decimal) : float :=
  match d with
  | DNaN => S754_nan
  | DInfinity neg => S754_infinity neg
  | DNum neg n e => round_decimal neg n e
  end.

(** [Math.min(a, b)]: NaN if either is, and -0 below +0. *)
Definition min (a b : float) : float :=
  match SFcompare a b with
  | None => S754_nan
  | Some Lt => a
  | Some Gt => b
  | Some Eq =>
      match a with
      | S754_zero true => a
      | _ => b
      end
  end.

Definition PI : float := S754_finite false 7074237752028440 (-51).

Definition is_finite (x : float) : bool :=
  match x with
  | S754_zero _ | S754_finite _ _ _ => true
  | _ => false
  end.

(** The integer nearest to [10 * m * 2^e], the larger one on a tie. *)
Definition tenths (m : positive) (e : Z) : Z :=
  match e with
  | Zneg k => (20 * Zpos m + Z.pow_pos 2 k) / (2 * Z.pow_pos 2 k)
  | _ => 10 * Zpos m * 2 ^ e
  end.

(** The numbers with the sign and exponent of [x] whose mantissa is at
    most [n] away from that of [x]. *)
Definition around (x : float) (n : nat) : list float :=
  match x with
  | S754_finite s m e =>
      List.map (fun i => S754_finite s (Z.to_pos (Zpos m - Z.of_nat n + Z.of_nat i)) e)
               (seq 0 (2 * n + 1))
  | _ => [x]
  end.

Class Host := {
  asin : float -> float;
  tan : float -> float;
  (* [Number::toString] on finite numbers from 1e21 upwards *)
  toString : float -> string
}.

(** [Number.prototype.toFixed] with one fraction digit. *)
Definition to_fixed1 {host : Host} (x : float) : string :=
  match x with
  | S754_nan => "NaN"
  | S754_infinity neg => if neg then "-Infinity" else "Infinity"
  | S754_zero _ => "0.0"
  | S754_finite neg m e =>
      if SFleb (round_decimal false 1 21) (SFabs x)
      then (if neg then String "-" (toString (SFabs x)) else toString x)
      else JSString.fixed1 neg (tenths m e)
  end.

#[export] Instance number {host : Host} : Number float := {|
  ofDecimal := of_decimal;
  mul := fmul;
  div := fdiv;
  add := fadd;
  sub := fsub;
  geb := fgeb;
  leb := SFleb;
  ltb := SFltb;
  Math_abs := SFabs;
  Math_min := min;
  Math_asin := asin;
  Math_tan := tan;
  Math_PI := PI;
  isFinite := is_finite;
  narrow := to_single;
  toFixed1 := to_fixed1
|}.

(** *** Rounding read as integer arithmetic

    The vocabulary in which the order of rounded products and quotients
    is stated. *)

(** Rounding to the nearest integer, ties to even, of [N / D]. *)
Definition rne (N D : Z) : Z :=
  let q := N / D in
  let r := N mod D in
  if 2 * r <? D then q
  else if D <? 2 * r then q + 1
  else if Z.even q then q else q + 1.

(** [rec] holds the integer part of [N / D] and where the rest lies
    relative to one half. *)
Definition locates (rec : shr_record) (N D : Z) : Prop :=
  shr_m rec = N / D /\
  shr_r rec = (D <=? 2 * (N mod D)) /\
  shr_s rec = negb (N mod D =? 0) && negb (2 * (N mod D) =? D).

(** The number with sign [sx] and mantissa [m] at the exponent [g]: a
    mantissa of 54 digits moves one exponent up, an exponent above the
    largest gives infinity. *)
Definition finalize (sx : bool) (m g : Z) : spec_float :=
  if m =? 0 then S754_zero sx
  else if m =? 2 ^ 53 then
    (if g + 1 <=? 971 then S754_finite sx (Z.to_pos (2 ^ 52)) (g + 1)
     else S754_infinity sx)
  else if g <=? 971 then S754_finite sx (Z.to_pos m) g
  else S754_infinity sx.

(** A rational [N / D] at the exponent [g] that the format gives it. *)
Definition normalised (N D g : Z) : Prop :=
  0 <= N /\ 0 < D /\ -1074 <= g /\
  N / D < 2 ^ 53 /\ (-1074 < g -> 2 ^ 52 <= N / D).

(** [N / D * 2 ^ e <= N' / D' * 2 ^ e'], with an offset [B] that keeps
    the exponents non-negative. *)
Definition le_at (B N D e N' D' e' : Z) : Prop :=
  N * D' * 2 ^ (e + B) <= N' * D * 2 ^ (e' + B).

(** A valid number that is finite and above zero. *)
Definition positive_finite (x : spec_float) : bool :=
  match x with
  | S754_finite false m e => bounded prec emax m e
  | _ => false
  end.

(** A valid number that is neither NaN nor below zero. *)
Definition ordinary (x : spec_float) : bool :=
  match x with
  | S754_zero _ | S754_infinity false => true
  | S754_finite false m e => bounded prec emax m e
  | _ => false
  end.

(** The real number that a double stands for; 0 where it is not a
    finite number. *)
Definition value (x : float) : R :=
  match x with
  | S754_finite s m e =>
      ((if s then -1 else 1) * IZR (Zpos m) * powerRZ 2 e)%R
  | _ => 0%R
  end.

(** A valid number that is finite, above zero and not subnormal: its
    mantissa has all 53 digits. *)
Definition normal (x : float) : bool :=
  match x with
  | S754_finite false m e => bounded prec emax m e && (2 ^ 52 <=? Zpos m)
  | _ => false
  end.

(** Half a unit in the last place of 1. *)
Definition unit_roundoff : R := (/ 2 ^ 53)%R.

(** *** A reference host

    Power series evaluated in binary64, good to a few units in the last
    place on the arguments the component produces. *)
Module Reference.

Definition one : float := S754_finite false 4503599627370496 (-52).
Definition two : float := S754_finite false 4503599627370496 (-51).
Definition half : float := S754_finite false 4503599627370496 (-53).
Definition of_pos (p : positive) : float := binary_round prec emax false p 0.
Definition PI_2 : float := S754_finite false 7074237752028440 (-52).

(** [1 + c(n+1) x2 (1 + c(n+2) x2 (...))] with [count] factors. *)
Fixpoint nest (c : positive -> float) (x2 : float) (count : nat) (n : positive)
  : float :=
  match count with
  | O => one
  | S k => fadd one (fmul (fmul (c n) x2) (nest c x2 k (Pos.succ n)))
  end.

(** Ratio of consecutive coefficients of the arcsine series. *)
Definition asin_ratio (n : positive) : float :=
  fdiv (of_pos ((2 * n - 1) * (2 * n - 1))) (of_pos (2 * n * (2 * n + 1))).

(** arcsine for [|x| <= 1/2] *)
Definition asin_small (x : float) : float :=
  let x2 := fmul x x in
  fadd x (fmul x (fsub (nest asin_ratio x2 40 1) one)).

Definition asin (x : float) : float :=
  match x with
  | S754_nan | S754_infinity _ => S754_nan
  | S754_zero _ => x
  | S754_finite neg _ _ =>
      let a := SFabs x in
      if SFltb one a then S754_nan
      else if SFleb a half then asin_small x
      else
        let r := fsub PI_2
                   (fmul two (asin_small (fsqrt (fmul (fsub one a) half)))) in
        if neg then SFopp r else r
  end.

Definition sin_ratio (n : positive) : float :=
  SFopp (fdiv one (of_pos (2 * n * (2 * n + 1)))).

Definition cos_ratio (n : positive) : float :=
  SFopp (fdiv one (of_pos ((2 * n - 1) * (2 * n)))).

(** tangent for [|x| <= pi/4] *)
Definition tan_small (x : float) : float :=
  let x2 := fmul x x in
  fdiv (fadd x (fmul x (fsub (nest sin_ratio x2 16 1) one)))
       (nest cos_ratio x2 16 1).

(** The integer nearest to a finite number. *)
Definition nearest (x : float) : Z :=
  match x with
  | S754_finite neg m e =>
      let v := match e with
               | Zneg k => (2 * Zpos m + Z.pow_pos 2 k) / (2 * Z.pow_pos 2 k)
               | _ => Zpos m * 2 ^ e
               end in
      if neg then - v else v
  | _ => 0
  end.

Definition of_Z (z : Z) : float := binary_normalize prec emax z 0 false.

Definition tan (x : float) : float :=
  match x with
  | S754_nan | S754_infinity _ => S754_nan
  | S754_zero _ => x
  | S754_finite _ _ _ =>
      let k := nearest (fdiv x PI_2) in
      let r := fsub x (fmul (of_Z k) PI_2) in
      if Z.even k then tan_small r
      else SFopp (fdiv one (tan_small r))
  end.

(** Decimal digits of an integer-valued number followed by nothing
    else: not the shortest form ECMAScript asks for. *)
Definition toString (x : float) : string := JSString.of_Z (nearest x).

Definition host : Host :=
  {| IEEE754.asin := asin; IEEE754.tan := tan; IEEE754.toString := toString |}.

End Reference.

End IEEE754.

(** ** Exact arithmetic *)

(** The same numbers without rounding: the reals with NaN and the two
    infinities, the arcsine and tangent being the functions themselves.
    What is lost against binary64 is the rounding of every operation,
    overflow, underflow and the sign of zero (a quotient by zero takes the
    sign of its numerator). *)
Module Exact.
Local Open Scope R_scope.

Inductive xreal :=
| XNaN
| XInf (neg : bool)
| XFin (r : R).

Definition negative (r : R) : bool := if Rlt_dec r 0 then true else false.

Definition is_zero (r : R) : bool := if Req_dec_T r 0 then true else false.

Definition of_decimal (d : Decimal) : xreal :=
  match d with
  | DNaN => XNaN
  | DInfinity neg => XInf neg
  | DNum neg n e =>
      XFin ((if neg then -1 else 1) * IZR (Z.of_N n) * powerRZ 10 e)
  end.

Definition xmul (a b : xreal) : xreal :=
  match a, b with
  | XNaN, _ | _, XNaN => XNaN
  | XFin x, XFin y => XFin (x * y)
  | XInf s, XInf t => XInf (xorb s t)
  | XInf s, XFin y => if is_zero y then XNaN else XInf (xorb s (negative y))
  | XFin x, XInf t => if is_zero x then XNaN else XInf (xorb (negative x) t)
  end.

Definition xdiv (a b : xreal) : xreal :=
  match a, b with
  | XNaN, _ | _, XNaN => XNaN
  | XFin x, XFin y =>
      if is_zero y
      then (if is_zero x then XNaN else XInf (negative x))
      else XFin (x / y)
  | XInf _, XInf _ => XNaN
  | XInf s, XFin y => XInf (xorb s (negative y))
  | XFin x, XInf t => XFin 0
  end.

Definition xadd (a b : xreal) : xreal :=
  match a, b with
  | XNaN, _ | _, XNaN => XNaN
  | XFin x, XFin y => XFin (x + y)
  | XInf s, XInf t => if Bool.eqb s t then XInf s else XNaN
  | XInf s, XFin _ => XInf s
  | XFin _, XInf t => XInf t
  end.

Definition xopp (a : xreal) : xreal :=
  match a with
  | XNaN => XNaN
  | XInf s => XInf (negb s)
  | XFin x => XFin (- x)
  end.

Definition xsub (a b : xreal) : xreal := xadd a (xopp b).

(** [a <= b] *)
Definition xleb (a b : xreal) : bool :=
  match a, b with
  | XNaN, _ | _, XNaN => false
  | XFin x, XFin y => if Rle_dec x y then true else false
  | XInf s, XInf t => orb s (negb t)
  | XInf s, XFin _ => s
  | XFin _, XInf t => negb t
  end.

(** [a < b] *)
Definition xltb (a b : xreal) : bool :=
  match a, b with
  | XNaN, _ | _, XNaN => false
  | XFin x, XFin y => if Rlt_dec x y then true else false
  | XInf s, XInf t => andb s (negb t)
  | XInf s, XFin _ => s
  | XFin _, XInf t => negb t
  end.

Definition xabs (a : xreal) : xreal :=
  match a with
  | XNaN => XNaN
  | XInf _ => XInf false
  | XFin x => XFin (Rabs x)
  end.

Definition xmin (a b : xreal) : xreal :=
  match a, b with
  | XNaN, _ | _, XNaN => XNaN
  | _, _ => if xleb a b then a else b
  end.

Definition xasin (a : xreal) : xreal :=
  match a with
  | XFin x =>
      if Rle_dec (-1) x
      then (if Rle_dec x 1 then XFin (asin x) else XNaN)
      else XNaN
  | _ => XNaN
  end.

Definition xtan (a : xreal) : xreal :=
  match a with
  | XFin x => XFin (tan x)
  | _ => XNaN
  end.

Definition is_finite (a : xreal) : bool :=
  match a with XFin _ => true | _ => false end.

(** [x.toFixed(1)] below 1e21; the decimal expansion of larger numbers
    is not modelled and comes out empty. *)
Definition to_fixed1 (a : xreal) : string :=
  match a with
  | XNaN => "NaN"
  | XInf neg => if neg then "-Infinity" else "Infinity"
  | XFin x =>
      if Rle_dec (10 ^ 21) (Rabs x) then ""
      else JSString.fixed1 (negative x) (up (Rabs x * 10 + / 2) - 1)%Z
  end.

#[export] Instance number : Number xreal := {|
  ofDecimal := of_decimal;
  mul := xmul;
  div := xdiv;
  add := xadd;
  sub := xsub;
  geb := fun a b => xleb b a;
  leb := xleb;
  ltb := xltb;
  Math_abs := xabs;
  Math_min := xmin;
  Math_asin := xasin;
  Math_tan := xtan;
  Math_PI := XFin PI;
  isFinite := is_finite;
  (* no narrowing in exact arithmetic *)
  narrow := fun x => x;
  toFixed1 := to_fixed1
|}.

End Exact.

(** ** Sample data *)

Module Sample.
Import IEEE754.

(** The canvas of the component, 800 by 400, with nothing drawn yet. *)
Definition canvas {num : Type} : Canvas num :=
  {| width := 800; height := 400; context2d := Some [] |}.

Definition hidden {num : Type} : Canvas num :=
  {| width := 800; height := 500; context2d := Some [] |}.

Definition world {num : Type} : World num :=
  {| canvasRef := Some canvas; screenshotCanvasRef := Some hidden;
     downloads := [] |}.

(** A page on which the canvas has not been attached. *)
Definition detached {num : Type} : World num :=
  {| canvasRef := None; screenshotCanvasRef := None; downloads := [] |}.

Definition browser {num : Type} : Browser num :=
  {| now := {| toLocaleDateString := "11/2/2026";
               toLocaleTimeString := "10:00:00 AM";
               getTime := 1793613600000 |};
     toDataURL := fun _ => "data:image/png;base64," |}.

(** Lycopodium powder in red light, one metre from the screen. *)
Definition lycopodium_red {num : Type} {H : Number num} : State num :=
  {| wavelength := "650"; distance := "100"; particleSize := "30";
     selectedMaterial := lycopodium; zoomLevel := [int 1] |}.

(** Particles smaller than the wavelength: no order has an angle. *)
Definition too_small {num : Type} {H : Number num} : State num :=
  {| wavelength := "650"; distance := "100"; particleSize := "0.5";
     selectedMaterial := custom; zoomLevel := [int 1] |}.

(** The wavelength field cleared. *)
Definition cleared {num : Type} {H : Number num} : State num :=
  {| wavelength := ""; distance := "100"; particleSize := "30";
     selectedMaterial := lycopodium; zoomLevel := [int 1] |}.

#[local] Existing Instance Reference.host.

Definition ieee : Number float := IEEE754.number.

End Sample.

(** ** The rest of the component *)

(** What the claims' theorems did not need: the calls of a painting and
    of an export read as data, the first revision of [generatePattern],
    and the page, on which renders, effects and handlers follow one
    another. *)

Section Paintings.
Context {num : Type} `{Number num}.

(** The calls a drawing step makes on an untouched context, and whether
    it returns. *)
Definition painted (d : Draw num) : Outcome (list (Cmd num)) := d [].

(** [d] does not look at the calls made before it: it makes the same
    calls, and returns or throws alike, after any of them. *)
Definition oblivious (d : Draw num) : Prop :=
  forall log, d log = outcome_map (app log) (painted d).

(** The eight calls that draw the ring of order [m] and radius [r] with
    its label. *)
Definition ringCalls (canvas : Canvas num) (m : Z) (r : num) : list (Cmd num) :=
  [ BeginPath;
    SetStrokeStyle "rgba(255, 0, 0, 0.9)";
    SetLineWidth (int 3);
    Arc (centerX canvas) (centerY canvas) r (int 0) (mul Math_PI (int 2));
    Stroke;
    SetFillStyle "rgba(255, 255, 255, 0.7)";
    SetFont "12px Arial";
    FillText ("m=" ++ JSString.of_Z m)%string
      (add (add (centerX canvas) r) (int 5)) (centerY canvas) ].

(** A ring that [ctx.arc] refuses: every argument finite once narrowed,
    the narrowed radius below zero. *)
Definition refused (canvas : Canvas num) (r : num) : bool :=
  forallb (fun a => isFinite (narrow a))
    [centerX canvas; centerY canvas; r; int 0; mul Math_PI (int 2)]
  && ltb (narrow r) (int 0).

(** Order [m] gets a ring: it passes the angle test and the test
    against the canvas. *)
Definition drawn (st : State num) (canvas : Canvas num) (m : Z) : bool :=
  negb (skipped st m) && fits canvas (pixelRadius st m).

(** The calls of a ring that are made before [ctx.arc]. *)
Definition ringStart : list (Cmd num) :=
  [ BeginPath; SetStrokeStyle "rgba(255, 0, 0, 0.9)"; SetLineWidth (int 3) ].

(** The calls that drawing [rings] in their order makes: those of ring
    after ring, up to the first ring that [ctx.arc] refuses. *)
Fixpoint ringsPainted (canvas : Canvas num) (rings : list (RingGeometry num))
  : Outcome (list (Cmd num)) :=
  match rings with
  | [] => Returned []
  | r :: rest =>
      if refused canvas (ringRadius r)
      then Thrown "IndexSizeError" ringStart
      else outcome_map (app (ringCalls canvas (order r) (ringRadius r)))
                       (ringsPainted canvas rest)
  end.

(** The calls of a screenshot of [mainCanvas] at zoom [z], on a
    screenshot canvas of the size [takeScreenshot] gives it. *)
Definition screenshotCalls (st : State num) (mainCanvas : Canvas num)
    (clock : Clock) (z : num) : list (Cmd num) :=
  let padding := int 10 in
  let yPos0 := add (int (height mainCanvas)) (int 20) in
  let yPos1 := add yPos0 (int 25) in
  let yPos2 := add yPos1 (int 25) in
  [ SetFillStyle "#f5f5f5";
    FillRect (int 0) (int 0) (int (width mainCanvas))
             (int (height mainCanvas + 100));
    DrawImage (bitmap mainCanvas) (int 0) (int 0);
    SetFillStyle "#333";
    SetFont "14px Arial";
    FillText ("Material: " ++ materialName st)%string padding yPos0;
    FillText ("Wavelength: " ++ wavelength st ++ " nm")%string
             (add padding (int 180)) yPos0;
    FillText ("Particle Size: " ++ particleSize st ++ " μm")%string
             padding yPos1;
    FillText ("Screen Distance: " ++ distance st ++ " cm")%string
             (add padding (int 180)) yPos1;
    FillText ("Zoom Level: " ++ toFixed1 z ++ "x")%string padding yPos2;
    FillText ("Generated: " ++ timestamp clock)%string
             (sub (int (width mainCanvas)) (int 220)) yPos2 ].

(** The particle size that goes with the selected material: the preset
    of a material that has one. *)
Definition presetHeld (st : State num) : Prop :=
  match materialsData (selectedMaterial st) with
  | Some n => particleSize st = JSString.of_Z n
  | None => True
  end.

(** The text under the zoom slider. *)
Definition zoomLabel (z : num) : string :=
  ("Zoom: " ++ toFixed1 z ++ "x")%string.

End Paintings.

(** ** Signs and sizes in binary64 *)

Module Magnitude.
Import Floats.SpecFloat IEEE754.

(** Above zero: a finite number above zero, valid or not, or plus
    infinity. *)
Definition above_zero (x : float) : bool :=
  match x with
  | S754_finite false _ _ | S754_infinity false => true
  | _ => false
  end.

(** A valid finite number that is at least 1, by its mantissa and
    exponent: 53 digits at an exponent from -52 on. *)
Definition at_least_one (x : float) : bool :=
  match x with
  | S754_finite false m e =>
      bounded prec emax m e && (2 ^ 52 <=? Zpos m) && (-52 <=? e)
  | _ => false
  end.

(** A zero of either sign. *)
Definition zero (x : float) : bool :=
  match x with S754_zero _ => true | _ => false end.

End Magnitude.

(** ** The first revision *)

(** The oldest revision of the component: five orders, every order
    with an angle is drawn without a test against the canvas and without
    a label, and there is neither a central spot nor a caption.  The
    radius in metres is multiplied by 1e3 and by a quarter of the smaller
    canvas side.  Its state is [State] without [zoomLevel]. *)
Module Original.
Section Revision.
Context {num : Type} `{Number num}.

Local Notation "a ;; b" := (andThen a b) (at level 61, right associativity).

Definition maxOrder : Z := 5.

Definition radius (st : State num) (m : Z) : num :=
  mul (mul (distanceSI st) (Math_tan (theta st m))) (lit 1 3).

Definition scaleFactor (canvas : Canvas num) : num :=
  div (Math_min (int (width canvas)) (int (height canvas))) (int 4).

Definition pixelRadius (st : State num) (canvas : Canvas num) (m : Z) : num :=
  mul (radius st m) (scaleFactor canvas).

Definition drawRing (canvas : Canvas num) (r : num) : Draw num :=
  call BeginPath ;;
  call (SetStrokeStyle "rgba(255, 0, 0, 0.8)") ;;
  call (SetLineWidth (int 2)) ;;
  arc (centerX canvas) (centerY canvas) r (int 0) (mul Math_PI (int 2)) ;;
  call Stroke.

Definition ringBody (st : State num) (canvas : Canvas num) (m : Z) : Draw num :=
  if skipped st m then done
  else drawRing canvas (pixelRadius st canvas m).

Definition paint (st : State num) (canvas : Canvas num) : Draw num :=
  drawBackground canvas ;;
  forEach (range 1 maxOrder) (ringBody st canvas).

Definition generatePattern (st : State num) (w : World num)
  : Outcome (World num) :=
  match canvasRef w with
  | None => Returned w
  | Some canvas =>
      match context2d canvas with
      | None => Returned w
      | Some log => outcome_map (onCanvas w canvas) (paint st canvas log)
      end
  end.

(** The nine calls of background and crosshair. *)
Definition backgroundCalls (canvas : Canvas num) : list (Cmd num) :=
  [ SetFillStyle "black";
    FillRect (int 0) (int 0) (int (width canvas)) (int (height canvas));
    SetStrokeStyle "rgba(255, 255, 255, 0.2)";
    BeginPath;
    MoveTo (centerX canvas) (int 0);
    LineTo (centerX canvas) (int (height canvas));
    MoveTo (int 0) (centerY canvas);
    LineTo (int (width canvas)) (centerY canvas);
    Stroke ].

(** The calls of a ring that are made before [ctx.arc]. *)
Definition ringStart : list (Cmd num) :=
  [ BeginPath; SetStrokeStyle "rgba(255, 0, 0, 0.8)"; SetLineWidth (int 2) ].

(** The five calls that draw the ring of radius [r]. *)
Definition ringCalls (canvas : Canvas num) (r : num) : list (Cmd num) :=
  [ BeginPath;
    SetStrokeStyle "rgba(255, 0, 0, 0.8)";
    SetLineWidth (int 2);
    Arc (centerX canvas) (centerY canvas) r (int 0) (mul Math_PI (int 2));
    Stroke ].

(** The orders that have an angle, or whose sine is NaN. *)
Definition angles (st : State num) : list Z :=
  filter (fun m => negb (skipped st m)) (range 1 maxOrder).

(** The pixel radii of the rings, in the order of the loop. *)
Definition radii (st : State num) (canvas : Canvas num) : list num :=
  List.map (pixelRadius st canvas) (angles st).

(** The calls that drawing rings of these radii makes, up to the first
    one that [ctx.arc] refuses. *)
Fixpoint ringsPainted (canvas : Canvas num) (rs : list num)
  : Outcome (list (Cmd num)) :=
  match rs with
  | [] => Returned []
  | r :: rest =>
      if refused canvas r then Thrown "IndexSizeError" ringStart
      else outcome_map (app (ringCalls canvas r)) (ringsPainted canvas rest)
  end.

End Revision.
End Original.

(** ** The page *)

(** The component between two user actions: its state and what it has
    left in the document.  An action that sets a state variable to a new
    value is followed by the render and the effects that React runs for
    it, up to the next action.  What React
    does with an exception is not part of the component: a sequence of
    actions ends at the first one. *)
Module App.
Section Page.
Context {num : Type} `{Number num}.

Record Page := {
  state : State num;
  world : World num
}.

Inductive Action :=
| Input (ev : Event num)
| ClickGenerate
| ClickScreenshot (browser : Browser num).

Definition within (st : State num) (o : Outcome (World num)) : Outcome Page :=
  outcome_map (fun w => {| state := st; world := w |}) o.

(** What a render puts under the zoom slider,
    [Zoom: {zoomLevel[0].toFixed(1)}x]; nothing when [zoomLevel] is
    empty, where [zoomLevel[0].toFixed] is a TypeError. *)
Definition render (st : State num) : option string :=
  match zoomLevel st with
  | z :: _ => Some (zoomLabel z)
  | [] => None
  end.

(** A render of [st] and the effects after it: a render that throws
    runs no effect. *)
Definition rendering (st : State num) (w : World num) (effects : Outcome Page)
  : Outcome Page :=
  match render st with
  | Some _ => effects
  | None => Thrown "TypeError" {| state := st; world := w |}
  end.

(** The handler of the button: [generatePattern] of the state as it is,
    without a render. *)
Definition paintNow (st : State num) (w : World num) : Outcome Page :=
  within st (generatePattern st w).

(** A render of the new state [st] and the painting effect after it. *)
Definition repaint (st : State num) (w : World num) : Outcome Page :=
  rendering st w (paintNow st w).

(** The effects after a render in which [selectedMaterial] is new (the
    first render included).  They run in the order of their
    declaration: the material effect asks for the preset, the painting
    effect paints the state of this render; the render that the preset
    causes runs the painting effect again when it has changed
    [particleSize]. *)
Definition afterMaterial (st : State num) (w : World num) : Outcome Page :=
  rendering st w
    match generatePattern st w with
    | Thrown e w' => Thrown e {| state := st; world := w' |}
    | Returned w' =>
        if String.eqb (particleSize (materialEffect st)) (particleSize st)
        then Returned {| state := materialEffect st; world := w' |}
        else repaint (materialEffect st) w'
    end.

(** Mounting: the first render and its effects. *)
Definition mount (w : World num) : Outcome Page := afterMaterial initialState w.

(** A change event.  Setting a state variable to the value it has
    causes no render; [zoomLevel] is an array, which the slider makes
    anew for every event, so that every one of them is followed by a
    render. *)
Definition input (ev : Event num) (p : Page) : Outcome Page :=
  let st := state p in
  match ev with
  | ChangeWavelength v =>
      if String.eqb v (wavelength st) then Returned p
      else repaint (setWavelength v st) (world p)
  | ChangeDistance v =>
      if String.eqb v (distance st) then Returned p
      else repaint (setDistance v st) (world p)
  | ChangeParticleSize v =>
      if particleSizeDisabled st then Returned p
      else if String.eqb v (particleSize st) then Returned p
           else repaint (setParticleSize v st) (world p)
  | ChangeMaterial v =>
      if Material_eqb v (selectedMaterial st) then Returned p
      else afterMaterial (setSelectedMaterial v st) (world p)
  | ChangeZoom v => repaint (setZoomLevel v st) (world p)
  end.

Definition step (a : Action) (p : Page) : Outcome Page :=
  match a with
  | Input ev => input ev p
  | ClickGenerate => paintNow (state p) (world p)
  | ClickScreenshot browser =>
      within (state p) (takeScreenshot browser (state p) (world p))
  end.

Fixpoint perform (actions : list Action) (p : Page) : Outcome Page :=
  match actions with
  | [] => Returned p
  | a :: rest =>
      match step a p with
      | Returned p' => perform rest p'
      | Thrown e p' => Thrown e p'
      end
  end.

(** Mounting on [w], then the actions. *)
Definition launch (w : World num) (actions : list Action) : Outcome Page :=
  match mount w with
  | Returned p => perform actions p
  | Thrown e p => Thrown e p
  end.

(** The change events among the actions, in their order. *)
Definition inputs (actions : list Action) : list (Event num) :=
  flat_map (fun a => match a with Input ev => [ev] | _ => [] end) actions.

(** A canvas of the size of [canvas], with a context. *)
Definition sized (canvas : Canvas num) (w : World num) : Prop :=
  exists c log,
    canvasRef w = Some c /\ context2d c = Some log /\
    width c = width canvas /\ height c = height canvas.

(** The canvas shows the painting of [st] on top of whatever was there
    before. *)
Definition shows (st : State num) (w : World num) : Prop :=
  match canvasRef w with
  | Some canvas =>
      exists before calls,
        painted (paint st canvas) = Returned calls /\
        context2d canvas = Some (before ++ calls)
  | None => False
  end.

End Page.

Arguments Page : clear implicits.
Arguments Action : clear implicits.

End App.

(** ** More parameters *)

Module Cases.

(** A wavelength below zero. *)
Definition negative {num : Type} {H : Number num} : State num :=
  {| wavelength := "-650"; distance := "100"; particleSize := "30";
     selectedMaterial := lycopodium; zoomLevel := [int 1] |}.

(** A wavelength so little below zero that the pixel radii are below
    the smallest single. *)
Definition faint {num : Type} {H : Number num} : State num :=
  {| wavelength := "-1e-50"; distance := "100"; particleSize := "30";
     selectedMaterial := lycopodium; zoomLevel := [int 1] |}.

(** A wavelength below zero and a screen so far that the pixel radii
    are beyond the largest single. *)
Definition far {num : Type} {H : Number num} : State num :=
  {| wavelength := "-650"; distance := "1e40"; particleSize := "30";
     selectedMaterial := lycopodium; zoomLevel := [int 1] |}.

(** Particles without size. *)
Definition no_size {num : Type} {H : Number num} : State num :=
  {| wavelength := "650"; distance := "100"; particleSize := "0";
     selectedMaterial := custom; zoomLevel := [int 1] |}.

(** No wavelength. *)
Definition dark {num : Type} {H : Number num} : State num :=
  {| wavelength := "0"; distance := "100"; particleSize := "30";
     selectedMaterial := lycopodium; zoomLevel := [int 1] |}.

End Cases.

(** * Results *)

(** ** Drawing steps *)

Section DrawFacts.
Context {num : Type} `{Number num}.

Local Notation "a ;; b" := (andThen a b) (at level 61, right associativity).

Lemma range_1_maxOrder : range 1 maxOrder = [1; 2; 3; 4; 5; 6; 7; 8; 9; 10].
Proof. reflexivity. Qed.

Lemma andThen_run (a b : Draw num) log :
  (a ;; b) log
  = match a log with
    | Returned log' => b log'
    | Thrown e log' => Thrown e log'
    end.
Proof. reflexivity. Qed.

Lemma forEach_cons {A : Type} (x : A) (xs : list A) (body : A -> Draw num) :
  forEach (x :: xs) body = body x ;; forEach xs body.
Proof. reflexivity. Qed.

Lemma forEach_app {A : Type} (xs ys : list A) (body : A -> Draw num) log :
  forEach (xs ++ ys) body log = (forEach xs body ;; forEach ys body) log.
Proof.
  revert log. induction xs as [|x xs IH]; intros log.
  - reflexivity.
  - rewrite <- app_comm_cons, !forEach_cons, !andThen_run.
    destruct (body x log) as [log'|e log'].
    + rewrite IH, andThen_run. reflexivity.
    + reflexivity.
Qed.

Lemma ringBody_ringOf (st : State num) (canvas : Canvas num) (m : Z) log :
  ringBody st canvas m log = drawRings canvas (ringOf st canvas m) log.
Proof.
  unfold ringBody, ringOf, drawRings.
  destruct (skipped st m); [reflexivity|].
  destruct (fits canvas (pixelRadius st m)); [|reflexivity].
  rewrite forEach_cons, andThen_run. simpl.
  destruct (drawRing canvas m (pixelRadius st m) log); reflexivity.
Qed.

(** The loop draws exactly the rings of [computeRings], in their order. *)
Lemma loop_draws_rings (st : State num) (canvas : Canvas num) (ms : list Z) log :
  forEach ms (ringBody st canvas) log
  = drawRings canvas (flat_map (ringOf st canvas) ms) log.
Proof.
  revert log. induction ms as [|m ms IH]; intros log.
  - reflexivity.
  - rewrite forEach_cons, andThen_run, ringBody_ringOf.
    simpl flat_map. unfold drawRings at 2.
    rewrite forEach_app, andThen_run. fold (drawRings canvas (ringOf st canvas m)).
    destruct (drawRings canvas (ringOf st canvas m) log) as [log'|e log'].
    + apply IH.
    + reflexivity.
Qed.

Lemma ringOf_order (st : State num) (canvas : Canvas num) (m : Z) r :
  In r (ringOf st canvas m) ->
  order r = m /\ ringRadius r = pixelRadius st m /\
  skipped st m = false /\ fits canvas (pixelRadius st m) = true.
Proof.
  unfold ringOf.
  destruct (skipped st m); [intros []|].
  destruct (fits canvas (pixelRadius st m)); [|intros []].
  intros [<-|[]]. repeat split.
Qed.

Lemma ringOf_length (st : State num) (canvas : Canvas num) (m : Z) :
  (List.length (ringOf st canvas m) <= 1)%nat.
Proof.
  unfold ringOf.
  destruct (skipped st m); [simpl; lia|].
  destruct (fits canvas (pixelRadius st m)); simpl; lia.
Qed.

Lemma rings_length (st : State num) (canvas : Canvas num) (ms : list Z) :
  (List.length (flat_map (ringOf st canvas) ms) <= List.length ms)%nat.
Proof.
  induction ms as [|m ms IH]; simpl; [lia|].
  rewrite length_app. pose proof (ringOf_length st canvas m). lia.
Qed.

Lemma rings_in (st : State num) (canvas : Canvas num) (ms : list Z) r :
  In r (flat_map (ringOf st canvas) ms) ->
  In (order r) ms /\ ringRadius r = pixelRadius st (order r) /\
  skipped st (order r) = false /\
  fits canvas (pixelRadius st (order r)) = true.
Proof.
  intros Hin. apply in_flat_map in Hin as [m [Hm Hr]].
  apply ringOf_order in Hr as (-> & ? & ? & ?). auto.
Qed.

Lemma rings_sorted (st : State num) (canvas : Canvas num) (ms : list Z) :
  StronglySorted Z.lt ms ->
  StronglySorted (fun a b => order a < order b)
                 (flat_map (ringOf st canvas) ms).
Proof.
  induction 1 as [|m ms Hsorted IH Hall]; simpl.
  - constructor.
  - assert (Hlater : Forall (fun b => m < order b)
                            (flat_map (ringOf st canvas) ms)).
    { apply Forall_forall. intros b Hb.
      apply rings_in in Hb as (Hb & _).
      rewrite Forall_forall in Hall. auto. }
    unfold ringOf at 1.
    destruct (skipped st m); [exact IH|].
    destruct (fits canvas (pixelRadius st m)); [|exact IH].
    simpl. constructor; assumption.
Qed.

Lemma orders_sorted : StronglySorted Z.lt (range 1 maxOrder).
Proof.
  rewrite range_1_maxOrder.
  repeat (constructor; [|repeat constructor; lia]). constructor.
Qed.

Lemma StronglySorted_weaken {A : Type} (R1 R2 : A -> A -> Prop) (l : list A) :
  StronglySorted R1 l ->
  (forall a b, In a l -> In b l -> R1 a b -> R2 a b) ->
  StronglySorted R2 l.
Proof.
  induction 1 as [|a l Hsorted IH Hall]; intros Himpl.
  - constructor.
  - constructor.
    + apply IH. intros x y Hx Hy. apply Himpl; right; assumption.
    + rewrite Forall_forall in *. intros b Hb.
      apply Himpl; [left; reflexivity|right; exact Hb|apply Hall; exact Hb].
Qed.

End DrawFacts.

(** ** Parameter store *)

Section ParameterStore.
Context {num : Type} `{Number num}.

(** C1, amended.  From any state in custom mode, selecting lycopodium
    sets the particle size to "30" and disables its field, where edits
    no longer arrive; selecting custom again enables the field and
    leaves "30" in it, whatever had been entered before, until the user
    types a new value. *)
Theorem C1_preset_stays_after_return_to_custom (st : State num) :
  selectedMaterial st = custom ->
  let st1 := handle (ChangeMaterial lycopodium) st in
  let st2 := handle (ChangeMaterial custom) st1 in
  particleSize st1 = "30" /\
  particleSizeDisabled st1 = true /\
  (forall v, handle (ChangeParticleSize v) st1 = st1) /\
  particleSizeDisabled st2 = false /\
  particleSize st2 = "30" /\
  (forall v, particleSize (handle (ChangeParticleSize v) st2) = v).
Proof.
  intros Hcustom. destruct st as [wl d p mat z]. simpl in Hcustom. subst mat.
  cbn. repeat split; reflexivity.
Qed.

End ParameterStore.

(** C1, witness: the state reached from mounting by selecting custom and
    typing 12. *)
Lemma C1_preset_stays_witness :
  let st := run [ChangeMaterial custom; ChangeParticleSize "12"]
                (mounted (H := Sample.ieee)) in
  particleSize (handle (ChangeMaterial custom)
                  (handle (ChangeMaterial lycopodium) st)) = "30".
Proof.
  intros st.
  exact (proj1 (proj2 (proj2 (proj2 (proj2
    (C1_preset_stays_after_return_to_custom st eq_refl)))))).
Defined.

(** C1, counterexample.  Mount, select custom, type 12, select lycopodium,
    select custom: the field is editable again but holds "30", not the
    "12" that was entered. *)
Lemma C1_entered_value_is_lost :
  let entered := run [ChangeMaterial custom; ChangeParticleSize "12"]
                     (mounted (H := Sample.ieee)) in
  let back := run [ChangeMaterial lycopodium; ChangeMaterial custom] entered in
  particleSize entered = "12" /\
  selectedMaterial entered = custom /\
  particleSizeDisabled back = false /\
  particleSize back = "30" /\
  particleSize back <> particleSize entered.
Proof.
  cbn. repeat split; discriminate.
Qed.

(** ** The rings *)

Section Rings.
Context {num : Type} `{Number num}.

(** C2.  An order whose [|m * wavelengthSI / particleSizeSI|] is at
    least 1 gets no ring: its turn of the loop makes no call and does
    not throw, and [computeRings] has no ring of that order. *)
Theorem C2_order_beyond_90_degrees_is_skipped
    (st : State num) (canvas : Canvas num) (m : Z) :
  1 <= m <= maxOrder ->
  geb (Math_abs (div (mul (int m) (wavelengthSI st)) (particleSizeSI st)))
      (int 1) = true ->
  (forall log, ringBody st canvas m log = Returned log) /\
  ~ In m (List.map order (computeRings st canvas)).
Proof.
  intros _ Hskip. split.
  - intros log. unfold ringBody, skipped, sinTheta. rewrite Hskip. reflexivity.
  - intros Hin. apply in_map_iff in Hin as [r [Horder Hr]].
    apply rings_in in Hr as (_ & _ & Hnot & _).
    rewrite Horder in Hnot. unfold skipped, sinTheta in Hnot. congruence.
Qed.

(** C10.  [computeRings] yields at most ten rings; the order of each is
    between 1 and 10 and its pixel radius passes the test against
    [min(width, height) / 2]; the orders increase strictly; and these
    are the rings the loop of [generatePattern] draws, in this order. *)
Theorem C10_ring_set_is_bounded_and_ordered
    (st : State num) (canvas : Canvas num) :
  (List.length (computeRings st canvas) <= 10)%nat /\
  Forall (fun r =>
            1 <= order r <= 10 /\
            leb (ringRadius r)
                (div (Math_min (int (width canvas)) (int (height canvas)))
                     (int 2)) = true)
         (computeRings st canvas) /\
  StronglySorted (fun a b => order a < order b) (computeRings st canvas) /\
  (forall log,
      forEach (range 1 maxOrder) (ringBody st canvas) log
      = drawRings canvas (computeRings st canvas) log).
Proof.
  repeat split.
  - apply (rings_length st canvas (range 1 maxOrder)).
  - apply Forall_forall. intros r Hr.
    apply rings_in in Hr as (Hin & Hradius & _ & Hfits).
    split.
    + rewrite range_1_maxOrder in Hin. simpl in Hin.
      repeat (destruct Hin as [<-|Hin]; [lia|]). destruct Hin.
    + rewrite Hradius. exact Hfits.
  - apply rings_sorted, orders_sorted.
  - intros log. apply loop_draws_rings.
Qed.

End Rings.

(** ** Missing canvas, and what the painting reads *)

Section Render.
Context {num : Type} `{Number num}.

(** [takeScreenshot] asks for one context, that of the screenshot canvas:
    with both canvases there, a context on the screenshot canvas, a main
    canvas with area and a zoom level, it adds a download, whatever the
    context of the main canvas is. *)
Lemma takeScreenshot_asks_for_one_context
    (browser : Browser num) (st : State num) (w : World num)
    (mainCanvas shot : Canvas num) (log : list (Cmd num))
    (z : num) (zs : list num) :
  canvasRef w = Some mainCanvas ->
  screenshotCanvasRef w = Some shot ->
  context2d shot = Some log ->
  (width mainCanvas =? 0) = false ->
  (height mainCanvas =? 0) = false ->
  zoomLevel st = z :: zs ->
  exists final,
    takeScreenshot browser st w
    = Returned {| canvasRef := canvasRef w;
                  screenshotCanvasRef := Some final;
                  downloads :=
                    downloads w ++
                    [ {| download := fileName (now browser);
                         href := toDataURL browser final |} ] |}.
Proof.
  intros Hmain Hshot Hctx Hwidth Hheight Hzoom.
  unfold takeScreenshot. rewrite Hmain, Hshot, Hctx.
  unfold compose, drawImage. rewrite Hwidth, Hheight, Hzoom. cbn [orb].
  cbv [andThen call]. eexists. reflexivity.
Qed.

(** C8.  [generatePattern], in both revisions, returns without touching
    anything when the canvas or its 2D context is missing; so does
    [takeScreenshot] when either canvas element is missing or the
    context it asks for, that of the screenshot canvas, is.  Returning
    the world as it was means: no exception, no call on any context, no
    download.  Neither operation has the parameters among its results. *)
Theorem C8_missing_canvas_or_context_is_a_no_op
    (browser : Browser num) (st : State num) (w : World num) :
  (unavailable (canvasRef w) ->
     generatePattern st w = Returned w /\
     Captioned.generatePattern st w = Returned w) /\
  (canvasRef w = None \/ unavailable (screenshotCanvasRef w) ->
     takeScreenshot browser st w = Returned w).
Proof.
  split.
  - unfold unavailable, generatePattern, Captioned.generatePattern.
    destruct (canvasRef w) as [canvas|]; [|split; reflexivity].
    intros ->. split; reflexivity.
  - unfold unavailable, takeScreenshot.
    destruct (canvasRef w) as [mainCanvas|];
      destruct (screenshotCanvasRef w) as [shot|]; try reflexivity.
    intros [Hmain|Hshot]; [discriminate|]. rewrite Hshot. reflexivity.
Qed.

(** C9.  [generatePattern] does not read the material: two states that
    agree on wavelength, distance, particle size and zoom leave the same
    world behind, from the same world: the same calls on the context of
    the canvas, or the same exception.  The same holds in the revision
    without zoom. *)
Theorem C9_material_is_not_read (st st' : State num) (w : World num) :
  wavelength st = wavelength st' ->
  distance st = distance st' ->
  particleSize st = particleSize st' ->
  zoomLevel st = zoomLevel st' ->
  generatePattern st w = generatePattern st' w /\
  Captioned.generatePattern st w = Captioned.generatePattern st' w.
Proof.
  destruct st as [wl d p mat z], st' as [wl' d' p' mat' z']. simpl.
  intros -> -> -> ->. split; reflexivity.
Qed.

End Render.

(** ** Malformed input in binary64 *)

Section Malformed.
Import Floats.SpecFloat IEEE754.
Context {host : Host}.

Lemma fmul_nan_l x : fmul S754_nan x = S754_nan.
Proof. reflexivity. Qed.

Lemma fmul_nan_r x : fmul x S754_nan = S754_nan.
Proof. destruct x; reflexivity. Qed.

Lemma fdiv_nan_l x : fdiv S754_nan x = S754_nan.
Proof. reflexivity. Qed.

Lemma fdiv_nan_r x : fdiv x S754_nan = S754_nan.
Proof. destruct x; reflexivity. Qed.

Lemma leb_nan_l x : SFleb S754_nan x = false.
Proof. reflexivity. Qed.

Lemma leb_nan_r x : SFleb x S754_nan = false.
Proof. destruct x; reflexivity. Qed.

(** The arc of the central spot is always drawn: its radius is 5. *)
Lemma spot_arc_is_drawn (x y a0 a1 : float) log :
  arc x y (int 5) a0 a1 log = Returned (log ++ [Arc x y (int 5) a0 a1]).
Proof.
  unfold arc.
  replace (ltb (narrow (int 5)) (int 0)) with false by reflexivity.
  rewrite andb_false_r. reflexivity.
Qed.


Lemma background_and_spot (canvas : Canvas float) log :
  andThen (drawBackground canvas) (drawCentralSpot canvas) log
  = Returned (log ++ emptyPattern canvas).
Proof.
  unfold drawBackground, drawCentralSpot, call.
  repeat (rewrite andThen_run; try rewrite spot_arc_is_drawn).
  repeat rewrite <- app_assoc. reflexivity.
Qed.

Lemma forEach_done {A : Type} (ms : list A) (body : A -> Draw float) log :
  (forall m, In m ms -> body m = done) ->
  forEach ms body log = Returned log.
Proof.
  induction ms as [|m ms IH]; intros Hbody.
  - reflexivity.
  - rewrite forEach_cons, andThen_run, (Hbody m (or_introl eq_refl)).
    apply IH. intros m' Hm'. apply Hbody. right. exact Hm'.
Qed.

Lemma paint_assoc (st : State float) (canvas : Canvas float) log :
  paint st canvas log
  = andThen (andThen (drawBackground canvas) (drawCentralSpot canvas))
            (forEach (range 1 maxOrder) (ringBody st canvas)) log.
Proof.
  unfold paint. rewrite !andThen_run.
  destruct (drawBackground canvas log); reflexivity.
Qed.

(** C3, amended.  The empty string parses to NaN.  When the wavelength
    field, the particle-size field or the distance field holds no number
    then, on every host whose [Math.asin] and [Math.tan] map NaN to NaN:
    the radius in metres and the pixel radius of every order are NaN;
    [sinTheta] and [theta] are NaN when the wavelength or the particle
    size is what is missing, and they do not read the distance field, so
    that with only the distance missing they are the numbers that the
    other two fields give; NaN fails the fits-on-canvas test; no ring is
    computed; and [generatePattern] returns, having drawn background,
    crosshair and the central spot of radius 5 and nothing else. *)
Theorem C3_malformed_input_draws_only_the_spot
    (st : State float) (w : World float) (canvas : Canvas float) log :
  asin S754_nan = S754_nan ->
  tan S754_nan = S754_nan ->
  Parse.decimal (wavelength st) = DNaN \/
  Parse.decimal (particleSize st) = DNaN \/
  Parse.decimal (distance st) = DNaN ->
  canvasRef w = Some canvas ->
  context2d canvas = Some log ->
  parseFloat "" = S754_nan /\
  (Parse.decimal (wavelength st) = DNaN \/
   Parse.decimal (particleSize st) = DNaN ->
   forall m, sinTheta st m = S754_nan /\ theta st m = S754_nan) /\
  (forall d m, sinTheta (setDistance d st) m = sinTheta st m /\
               theta (setDistance d st) m = theta st m) /\
  (forall m, radius st m = S754_nan /\ pixelRadius st m = S754_nan) /\
  fits canvas S754_nan = false /\
  computeRings st canvas = [] /\
  generatePattern st w = Returned (onCanvas w canvas (log ++ emptyPattern canvas)).
Proof.
  intros Hasin Htan Hmalformed Hcanvas Hcontext.
  assert (Hsin : Parse.decimal (wavelength st) = DNaN \/
                 Parse.decimal (particleSize st) = DNaN ->
                 forall m, sinTheta st m = S754_nan).
  { intros Hfield m. unfold sinTheta, wavelengthSI, particleSizeSI, parseFloat.
    destruct Hfield as [-> | ->];
      change (ofDecimal DNaN) with S754_nan.
    - change (fdiv (fmul (int m) (fmul S754_nan (lit 1 (-9))))
                   (fmul (ofDecimal (Parse.decimal (particleSize st))) (lit 1 (-6)))
              = S754_nan).
      rewrite fmul_nan_l, fmul_nan_r. reflexivity.
    - change (fdiv (fmul (int m) (wavelengthSI st)) (fmul S754_nan (lit 1 (-6)))
              = S754_nan).
      rewrite fmul_nan_l. apply fdiv_nan_r. }
  assert (Htheta : Parse.decimal (wavelength st) = DNaN \/
                   Parse.decimal (particleSize st) = DNaN ->
                   forall m, theta st m = S754_nan).
  { intros Hfield m. unfold theta. rewrite (Hsin Hfield).
    change (asin S754_nan = S754_nan). exact Hasin. }
  assert (Hradius : forall m, radius st m = S754_nan).
  { intros m. unfold radius.
    destruct Hmalformed as [Hfield | [Hfield | Hdistance]].
    - rewrite (Htheta (or_introl Hfield)).
      change (fmul (distanceSI st) (tan S754_nan) = S754_nan).
      rewrite Htan, fmul_nan_r. reflexivity.
    - rewrite (Htheta (or_intror Hfield)).
      change (fmul (distanceSI st) (tan S754_nan) = S754_nan).
      rewrite Htan, fmul_nan_r. reflexivity.
    - unfold distanceSI, parseFloat. rewrite Hdistance. reflexivity. }
  assert (Hpixel : forall m, pixelRadius st m = S754_nan).
  { intros m. unfold pixelRadius. rewrite Hradius. reflexivity. }
  assert (Hring : forall m, ringOf st canvas m = []).
  { intros m. unfold ringOf. rewrite Hpixel.
    destruct (skipped st m); reflexivity. }
  assert (Hbody : forall m, ringBody st canvas m = done).
  { intros m. unfold ringBody. rewrite Hpixel.
    destruct (skipped st m); reflexivity. }
  split; [reflexivity|]. split.
  { intros Hfield m. split; [apply Hsin|apply Htheta]; exact Hfield. }
  split; [intros d m; split; reflexivity|].
  split; [intros m; split; [apply Hradius|apply Hpixel]|].
  split; [reflexivity|]. split.
  - unfold computeRings.
    induction (range 1 maxOrder) as [|m ms IH]; [reflexivity|].
    simpl. rewrite IH, Hring. reflexivity.
  - unfold generatePattern. rewrite Hcanvas, Hcontext, paint_assoc, andThen_run.
    rewrite background_and_spot, forEach_done by (intros; apply Hbody).
    reflexivity.
Qed.

End Malformed.

(** ** The caption *)

Section Caption.
Context {num : Type} `{Number num}.

Local Notation "a ;; b" := (andThen a b) (at level 61, right associativity).


Lemma appends_done (P : Cmd num -> Prop) : appends P done.
Proof. intros log. exists []. rewrite app_nil_r. split; [reflexivity|constructor]. Qed.

Lemma appends_call (P : Cmd num -> Prop) c : P c -> appends P (call c).
Proof. intros Hc log. exists [c]. split; [reflexivity|repeat constructor; exact Hc]. Qed.

Lemma appends_arc (P : Cmd num -> Prop) x y r a0 a1 : P (Arc x y r a0 a1) -> appends P (arc x y r a0 a1).
Proof.
  intros Hc log. unfold arc.
  destruct (forallb (fun a => isFinite (narrow a)) [x; y; r; a0; a1]
            && ltb (narrow r) (int 0)).
  - exists []. rewrite app_nil_r. split; [reflexivity|constructor].
  - exists [Arc x y r a0 a1]. split; [reflexivity|repeat constructor; exact Hc].
Qed.

Lemma appends_andThen (P : Cmd num -> Prop) a b : appends P a -> appends P b -> appends P (a ;; b).
Proof.
  intros Ha Hb log. rewrite andThen_run.
  destruct (Ha log) as [ca [Hra Hca]].
  destruct (a log) as [log'|e log']; simpl in Hra; subst log'.
  - destruct (Hb (log ++ ca)) as [cb [Hrb Hcb]].
    exists (ca ++ cb). rewrite app_assoc. split; [exact Hrb|].
    apply Forall_app. split; assumption.
  - exists ca. split; [reflexivity|exact Hca].
Qed.

Lemma appends_forEach {A : Type} (P : Cmd num -> Prop) (ms : list A) body :
  (forall m, appends P (body m)) -> appends P (forEach ms body).
Proof.
  intros Hbody. induction ms as [|m ms IH].
  - apply appends_done.
  - rewrite forEach_cons. apply appends_andThen; [apply Hbody|exact IH].
Qed.


Lemma paint_appends_no_caption (st : State num) (canvas : Canvas num) :
  appends Captioned.no_caption (paint st canvas).
Proof.
  unfold paint.
  apply appends_andThen; [|apply appends_andThen].
  - unfold drawBackground.
    repeat (first [ apply appends_call; reflexivity | apply appends_andThen ]).
  - unfold drawCentralSpot.
    repeat (first [ apply appends_call; reflexivity
                  | apply appends_arc; reflexivity
                  | apply appends_andThen ]).
  - apply appends_forEach. intros m. unfold ringBody.
    destruct (skipped st m); [apply appends_done|].
    destruct (fits canvas (pixelRadius st m)); [|apply appends_done].
    unfold drawRing.
    repeat (first [ apply appends_call; reflexivity
                  | apply appends_arc; reflexivity
                  | apply appends_andThen ]).
Qed.

Lemma drawCaption_run (canvas : Canvas num) log :
  Captioned.drawCaption canvas log = Returned (log ++ Captioned.captionCalls canvas).
Proof.
  unfold Captioned.drawCaption, call. rewrite !andThen_run.
  rewrite <- !app_assoc. reflexivity.
Qed.

Lemma captioned_paint_run (st : State num) (canvas : Canvas num) log :
  Captioned.paint st canvas log
  = (Captioned.paintRings st canvas ;; Captioned.drawCaption canvas) log.
Proof.
  unfold Captioned.paint, Captioned.paintRings. rewrite !andThen_run.
  destruct (drawBackground canvas log) as [l1|e l1]; [|reflexivity].
  rewrite !andThen_run.
  destruct (drawCentralSpot canvas l1) as [l2|e l2]; reflexivity.
Qed.

(** C7, amended.  In the revision without zoom, a [generatePattern] that
    finds canvas and context and is not cut short by an exception draws
    background, spot and rings and then, last, the caption at
    [(20, height - 20)].  In the revision with zoom no call of
    [generatePattern] writes the caption text. *)
Theorem C7_caption_only_in_revision_without_zoom
    (st : State num) (w : World num) (canvas : Canvas num) log :
  canvasRef w = Some canvas ->
  context2d canvas = Some log ->
  (threw (Captioned.generatePattern st w) = false ->
   exists ringsLog,
     Captioned.paintRings st canvas log = Returned ringsLog /\
     Captioned.generatePattern st w
     = Returned (onCanvas w canvas (ringsLog ++ Captioned.captionCalls canvas))) /\
  (exists calls,
     reached (generatePattern st w) = onCanvas w canvas (log ++ calls) /\
     existsb Captioned.is_caption calls = false).
Proof.
  intros Hcanvas Hcontext. split.
  - unfold Captioned.generatePattern. rewrite Hcanvas, Hcontext.
    rewrite captioned_paint_run, andThen_run.
    destruct (Captioned.paintRings st canvas log) as [ringsLog|e l].
    + intros _. exists ringsLog. split; [reflexivity|].
      rewrite drawCaption_run. reflexivity.
    + simpl. discriminate.
  - unfold generatePattern. rewrite Hcanvas, Hcontext.
    destruct (paint_appends_no_caption st canvas log) as [calls [Hreached Hcalls]].
    exists calls. split.
    + destruct (paint st canvas log); simpl in *; rewrite Hreached; reflexivity.
    + clear Hreached. induction Hcalls as [|c cs Hc _ IH]; [reflexivity|].
      simpl. rewrite Hc. exact IH.
Qed.

End Caption.

(** ** The formula in exact arithmetic *)

Section ExactFormula.
Import Exact.
Local Open Scope R_scope.

#[local] Existing Instance Exact.number.

Lemma int_exact (z : Z) : int z = XFin (IZR z).
Proof.
  unfold int. cbn [ofDecimal Exact.number Exact.of_decimal].
  rewrite N2Z.inj_abs_N. simpl powerRZ. f_equal.
  destruct (Z.ltb_spec z 0) as [Hneg|Hpos].
  - rewrite Z.abs_neq by lia. rewrite opp_IZR. lra.
  - rewrite Z.abs_eq by lia. lra.
Qed.

Lemma nano : lit 1 (-9) = XFin (/ 1000000000).
Proof.
  unfold lit. cbn [ofDecimal Exact.number Exact.of_decimal]. f_equal.
  change (Z.of_N 1) with 1%Z. simpl powerRZ. lra.
Qed.

Lemma micro : lit 1 (-6) = XFin (/ 1000000).
Proof.
  unfold lit. cbn [ofDecimal Exact.number Exact.of_decimal]. f_equal.
  change (Z.of_N 1) with 1%Z. simpl powerRZ. lra.
Qed.

Lemma centi : lit 1 (-2) = XFin (/ 100).
Proof.
  unfold lit. cbn [ofDecimal Exact.number Exact.of_decimal]. f_equal.
  change (Z.of_N 1) with 1%Z. simpl powerRZ. lra.
Qed.

Lemma is_zero_false (r : R) : r <> 0 -> is_zero r = false.
Proof. intros Hr. unfold is_zero. destruct (Req_dec_T r 0); [contradiction|reflexivity]. Qed.

Lemma xleb_fin (a b : R) : xleb (XFin a) (XFin b) = true <-> a <= b.
Proof. simpl. destruct (Rle_dec a b); split; intros; try discriminate; tauto. Qed.

Lemma xleb_fin_false (a b : R) : xleb (XFin a) (XFin b) = false <-> b < a.
Proof.
  simpl. destruct (Rle_dec a b); split; intros;
    first [discriminate | lra | reflexivity].
Qed.

(** With finite fields and a particle size other than zero, the
    quantities of one turn of the loop as real expressions. *)
Lemma finite_fields (st : State xreal) (w d p z : R) (m : Z) :
  parseFloat (wavelength st) = XFin w ->
  parseFloat (distance st) = XFin d ->
  parseFloat (particleSize st) = XFin p ->
  zoom st = XFin z ->
  p <> 0 ->
  let x := IZR m * (w / 1000000000) / (p / 1000000) in
  sinTheta st m = XFin x /\
  (skipped st m = false <-> Rabs x < 1) /\
  (Rabs x < 1 ->
   theta st m = XFin (asin x) /\
   radius st m = XFin (d / 100 * tan (asin x)) /\
   pixelRadius st m = XFin (d / 100 * tan (asin x) * (4000 * z))).
Proof.
  intros Hw Hd Hp Hz Hp0 x.
  assert (Hsin : sinTheta st m = XFin x).
  { unfold sinTheta, wavelengthSI, particleSizeSI.
    rewrite Hw, Hp, nano, micro, int_exact.
    cbn [mul div Exact.number xmul xdiv].
    rewrite is_zero_false by (intros H0; apply Hp0; lra).
    reflexivity. }
  split; [exact Hsin|]. split.
  - unfold skipped. rewrite Hsin, int_exact.
    cbn [geb Math_abs Exact.number xabs]. apply xleb_fin_false.
  - intros Hx. apply Rabs_def2 in Hx as [Hlt Hgt].
    assert (Htheta : theta st m = XFin (asin x)).
    { unfold theta. rewrite Hsin. cbn [Math_asin Exact.number xasin].
      destruct (Rle_dec (-1) x); [|lra]. destruct (Rle_dec x 1); [|lra].
      reflexivity. }
    assert (Hradius : radius st m = XFin (d / 100 * tan (asin x))).
    { unfold radius, distanceSI. rewrite Htheta, Hd, centi. reflexivity. }
    repeat split; try assumption.
    unfold pixelRadius, scaleFactor, baseScaleFactor.
    rewrite Hradius, Hz, int_exact. reflexivity.
Qed.

(** The tangent of the arcsine between two polynomials. *)
Lemma tan_asin_between (x : R) :
  0 <= x -> x * x <= / 2 ->
  x * (1 + x * x / 2) <= tan (asin x) <= x * (1 + x * x).
Proof.
  intros Hx0 Hx2.
  assert (Hx1 : x < 1) by nra.
  rewrite tan_asin by lra. unfold Rsqr.
  set (t := x * x) in *.
  assert (Hs0 : 0 < sqrt (1 - t)) by (apply sqrt_lt_R0; lra).
  assert (Hss : sqrt (1 - t) * sqrt (1 - t) = 1 - t) by (apply sqrt_sqrt; lra).
  set (s := sqrt (1 - t)) in *.
  assert (Ht0 : 0 <= t) by (unfold t; nra).
  assert (Hlow : (1 + t / 2) * s <= 1).
  { apply Rsqr_incr_0_var; [|lra]. unfold Rsqr.
    replace ((1 + t / 2) * s * ((1 + t / 2) * s))
      with ((1 + t / 2) * (1 + t / 2) * (s * s)) by ring.
    rewrite Hss. nra. }
  assert (Hhigh : 1 <= (1 + t) * s).
  { apply Rsqr_incr_0_var; [|nra]. unfold Rsqr.
    replace ((1 + t) * s * ((1 + t) * s)) with ((1 + t) * (1 + t) * (s * s)) by ring.
    rewrite Hss. nra. }
  assert (Hinv : / s * s = 1) by (field; lra).
  assert (Hinv0 : 0 < / s) by (apply Rinv_0_lt_compat; exact Hs0).
  unfold Rdiv at 2 3. split.
  - apply Rmult_le_compat_l; [exact Hx0|]. nra.
  - apply Rmult_le_compat_l; [exact Hx0|]. nra.
Qed.

(** The tangent of the arcsine does not decrease on [0, 1). *)
Lemma tan_asin_monotone (x y : R) :
  0 <= x -> x <= y -> y < 1 -> tan (asin x) <= tan (asin y).
Proof.
  intros Hx Hxy Hy. rewrite !tan_asin by lra. unfold Rsqr.
  assert (Hsy : 0 < sqrt (1 - y * y)) by (apply sqrt_lt_R0; nra).
  assert (Hsxy : sqrt (1 - y * y) <= sqrt (1 - x * x))
    by (apply sqrt_le_1_alt; nra).
  unfold Rdiv.
  apply Rle_trans with (y * / sqrt (1 - x * x)).
  - apply Rmult_le_compat_r; [|exact Hxy].
    apply Rlt_le, Rinv_0_lt_compat. lra.
  - apply Rmult_le_compat_l; [lra|].
    apply Rinv_le_contravar; assumption.
Qed.

End ExactFormula.

(** ** Rounding keeps the order *)

Section Rounding.
Import Floats.SpecFloat IEEE754.

Lemma shr_1_spec rec :
  0 <= shr_m rec ->
  shr_1 rec = {| shr_m := shr_m rec / 2; shr_r := Z.odd (shr_m rec);
                 shr_s := shr_r rec || shr_s rec |}.
Proof.
  destruct rec as [m r s]. simpl. intros Hm.
  destruct m as [|p|p]; [reflexivity| |lia].
  destruct p as [p|p|].
  - f_equal. rewrite Pos2Z.inj_xI.
    apply Z.div_unique with 1; lia.
  - f_equal. rewrite Pos2Z.inj_xO.
    apply Z.div_unique with 0; lia.
  - reflexivity.
Qed.

Ltac bools :=
  repeat match goal with
  | |- context [?a <=? ?b] => destruct (Z.leb_spec a b)
  | |- context [?a <? ?b] => destruct (Z.ltb_spec a b)
  | |- context [?a =? ?b] => destruct (Z.eqb_spec a b)
  end.

Lemma shr_1_locates rec N D :
  0 <= N -> 0 < D -> locates rec N D -> locates (shr_1 rec) N (2 * D).
Proof.
  intros HN HD (Hm & Hr & Hs).
  pose proof (Z.mod_pos_bound N D HD) as Hrem.
  pose proof (Z.div_pos N D HN HD) as Hq.
  assert (Hdiv : N / (2 * D) = (N / D) / 2).
  { rewrite (Z.mul_comm 2 D). rewrite Z.div_div by lia. reflexivity. }
  assert (Hmod : N mod (2 * D) = N mod D + D * ((N / D) mod 2)).
  { rewrite (Z.mul_comm 2 D). apply Z.rem_mul_r; lia. }
  pose proof (Z.mod_pos_bound (N / D) 2 ltac:(lia)) as Hbit.
  rewrite shr_1_spec by (rewrite Hm; exact Hq).
  unfold locates. cbn [shr_m shr_r shr_s]. rewrite Hm, Hr, Hs, Hdiv, Hmod.
  set (q := N / D) in *. set (rem := N mod D) in *.
  rewrite (Zmod_odd q). clear Hbit.
  repeat split.
  - destruct (Z.odd q); bools; reflexivity || lia.
  - destruct (Z.odd q); bools; cbn [negb andb orb]; reflexivity || lia.
Qed.

Lemma pow2_pos (k : Z) : 0 <= k -> 0 < 2 ^ k.
Proof. intros Hk. apply Z.pow_pos_nonneg; lia. Qed.

Lemma pow2_xO (p : positive) : 2 ^ Zpos p~0 = 2 ^ Zpos p * 2 ^ Zpos p.
Proof.
  replace (Zpos p~0) with (Zpos p + Zpos p) by lia.
  apply Z.pow_add_r; lia.
Qed.

Lemma pow2_xI (p : positive) : 2 ^ Zpos p~1 = 2 ^ Zpos p * (2 ^ Zpos p * 2).
Proof.
  replace (Zpos p~1) with (Zpos p + (Zpos p + 1)) by lia.
  rewrite !Z.pow_add_r by lia. reflexivity.
Qed.

Lemma iter_pos_locates p rec N D :
  0 <= N -> 0 < D -> locates rec N D ->
  locates (iter_pos shr_1 p rec) N (2 ^ Zpos p * D).
Proof.
  intros HN. revert rec D.
  induction p as [p IH|p IH|]; intros rec D HD Hloc; simpl iter_pos.
  - apply shr_1_locates in Hloc; [|assumption..].
    pose proof (pow2_pos (Zpos p) ltac:(lia)) as Hpow.
    apply IH in Hloc; [|lia].
    apply IH in Hloc; [|nia].
    rewrite pow2_xI.
    replace (2 ^ Zpos p * (2 ^ Zpos p * 2) * D)
      with (2 ^ Zpos p * (2 ^ Zpos p * (2 * D))) by ring.
    exact Hloc.
  - pose proof (pow2_pos (Zpos p) ltac:(lia)) as Hpow.
    apply IH in Hloc; [|lia].
    apply IH in Hloc; [|nia].
    rewrite pow2_xO, <- Z.mul_assoc. exact Hloc.
  - apply shr_1_locates in Hloc; [|assumption..]. exact Hloc.
Qed.

Lemma round_locates rec N D :
  0 <= N -> 0 < D -> locates rec N D ->
  round_nearest_even (shr_m rec) (loc_of_shr_record rec) = rne N D.
Proof.
  intros HN HD (Hm & Hr & Hs).
  pose proof (Z.mod_pos_bound N D HD) as Hrem.
  destruct rec as [m r s]. cbn [shr_m shr_r shr_s] in *. subst m r s.
  unfold rne, loc_of_shr_record, round_nearest_even.
  bools; cbn [negb andb]; try reflexivity; try lia.
Qed.

(** [digits2_pos p] is the number of binary digits of [p]. *)
Lemma digits2_bounds (p : positive) :
  2 ^ (Zpos (digits2_pos p) - 1) <= Zpos p < 2 ^ Zpos (digits2_pos p).
Proof.
  induction p as [p IH|p IH|]; simpl digits2_pos.
  - rewrite Pos2Z.inj_succ.
    replace (Z.succ (Zpos (digits2_pos p)) - 1) with (Zpos (digits2_pos p) - 1 + 1) by lia.
    rewrite Z.pow_succ_r, Z.pow_add_r by lia. lia.
  - rewrite Pos2Z.inj_succ.
    replace (Z.succ (Zpos (digits2_pos p)) - 1) with (Zpos (digits2_pos p) - 1 + 1) by lia.
    rewrite Z.pow_succ_r, Z.pow_add_r by lia. lia.
  - simpl. lia.
Qed.

Ltac fexp_lia := unfold SpecFloat.fexp, emin, prec, emax in *; lia.

Lemma Zdigits2_bounds (q : Z) :
  0 < q -> 2 ^ (Zdigits2 q - 1) <= q < 2 ^ Zdigits2 q.
Proof.
  destruct q as [|p|p]; try lia. intros _. apply digits2_bounds.
Qed.

Lemma Zdigits2_pos (q : Z) : 0 < q -> 0 < Zdigits2 q.
Proof. destruct q; simpl; lia. Qed.

Lemma shr_locates rec e n N D :
  0 <= N -> 0 < D -> 0 <= n -> locates rec N D ->
  locates (fst (shr rec e n)) N (2 ^ n * D) /\ snd (shr rec e n) = e + n.
Proof.
  intros HN HD Hn Hloc. unfold shr.
  destruct n as [|p|p]; [| |lia].
  - simpl fst. simpl snd. rewrite Z.pow_0_r, Z.mul_1_l. split; [exact Hloc|lia].
  - simpl fst. simpl snd. split; [|reflexivity].
    apply iter_pos_locates; assumption.
Qed.

Lemma shr_unchanged rec e n : n <= 0 -> shr rec e n = (rec, e).
Proof. intros Hn. destruct n; try reflexivity. lia. Qed.

Lemma rne_between N D :
  0 <= N -> 0 < D -> N / D <= rne N D <= N / D + 1.
Proof.
  intros HN HD. unfold rne.
  bools; try lia. destruct (Z.even (N / D)); lia.
Qed.

Lemma pow2_split (a b : Z) : 0 <= a -> 0 <= b -> 2 ^ (a + b) = 2 ^ a * 2 ^ b.
Proof. intros. apply Z.pow_add_r; assumption. Qed.

(** The mantissa left after shifting [q], of [d] digits, by [n >= d - 53]
    places. *)
Lemma shifted_small q n :
  0 <= q -> 0 <= n -> Zdigits2 q - 53 <= n -> q / 2 ^ n < 2 ^ 53.
Proof.
  intros Hq Hn Hd.
  pose proof (pow2_pos n Hn) as Hpow.
  apply Z.div_lt_upper_bound; [exact Hpow|].
  destruct (Z.eq_dec q 0) as [->|Hq0]; [pose proof (pow2_pos 53); nia|].
  destruct (Zdigits2_bounds q ltac:(lia)) as [_ Hhi].
  pose proof (Zdigits2_pos q ltac:(lia)) as Hdpos.
  apply Z.lt_le_trans with (1 := Hhi).
  rewrite <- pow2_split by lia.
  apply Z.pow_le_mono_r; lia.
Qed.

Lemma shifted_large q n :
  0 < q -> 0 <= n -> n = Zdigits2 q - 53 -> 2 ^ 52 <= q / 2 ^ n.
Proof.
  intros Hq Hn Hd.
  pose proof (pow2_pos n Hn) as Hpow.
  apply Z.div_le_lower_bound; [exact Hpow|].
  destruct (Zdigits2_bounds q Hq) as [Hlo _].
  apply Z.le_trans with (2 := Hlo).
  rewrite <- pow2_split by lia.
  apply Z.pow_le_mono_r; lia.
Qed.

Lemma record_m q l : shr_m (shr_record_of_loc q l) = q.
Proof. destruct l as [|[]]; reflexivity. Qed.

Lemma digits_le_53 m : 0 < m -> m < 2 ^ 53 -> Zdigits2 m <= 53.
Proof.
  intros Hm Hlt. destruct (Zdigits2_bounds m Hm) as [Hlo _].
  pose proof (Zdigits2_pos m Hm).
  destruct (Z.le_gt_cases (Zdigits2 m) 53) as [Hle|Hgt]; [exact Hle|].
  exfalso. assert (2 ^ 53 <= 2 ^ (Zdigits2 m - 1)) by (apply Z.pow_le_mono_r; lia).
  lia.
Qed.

(** What [binary_round_aux] computes from a mantissa [q] and a location
    that hold the integer part and the position of [N / D], when the
    exponent [e] is not above the one the format gives to a number of
    that size. *)
Lemma round_aux_spec sx q e l N D :
  0 <= N -> 0 < D -> locates (shr_record_of_loc q l) N D ->
  e <= SpecFloat.fexp prec emax (Zdigits2 q + e) ->
  let g := SpecFloat.fexp prec emax (Zdigits2 q + e) in
  let D' := 2 ^ (g - e) * D in
  binary_round_aux prec emax sx q e l = finalize sx (rne N D') g /\
  N / D' < 2 ^ 53 /\ (-1074 < g -> 2 ^ 52 <= N / D').
Proof.
  intros HN HD Hloc Hprec g D'.
  assert (Hq : q = N / D) by (rewrite <- (record_m q l); apply Hloc).
  assert (Hq0 : 0 <= q) by (rewrite Hq; apply Z.div_pos; lia).
  assert (Hn : 0 <= g - e) by (unfold g; lia).
  assert (Hg : -1074 <= g) by (unfold g; fexp_lia).
  pose proof (pow2_pos (g - e) Hn) as Hpow.
  assert (HD' : 0 < D') by (unfold D'; nia).
  assert (Hq1 : N / D' = q / 2 ^ (g - e)).
  { unfold D'. rewrite (Z.mul_comm (2 ^ (g - e)) D), <- Z.div_div by lia.
    rewrite Hq. reflexivity. }
  assert (Hsmall : N / D' < 2 ^ 53).
  { rewrite Hq1. apply shifted_small; [assumption..|]. unfold g. fexp_lia. }
  assert (Hlarge : -1074 < g -> 2 ^ 52 <= N / D').
  { intros Hnormal. rewrite Hq1.
    destruct (Z.eq_dec q 0) as [Hz|Hnz].
    - exfalso. unfold g in Hnormal, Hprec. rewrite Hz in Hnormal, Hprec.
      simpl Zdigits2 in *. fexp_lia.
    - apply shifted_large; [lia|assumption|]. unfold g in *. fexp_lia. }
  split; [|split; assumption].
  unfold binary_round_aux, shr_fexp. fold g.
  destruct (shr_locates (shr_record_of_loc q l) e (g - e) N D HN HD Hn Hloc)
    as [Hloc1 He1].
  destruct (shr (shr_record_of_loc q l) e (g - e)) as [rec1 e1].
  cbn [fst snd] in Hloc1, He1. fold D' in Hloc1.
  replace e1 with g by lia. clear He1 e1.
  rewrite (round_locates rec1 N D' HN HD' Hloc1).
  pose proof (rne_between N D' HN HD') as Hm2.
  pose proof (Z.div_pos N D' HN HD') as Hq1pos.
  set (m2 := rne N D') in *.
  unfold finalize.
  destruct (Z.eqb_spec m2 0) as [Hzero|Hnonzero].
  - rewrite Hzero. simpl Zdigits2. rewrite Z.add_0_l.
    rewrite shr_unchanged by (clear - Hg; fexp_lia). reflexivity.
  - destruct (Z.eqb_spec m2 (2 ^ 53)) as [Htop|Hnottop].
    + rewrite Htop.
      replace (Zdigits2 (2 ^ 53)) with 54 by reflexivity.
      replace (SpecFloat.fexp prec emax (54 + g) - g) with 1 by (clear - Hg; fexp_lia).
      reflexivity.
    + assert (Hm2pos : 0 < m2 < 2 ^ 53) by lia.
      pose proof (digits_le_53 m2 ltac:(lia) ltac:(lia)) as Hd2.
      rewrite shr_unchanged by (clear - Hg Hd2; fexp_lia).
      rewrite record_m.
      destruct m2 as [|p|p]; try lia. reflexivity.
Qed.

(** *** Rounding is monotone *)

Lemma div_le_cross N D N' D' :
  0 <= N -> 0 < D -> 0 <= N' -> 0 < D' ->
  N * D' <= N' * D -> N / D <= N' / D'.
Proof.
  intros HN HD HN' HD' Hle.
  pose proof (Z.div_mod N D ltac:(lia)) as E.
  pose proof (Z.mod_pos_bound N D HD) as B.
  pose proof (Z.div_mod N' D' ltac:(lia)) as E'.
  pose proof (Z.mod_pos_bound N' D' HD') as B'.
  pose proof (Z.div_pos N D HN HD). pose proof (Z.div_pos N' D' HN' HD').
  set (q := N / D) in *. set (r := N mod D) in *.
  set (q' := N' / D') in *. set (r' := N' mod D') in *.
  destruct (Z.le_gt_cases q q') as [Hok|Hbad]; [exact Hok|exfalso].
  assert (H1 : (q' + 1) * (D * D') <= q * (D * D')) by (apply Z.mul_le_mono_nonneg_r; nia).
  nia.
Qed.

Lemma rne_mono N D N' D' :
  0 <= N -> 0 < D -> 0 <= N' -> 0 < D' ->
  N * D' <= N' * D -> rne N D <= rne N' D'.
Proof.
  intros HN HD HN' HD' Hle.
  pose proof (div_le_cross N D N' D' HN HD HN' HD' Hle) as Hq.
  pose proof (rne_between N D HN HD) as Hm.
  pose proof (rne_between N' D' HN' HD') as Hm'.
  destruct (Z.eq_dec (N / D) (N' / D')) as [Heq|Hneq]; [|lia].
  pose proof (Z.div_mod N D ltac:(lia)) as E.
  pose proof (Z.mod_pos_bound N D HD) as B.
  pose proof (Z.div_mod N' D' ltac:(lia)) as E'.
  pose proof (Z.mod_pos_bound N' D' HD') as B'.
  unfold rne in *. rewrite <- Heq in *.
  set (q := N / D) in *. set (r := N mod D) in *. set (r' := N' mod D') in *.
  assert (Hr : r * D' <= r' * D) by nia.
  destruct (Z.ltb_spec (2 * r) D) as [Hlow|Hhigh].
  - bools; try (destruct (Z.even q)); lia.
  - destruct (Z.ltb_spec D (2 * r)) as [Habove|Htie].
    + assert (D' < 2 * r') by nia.
      bools; try (destruct (Z.even q)); lia.
    + assert (D' <= 2 * r') by nia.
      bools; try (destruct (Z.even q)); lia.
Qed.

Lemma leb_finite m1 e1 m2 e2 :
  SFleb (S754_finite false m1 e1) (S754_finite false m2 e2) = true <->
  e1 < e2 \/ (e1 = e2 /\ Zpos m1 <= Zpos m2).
Proof.
  unfold SFleb, SFcompare.
  destruct (Z.compare_spec e1 e2) as [Heq|Hlt|Hgt].
  - rewrite Pos.compare_cont_spec. simpl.
    destruct (Pos.compare_spec m1 m2) as [Hm|Hm|Hm]; simpl;
      split; intros; try discriminate; try reflexivity; try lia.
  - split; [intros _; left; exact Hlt|reflexivity].
  - split; [discriminate|lia].
Qed.

Lemma le_at_cancel B N D N' D' e :
  0 <= e + B -> le_at B N D e N' D' e -> N * D' <= N' * D.
Proof.
  unfold le_at. intros He Hle.
  pose proof (pow2_pos (e + B) He). nia.
Qed.

Lemma exponent_mono B N D g N' D' g' :
  1074 <= B ->
  normalised N D g -> normalised N' D' g' ->
  le_at B N D g N' D' g' -> g <= g'.
Proof.
  intros HB (HN & HD & Hg & _ & Hlarge) (HN' & HD' & Hg' & Hsmall' & _) Hle.
  destruct (Z.le_gt_cases g g') as [Hok|Hbad]; [exact Hok|exfalso].
  unfold le_at in Hle.
  replace (g + B) with ((g - g') + (g' + B)) in Hle by lia.
  rewrite (pow2_split (g - g') (g' + B)) in Hle by lia.
  pose proof (pow2_pos (g' + B) ltac:(lia)) as Hpos.
  assert (Hle' : N * D' * 2 ^ (g - g') <= N' * D) by nia.
  clear Hle.
  specialize (Hlarge ltac:(lia)).
  assert (H2 : 2 <= 2 ^ (g - g')).
  { change 2 with (2 ^ 1) at 1. apply Z.pow_le_mono_r; lia. }
  assert (HNlow : 2 ^ 52 * D <= N).
  { pose proof (Z.mul_div_le N D HD).
    assert (2 ^ 52 * D <= D * (N / D)) by nia. lia. }
  assert (HNhigh : N' < 2 ^ 53 * D').
  { pose proof (Z.div_mod N' D' ltac:(lia)) as E'.
    pose proof (Z.mod_pos_bound N' D' HD') as B'.
    nia. }
  change (2 ^ 53) with (2 * 2 ^ 52) in HNhigh.
  assert (Hp : 0 < 2 ^ 52) by reflexivity.
  assert (2 * (N * D') <= N * D' * 2 ^ (g - g')) by nia.
  assert (2 ^ 52 * D * D' <= N * D') by nia.
  assert (N' * D < 2 * 2 ^ 52 * D' * D) by nia.
  nia.
Qed.

Lemma leb_zero_l s x :
  match x with S754_nan | S754_infinity true | S754_finite true _ _ => False
          | _ => True end ->
  SFleb (S754_zero s) x = true.
Proof. destruct x as [s'|[]| |[] m e]; simpl; intros H; try reflexivity; destruct H. Qed.

Lemma leb_inf_r x :
  x <> S754_nan -> SFleb x (S754_infinity false) = true.
Proof. destruct x as [s|[]| |s m e]; intros H; try reflexivity; congruence. Qed.

Lemma normalised_rne N D g :
  normalised N D g ->
  0 <= rne N D <= 2 ^ 53 /\ (-1074 < g -> 2 ^ 52 <= rne N D).
Proof.
  intros (HN & HD & Hg & Hsmall & Hlarge).
  pose proof (rne_between N D HN HD).
  pose proof (Z.div_pos N D HN HD).
  split; [lia|]. intros Hn. specialize (Hlarge Hn). lia.
Qed.

Lemma finalize_mono B N D g N' D' g' :
  1074 <= B ->
  normalised N D g -> normalised N' D' g' ->
  le_at B N D g N' D' g' ->
  SFleb (finalize false (rne N D) g) (finalize false (rne N' D') g') = true.
Proof.
  intros HB Hx Hy Hle.
  pose proof (exponent_mono _ _ _ _ _ _ _ HB Hx Hy Hle) as Hg.
  pose proof (normalised_rne _ _ _ Hx) as [Hm Hmn].
  pose proof (normalised_rne _ _ _ Hy) as [Hm' Hmn'].
  assert (Hsame : g = g' -> rne N D <= rne N' D').
  { intros Heq. subst g'.
    destruct Hx as (? & ? & ? & _), Hy as (? & ? & _).
    apply rne_mono; try assumption.
    apply (le_at_cancel B _ _ _ _ g); [lia|exact Hle]. }
  assert (Hnext : g < g' -> 2 ^ 52 <= rne N' D').
  { intros Hlt. apply Hmn'. destruct Hx as (_ & _ & ? & _). lia. }
  clear Hle Hx Hy Hmn Hmn'.
  set (m := rne N D) in *. set (m' := rne N' D') in *.
  change (2 ^ 53) with 9007199254740992 in *.
  change (2 ^ 52) with 4503599627370496 in *.
  unfold finalize.
  change (2 ^ 53) with 9007199254740992.
  change (2 ^ 52) with 4503599627370496.
  destruct (Z.eqb_spec m 0);
    [apply leb_zero_l; bools; exact I|].
  destruct (Z.eqb_spec m' 0); [exfalso; lia|].
  bools; try (apply leb_inf_r; discriminate); try (exfalso; lia);
    apply leb_finite; rewrite ?Z2Pos.id by lia; lia.
Qed.

Lemma digits_53 m : 2 ^ 52 <= m -> m < 2 ^ 53 -> Zdigits2 m = 53.
Proof.
  intros Hlo Hhi.
  assert (Hm : 0 < m) by (change (2 ^ 52) with 4503599627370496 in Hlo; lia).
  pose proof (digits_le_53 m Hm Hhi) as Hle.
  destruct (Zdigits2_bounds m Hm) as [_ Hup].
  pose proof (Zdigits2_pos m Hm).
  destruct (Z.le_gt_cases 53 (Zdigits2 m)) as [Hge|Hlt]; [lia|].
  exfalso. assert (2 ^ Zdigits2 m <= 2 ^ 52) by (apply Z.pow_le_mono_r; lia).
  lia.
Qed.

Lemma bounded_spec m e :
  bounded prec emax m e = true <->
  SpecFloat.fexp prec emax (Zdigits2 (Zpos m) + e) = e /\ e <= 971.
Proof.
  unfold bounded, canonical_mantissa. rewrite andb_true_iff.
  rewrite Z.eqb_eq, Z.leb_le. reflexivity.
Qed.

Lemma finalize_valid sx N D g :
  normalised N D g -> valid_binary prec emax (finalize sx (rne N D) g) = true.
Proof.
  intros Hx. pose proof (normalised_rne _ _ _ Hx) as [Hm Hmn].
  destruct Hx as (_ & _ & Hg & _).
  set (m := rne N D) in *. unfold finalize.
  destruct (Z.eqb_spec m 0); [reflexivity|].
  destruct (Z.eqb_spec m (2 ^ 53)).
  - destruct (Z.leb_spec (g + 1) 971); [|reflexivity].
    cbn [valid_binary]. apply bounded_spec.
    split; [|assumption].
    replace (Zdigits2 (Zpos (Z.to_pos (2 ^ 52)))) with 53 by reflexivity.
    fexp_lia.
  - destruct (Z.leb_spec g 971); [|reflexivity].
    cbn [valid_binary]. apply bounded_spec.
    split; [|assumption].
    rewrite Z2Pos.id by lia.
    destruct (Z.eq_dec g (-1074)) as [Hsub|Hnorm].
    + pose proof (digits_le_53 m ltac:(lia) ltac:(lia)).
      pose proof (Zdigits2_pos m ltac:(lia)). fexp_lia.
    + rewrite (digits_53 m) by lia. fexp_lia.
Qed.

(** A valid positive finite number as a rational at its own exponent. *)
Lemma valid_normalised m e :
  bounded prec emax m e = true -> normalised (Zpos m) 1 e /\ e <= 971.
Proof.
  intros Hb. apply bounded_spec in Hb as [Hcanon Hmax].
  pose proof (Zdigits2_bounds (Zpos m) ltac:(lia)) as [Hlo Hhi].
  pose proof (Zdigits2_pos (Zpos m) ltac:(lia)) as Hd.
  assert (Hcases : Zdigits2 (Zpos m) = 53 /\ -1074 <= e \/
                   e = -1074 /\ Zdigits2 (Zpos m) <= 53) by fexp_lia.
  split; [|exact Hmax].
  unfold normalised. rewrite Z.div_1_r.
  repeat split; try lia.
  - destruct Hcases as [[Hd53 _]|[_ Hdle]].
    + rewrite Hd53 in Hhi. exact Hhi.
    + apply Z.lt_le_trans with (1 := Hhi). apply Z.pow_le_mono_r; lia.
  - intros Hn. destruct Hcases as [[Hd53 _]|[? _]]; [|lia].
    rewrite Hd53 in Hlo. exact Hlo.
Qed.

Lemma leb_le_at B m e m' e' :
  1074 <= B ->
  bounded prec emax m e = true -> bounded prec emax m' e' = true ->
  SFleb (S754_finite false m e) (S754_finite false m' e') = true ->
  le_at B (Zpos m) 1 e (Zpos m') 1 e'.
Proof.
  intros HB Hb Hb' Hle.
  apply valid_normalised in Hb as [(_ & _ & Hg & Hsmall & _) _].
  apply valid_normalised in Hb' as [(_ & _ & Hg' & _ & Hlarge') _].
  rewrite Z.div_1_r in *.
  apply leb_finite in Hle. unfold le_at. rewrite !Z.mul_1_r.
  destruct Hle as [Hlt|[-> Hm]].
  - specialize (Hlarge' ltac:(lia)).
    replace (e' + B) with ((e' - e) + (e + B)) by lia.
    rewrite (pow2_split (e' - e) (e + B)) by lia.
    pose proof (pow2_pos (e + B) ltac:(lia)).
    assert (2 <= 2 ^ (e' - e)).
    { change 2 with (2 ^ 1) at 1. apply Z.pow_le_mono_r; lia. }
    change (2 ^ 53) with (2 * 2 ^ 52) in Hsmall.
    assert (Hm : Zpos m <= Zpos m' * 2 ^ (e' - e)).
    { apply Z.le_trans with (2 ^ 52 * 2); [lia|].
      apply Z.mul_le_mono_nonneg; lia. }
    rewrite Z.mul_assoc. apply Z.mul_le_mono_nonneg_r; [lia|exact Hm].
  - pose proof (pow2_pos (e' + B) ltac:(lia)).
    apply Z.mul_le_mono_nonneg_r; [lia|exact Hm].
Qed.

(** *** Multiplication *)

Lemma digits_mul (a b : positive) :
  Zdigits2 (Zpos a) + Zdigits2 (Zpos b) - 1 <= Zdigits2 (Zpos (a * b)).
Proof.
  destruct (Zdigits2_bounds (Zpos a) ltac:(lia)) as [Ha _].
  destruct (Zdigits2_bounds (Zpos b) ltac:(lia)) as [Hb _].
  destruct (Zdigits2_bounds (Zpos (a * b)) ltac:(lia)) as [_ Hab].
  pose proof (Zdigits2_pos (Zpos a) ltac:(lia)).
  pose proof (Zdigits2_pos (Zpos b) ltac:(lia)).
  pose proof (Zdigits2_pos (Zpos (a * b)) ltac:(lia)).
  set (da := Zdigits2 (Zpos a)) in *. set (db := Zdigits2 (Zpos b)) in *.
  set (d := Zdigits2 (Zpos (a * b))) in *.
  rewrite Pos2Z.inj_mul in Hab.
  assert (Hprod : 2 ^ (da - 1 + (db - 1)) <= Zpos a * Zpos b).
  { rewrite pow2_split by lia.
    apply Z.mul_le_mono_nonneg; try lia; apply Z.lt_le_incl, pow2_pos; lia. }
  destruct (Z.le_gt_cases (da + db - 1) d) as [Hok|Hbad]; [exact Hok|exfalso].
  assert (2 ^ d <= 2 ^ (da - 1 + (db - 1))) by (apply Z.pow_le_mono_r; lia).
  lia.
Qed.

Lemma exact_locates q : 0 <= q -> locates (shr_record_of_loc q loc_Exact) q 1.
Proof.
  intros Hq. unfold locates. cbn [shr_record_of_loc shr_m shr_r shr_s].
  rewrite Z.div_1_r, Z.mod_1_r. repeat split.
Qed.

(** The product of two valid positive numbers. *)
Lemma fmul_spec ma ea mc ec :
  bounded prec emax ma ea = true -> bounded prec emax mc ec = true ->
  let P := Zpos ma * Zpos mc in
  let E := ea + ec in
  let g := SpecFloat.fexp prec emax (Zdigits2 P + E) in
  fmul (S754_finite false ma ea) (S754_finite false mc ec)
  = finalize false (rne P (2 ^ (g - E))) g /\
  normalised P (2 ^ (g - E)) g /\ E <= g.
Proof.
  intros Ha Hc P E g.
  apply bounded_spec in Ha as [Ha _]. apply bounded_spec in Hc as [Hc _].
  pose proof (digits_mul ma mc) as Hd.
  pose proof (Zdigits2_pos (Zpos ma) ltac:(lia)).
  pose proof (Zdigits2_pos (Zpos mc) ltac:(lia)).
  assert (Hprec : E <= g).
  { unfold g, E, P. rewrite <- Pos2Z.inj_mul. fexp_lia. }
  assert (HP : 0 <= P) by (unfold P; lia).
  pose proof (round_aux_spec false P E loc_Exact P 1 HP ltac:(lia)
                (exact_locates P HP) Hprec) as Hspec.
  cbv zeta in Hspec. fold g in Hspec. rewrite Z.mul_1_r in Hspec.
  destruct Hspec as (Heq & Hsmall & Hlarge).
  split; [exact Heq|]. split; [|exact Hprec].
  unfold normalised. repeat split; try assumption.
  - apply pow2_pos. lia.
  - unfold g. fexp_lia.
Qed.

Lemma scale_eq (a c x y u v : Z) :
  0 <= x -> 0 <= y -> 0 <= u -> 0 <= v -> x + y = u + v ->
  a * c * 2 ^ x * 2 ^ y = a * 2 ^ u * (c * 2 ^ v).
Proof.
  intros Hx Hy Hu Hv Heq.
  transitivity (a * c * 2 ^ (x + y)).
  - rewrite pow2_split by lia. ring.
  - rewrite Heq, pow2_split by lia. ring.
Qed.

Lemma fmul_mono_finite ma ea mb eb mc ec :
  bounded prec emax ma ea = true -> bounded prec emax mb eb = true ->
  bounded prec emax mc ec = true ->
  SFleb (S754_finite false ma ea) (S754_finite false mb eb) = true ->
  SFleb (fmul (S754_finite false ma ea) (S754_finite false mc ec))
        (fmul (S754_finite false mb eb) (S754_finite false mc ec)) = true.
Proof.
  intros Ha Hb Hc Hle.
  pose proof (leb_le_at 1074 ma ea mb eb ltac:(lia) Ha Hb Hle) as Hin.
  destruct (fmul_spec ma ea mc ec Ha Hc) as (-> & Hna & Hea).
  destruct (fmul_spec mb eb mc ec Hb Hc) as (-> & Hnb & Heb).
  apply valid_normalised in Ha as [(_ & _ & Hga & _) Hmaxa].
  apply valid_normalised in Hb as [(_ & _ & Hgb & _) Hmaxb].
  apply valid_normalised in Hc as [(_ & _ & Hgc & _) Hmaxc].
  set (ga := SpecFloat.fexp prec emax (Zdigits2 (Zpos ma * Zpos mc) + (ea + ec))) in *.
  set (gb := SpecFloat.fexp prec emax (Zdigits2 (Zpos mb * Zpos mc) + (eb + ec))) in *.
  assert (-1074 <= ga) by (destruct Hna as (_ & _ & ? & _); assumption).
  assert (-1074 <= gb) by (destruct Hnb as (_ & _ & ? & _); assumption).
  apply (finalize_mono 4300); [lia|assumption..|].
  unfold le_at in *. rewrite !Z.mul_1_r in Hin.
  set (X := ga + gb + 4300 - ea - eb - ec - 1074).
  assert (HX : 0 <= X) by (unfold X; lia).
  rewrite (scale_eq (Zpos ma) (Zpos mc) (gb - (eb + ec)) (ga + 4300) (ea + 1074) X)
    by (unfold X; lia).
  rewrite (scale_eq (Zpos mb) (Zpos mc) (ga - (ea + ec)) (gb + 4300) (eb + 1074) X)
    by (unfold X; lia).
  apply Z.mul_le_mono_nonneg_r; [|exact Hin].
  pose proof (pow2_pos X HX). nia.
Qed.

(** *** Division *)

Lemma new_location_locates N D :
  0 <= N -> 0 < D ->
  locates (shr_record_of_loc (N / D) (new_location D (N mod D))) N D.
Proof.
  intros HN HD. pose proof (Z.mod_pos_bound N D HD) as Hr.
  set (r := N mod D) in *.
  unfold locates, new_location, new_location_even, new_location_odd.
  destruct (Z.even D) eqn:Heven; destruct (Z.eqb_spec r 0) as [Hz|Hnz];
    cbn [shr_record_of_loc shr_m shr_r shr_s].
  - repeat split; bools; lia.
  - destruct (Z.compare_spec (2 * r) D); cbn [shr_record_of_loc shr_m shr_r shr_s];
      repeat split; bools; lia.
  - repeat split; bools; lia.
  - assert (Hodd : 2 * r <> D).
    { intros Heq. rewrite <- Heq, Z.even_mul in Heven. discriminate. }
    destruct (Z.compare_spec (2 * r + 1) D); cbn [shr_record_of_loc shr_m shr_r shr_s];
      repeat split; bools; lia.
Qed.

Lemma div_core_spec ma ea mc ec :
  let e' := Z.min (SpecFloat.fexp prec emax (Zdigits2 (Zpos ma) + ea - (Zdigits2 (Zpos mc) + ec))) (ea - ec) in
  let s := ea - ec - e' in
  let N := Zpos ma * 2 ^ s in
  SFdiv_core_binary prec emax (Zpos ma) ea (Zpos mc) ec
  = (N / Zpos mc, e', new_location (Zpos mc) (N mod Zpos mc)).
Proof.
  intros e' s N. unfold SFdiv_core_binary. fold e'. fold s.
  assert (Hs : 0 <= s) by (unfold s, e'; lia).
  assert (Hm : match s with Z.pos _ => Z.shiftl (Zpos ma) s | 0 => Zpos ma | Z.neg _ => 0 end = N).
  { unfold N. destruct s as [|p|p] eqn:Es.
    - rewrite Z.pow_0_r. lia.
    - rewrite Z.shiftl_mul_pow2 by lia. reflexivity.
    - lia. }
  rewrite Hm. unfold Z.div, Z.modulo.
  destruct (Z.div_eucl N (Zpos mc)) as [q r]. reflexivity.
Qed.

Lemma quotient_digits ma mc s :
  0 <= s -> 0 <= Zdigits2 (Zpos ma) - 1 + s - Zdigits2 (Zpos mc) ->
  Zdigits2 (Zpos ma) + s - Zdigits2 (Zpos mc) <= Zdigits2 (Zpos ma * 2 ^ s / Zpos mc).
Proof.
  intros Hs Hk.
  destruct (Zdigits2_bounds (Zpos ma) ltac:(lia)) as [Ha _].
  destruct (Zdigits2_bounds (Zpos mc) ltac:(lia)) as [_ Hc].
  pose proof (Zdigits2_pos (Zpos ma) ltac:(lia)).
  pose proof (Zdigits2_pos (Zpos mc) ltac:(lia)).
  set (da := Zdigits2 (Zpos ma)) in *. set (dc := Zdigits2 (Zpos mc)) in *.
  set (k := da - 1 + s - dc) in *.
  set (q := Zpos ma * 2 ^ s / Zpos mc).
  assert (Hq : 2 ^ k <= q).
  { unfold q. apply Z.div_le_lower_bound; [lia|].
    apply Z.le_trans with (2 ^ dc * 2 ^ k).
    - apply Z.mul_le_mono_nonneg_r; [apply Z.lt_le_incl, pow2_pos; lia | lia].
    - rewrite <- pow2_split by lia.
      replace (dc + k) with (da - 1 + s) by (unfold k; lia).
      rewrite pow2_split by lia.
      apply Z.mul_le_mono_nonneg_r; [apply Z.lt_le_incl, pow2_pos; lia | lia]. }
  pose proof (pow2_pos k Hk).
  destruct (Zdigits2_bounds q ltac:(lia)) as [_ Hqd].
  pose proof (Zdigits2_pos q ltac:(lia)).
  destruct (Z.le_gt_cases (k + 1) (Zdigits2 q)) as [Hok|Hbad]; [unfold k in Hok; lia|exfalso].
  assert (2 ^ Zdigits2 q <= 2 ^ k) by (apply Z.pow_le_mono_r; lia).
  lia.
Qed.

(** The quotient of two valid positive numbers. *)
Lemma fdiv_spec ma ea mc ec :
  bounded prec emax ma ea = true -> bounded prec emax mc ec = true ->
  let e' := Z.min (SpecFloat.fexp prec emax (Zdigits2 (Zpos ma) + ea - (Zdigits2 (Zpos mc) + ec))) (ea - ec) in
  let s := ea - ec - e' in
  let N := Zpos ma * 2 ^ s in
  let g := SpecFloat.fexp prec emax (Zdigits2 (N / Zpos mc) + e') in
  fdiv (S754_finite false ma ea) (S754_finite false mc ec)
  = finalize false (rne N (2 ^ (g - e') * Zpos mc)) g /\
  normalised N (2 ^ (g - e') * Zpos mc) g /\ e' <= g /\ 0 <= s.
Proof.
  intros Ha Hc e' s N g.
  assert (Hs : 0 <= s) by (unfold s, e'; lia).
  pose proof (pow2_pos s Hs) as H2s.
  assert (HN : 0 <= N) by (unfold N; lia).
  assert (Hprec : e' <= g).
  { destruct (Z.le_gt_cases e' (-1074)) as [Hlow|Hhigh]; [unfold g; fexp_lia|].
    assert (Hk : 53 <= Zdigits2 (Zpos ma) + s - Zdigits2 (Zpos mc)).
    { unfold s. unfold e' in Hhigh |- *. fexp_lia. }
    pose proof (quotient_digits ma mc s Hs ltac:(lia)) as Hq.
    fold N in Hq. unfold g. unfold s in Hk. fexp_lia. }
  unfold fdiv, SFdiv. rewrite div_core_spec. fold e'. fold s. fold N.
  cbn [xorb].
  pose proof (round_aux_spec false (N / Zpos mc) e' (new_location (Zpos mc) (N mod Zpos mc))
                N (Zpos mc) HN ltac:(lia)
                (new_location_locates N (Zpos mc) HN ltac:(lia)) Hprec) as Hspec.
  cbv zeta in Hspec. fold g in Hspec.
  destruct Hspec as (Heq & Hsmall & Hlarge).
  split; [exact Heq|]. split; [|split; assumption].
  unfold normalised. repeat split; try assumption.
  - pose proof (pow2_pos (g - e') ltac:(lia)). nia.
  - unfold g. fexp_lia.
Qed.

Lemma scale_eq3 (a c x y z u v : Z) :
  0 <= x -> 0 <= y -> 0 <= z -> 0 <= u -> 0 <= v -> x + y + z = u + v ->
  a * 2 ^ x * (2 ^ y * c) * 2 ^ z = a * 2 ^ u * (c * 2 ^ v).
Proof.
  intros Hx Hy Hz Hu Hv Heq.
  transitivity (a * c * 2 ^ (x + y + z)).
  - rewrite !pow2_split by lia. ring.
  - rewrite Heq, pow2_split by lia. ring.
Qed.

Lemma fdiv_mono_finite ma ea mb eb mc ec :
  bounded prec emax ma ea = true -> bounded prec emax mb eb = true ->
  bounded prec emax mc ec = true ->
  SFleb (S754_finite false ma ea) (S754_finite false mb eb) = true ->
  SFleb (fdiv (S754_finite false ma ea) (S754_finite false mc ec))
        (fdiv (S754_finite false mb eb) (S754_finite false mc ec)) = true.
Proof.
  intros Ha Hb Hc Hle.
  pose proof (leb_le_at 1074 ma ea mb eb ltac:(lia) Ha Hb Hle) as Hin.
  destruct (fdiv_spec ma ea mc ec Ha Hc) as (-> & Hna & Hea & Hsa).
  destruct (fdiv_spec mb eb mc ec Hb Hc) as (-> & Hnb & Heb & Hsb).
  apply valid_normalised in Ha as [(_ & _ & Hga & _) Hmaxa].
  apply valid_normalised in Hb as [(_ & _ & Hgb & _) Hmaxb].
  apply valid_normalised in Hc as [(_ & _ & Hgc & _) Hmaxc].
  set (e'a := Z.min (SpecFloat.fexp prec emax (Zdigits2 (Zpos ma) + ea - (Zdigits2 (Zpos mc) + ec))) (ea - ec)) in *.
  set (e'b := Z.min (SpecFloat.fexp prec emax (Zdigits2 (Zpos mb) + eb - (Zdigits2 (Zpos mc) + ec))) (eb - ec)) in *.
  set (ga := SpecFloat.fexp prec emax (Zdigits2 (Zpos ma * 2 ^ (ea - ec - e'a) / Zpos mc) + e'a)) in *.
  set (gb := SpecFloat.fexp prec emax (Zdigits2 (Zpos mb * 2 ^ (eb - ec - e'b) / Zpos mc) + e'b)) in *.
  assert (-1074 <= ga) by (destruct Hna as (_ & _ & ? & _); assumption).
  assert (-1074 <= gb) by (destruct Hnb as (_ & _ & ? & _); assumption).
  apply (finalize_mono 4300); [lia|assumption..|].
  unfold le_at in *. rewrite !Z.mul_1_r in Hin.
  set (X := ga + gb + 4300 - ec - e'a - e'b - 1074).
  assert (HX : 0 <= X) by (unfold X; lia).
  rewrite (scale_eq3 (Zpos ma) (Zpos mc) (ea - ec - e'a) (gb - e'b) (ga + 4300) (ea + 1074) X)
    by (unfold X; lia).
  rewrite (scale_eq3 (Zpos mb) (Zpos mc) (eb - ec - e'b) (ga - e'a) (gb + 4300) (eb + 1074) X)
    by (unfold X; lia).
  apply Z.mul_le_mono_nonneg_r; [|exact Hin].
  pose proof (pow2_pos X HX). nia.
Qed.

(** *** Numbers that are neither NaN nor negative *)

Lemma positive_finite_inv x :
  positive_finite x = true ->
  exists m e, x = S754_finite false m e /\ bounded prec emax m e = true.
Proof.
  destruct x as [s|s| |[] m e]; try discriminate. intros H. eauto.
Qed.

Lemma positive_ordinary x : positive_finite x = true -> ordinary x = true.
Proof. destruct x as [s|s| |[] m e]; try discriminate. intros H; exact H. Qed.

Lemma finalize_ordinary N D g :
  normalised N D g -> ordinary (finalize false (rne N D) g) = true.
Proof.
  intros Hn. pose proof (finalize_valid false N D g Hn) as Hv.
  unfold finalize in *.
  repeat match goal with
         | |- context [if ?c then _ else _] => destruct c
         end; try reflexivity; exact Hv.
Qed.

Lemma finite_finalize m e :
  bounded prec emax m e = true ->
  S754_finite false m e = finalize false (rne (Zpos m) 1) e.
Proof.
  intros Hb. apply valid_normalised in Hb as [(_ & _ & _ & Hlt & _) Hmax].
  rewrite Z.div_1_r in Hlt.
  unfold rne. rewrite Z.div_1_r, Z.mod_1_r. cbn [Z.mul Z.ltb Z.compare].
  unfold finalize.
  destruct (Z.eqb_spec (Zpos m) 0); [lia|].
  destruct (Z.eqb_spec (Zpos m) (2 ^ 53)); [lia|].
  destruct (Z.leb_spec e 971); [reflexivity|lia].
Qed.

Lemma le_at_leb B m e m' e' :
  1074 <= B ->
  bounded prec emax m e = true -> bounded prec emax m' e' = true ->
  le_at B (Zpos m) 1 e (Zpos m') 1 e' ->
  SFleb (S754_finite false m e) (S754_finite false m' e') = true.
Proof.
  intros HB Hb Hb' Hle.
  rewrite (finite_finalize m e Hb), (finite_finalize m' e' Hb').
  apply (finalize_mono B); try assumption.
  - apply valid_normalised in Hb as [? _]; assumption.
  - apply valid_normalised in Hb' as [? _]; assumption.
Qed.

Lemma leb_trans a b c :
  ordinary a = true -> ordinary b = true -> ordinary c = true ->
  SFleb a b = true -> SFleb b c = true -> SFleb a c = true.
Proof.
  intros Ha Hb Hc Hab Hbc.
  destruct a as [sa|[]| |[] ma ea]; try discriminate.
  - apply leb_zero_l. destruct c as [sc|[]| |[] mc ec]; try discriminate; exact I.
  - destruct b as [sb|[]| |[] mb eb]; try discriminate.
    destruct c as [sc|[]| |[] mc ec]; try discriminate. reflexivity.
  - destruct b as [sb|[]| |[] mb eb]; try discriminate.
    + destruct c as [sc|[]| |[] mc ec]; try discriminate. reflexivity.
    + destruct c as [sc|[]| |[] mc ec]; try discriminate; [reflexivity|].
      cbn [ordinary] in *.
      pose proof (leb_le_at 1074 ma ea mb eb ltac:(lia) Ha Hb Hab) as H1.
      pose proof (leb_le_at 1074 mb eb mc ec ltac:(lia) Hb Hc Hbc) as H2.
      apply (le_at_leb 1074); try assumption; [lia|].
      unfold le_at in *. rewrite !Z.mul_1_r in *. lia.
Qed.

Lemma fmul_comm a b : fmul a b = fmul b a.
Proof.
  destruct a as [sa|sa| |sa ma ea], b as [sb|sb| |sb mb eb]; cbn;
    rewrite ?(xorb_comm sa sb), ?(Pos.mul_comm ma mb), ?(Z.add_comm ea eb);
    reflexivity.
Qed.

Lemma fmul_ordinary a c :
  ordinary a = true -> positive_finite c = true -> ordinary (fmul a c) = true.
Proof.
  intros Ha Hc. apply positive_finite_inv in Hc as (mc & ec & -> & Hc).
  destruct a as [sa|[]| |[] ma ea]; try discriminate; try reflexivity.
  cbn [ordinary] in Ha.
  destruct (fmul_spec ma ea mc ec Ha Hc) as (-> & Hn & _).
  apply finalize_ordinary, Hn.
Qed.

Lemma ordinary_not_nan x : ordinary x = true -> x <> S754_nan.
Proof. intros H ->. discriminate. Qed.

Lemma ordinary_nonneg x :
  ordinary x = true ->
  match x with S754_nan | S754_infinity true | S754_finite true _ _ => False
          | _ => True end.
Proof. destruct x as [s|[]| |[] m e]; try discriminate; intros _; exact I. Qed.

(** Multiplying by a positive number keeps the order. *)
Lemma fmul_mono a b c :
  ordinary a = true -> ordinary b = true -> positive_finite c = true ->
  SFleb a b = true -> SFleb (fmul a c) (fmul b c) = true.
Proof.
  intros Ha Hb Hc Hle.
  pose proof (fmul_ordinary a c Ha Hc) as Hac.
  pose proof (fmul_ordinary b c Hb Hc) as Hbc.
  apply positive_finite_inv in Hc as (mc & ec & -> & Hc).
  destruct a as [sa|[]| |[] ma ea]; try discriminate.
  - apply leb_zero_l, ordinary_nonneg, Hbc.
  - destruct b as [sb|[]| |[] mb eb]; try discriminate. reflexivity.
  - destruct b as [sb|[]| |[] mb eb]; try discriminate.
    + apply leb_inf_r, ordinary_not_nan, Hac.
    + apply fmul_mono_finite; assumption.
Qed.

Lemma fdiv_ordinary a c :
  ordinary a = true -> positive_finite c = true -> ordinary (fdiv a c) = true.
Proof.
  intros Ha Hc. apply positive_finite_inv in Hc as (mc & ec & -> & Hc).
  destruct a as [sa|[]| |[] ma ea]; try discriminate; try reflexivity.
  cbn [ordinary] in Ha.
  destruct (fdiv_spec ma ea mc ec Ha Hc) as (-> & Hn & _).
  apply finalize_ordinary, Hn.
Qed.

(** Dividing by a positive number keeps the order. *)
Lemma fdiv_mono a b c :
  ordinary a = true -> ordinary b = true -> positive_finite c = true ->
  SFleb a b = true -> SFleb (fdiv a c) (fdiv b c) = true.
Proof.
  intros Ha Hb Hc Hle.
  pose proof (fdiv_ordinary a c Ha Hc) as Hac.
  pose proof (fdiv_ordinary b c Hb Hc) as Hbc.
  apply positive_finite_inv in Hc as (mc & ec & -> & Hc).
  destruct a as [sa|[]| |[] ma ea]; try discriminate.
  - apply leb_zero_l, ordinary_nonneg, Hbc.
  - destruct b as [sb|[]| |[] mb eb]; try discriminate. reflexivity.
  - destruct b as [sb|[]| |[] mb eb]; try discriminate.
    + apply leb_inf_r, ordinary_not_nan, Hac.
    + apply fdiv_mono_finite; assumption.
Qed.

Lemma abs_ordinary x one :
  ordinary x = true -> positive_finite one = true ->
  SFleb one (SFabs x) = SFleb one x.
Proof.
  intros Hx Hone. apply positive_finite_inv in Hone as (m1 & e1 & -> & _).
  destruct x as [s|[]| |[] m e]; try discriminate; reflexivity.
Qed.

(** *** The size of the rounding error

    A product that comes out normal is within half a unit in the last
    place of the exact product of the two numbers. *)

Lemma rne_half N D :
  0 <= N -> 0 < D -> - D <= 2 * (D * rne N D - N) <= D.
Proof.
  intros HN HD. unfold rne.
  pose proof (Z.div_mod N D ltac:(lia)) as Hdm.
  pose proof (Z.mod_pos_bound N D HD) as Hrem.
  bools; try nia. destruct (Z.even (N / D)); nia.
Qed.

Lemma IZR_pow2 n : 0 <= n -> IZR (2 ^ n) = powerRZ 2 n.
Proof.
  intros Hn. rewrite <- (Z2Nat.id n Hn) at 1 2.
  rewrite <- pow_IZR, pow_powerRZ. reflexivity.
Qed.

Lemma value_finalize M g :
  2 ^ 52 <= M <= 2 ^ 53 ->
  normal (finalize false M g) = true ->
  value (finalize false M g) = (IZR M * powerRZ 2 g)%R.
Proof.
  intros HM. unfold finalize.
  destruct (Z.eqb_spec M 0); [lia|].
  destruct (Z.eqb_spec M (2 ^ 53)) as [->|Hne].
  - destruct (g + 1 <=? 971); [|discriminate]. intros _.
    cbn [value]. rewrite Z2Pos.id by lia.
    rewrite powerRZ_add by lra.
    change (2 ^ 53) with (2 ^ 52 * 2). rewrite mult_IZR.
    change (powerRZ 2 1) with (2 * 1)%R. change (IZR 2) with 2%R. ring.
  - destruct (g <=? 971); [|discriminate]. intros _.
    cbn [value]. rewrite Z2Pos.id by lia. ring.
Qed.

Lemma normal_finalize M g :
  0 <= M <= 2 ^ 53 ->
  normal (finalize false M g) = true -> 2 ^ 52 <= M.
Proof.
  intros HM. unfold finalize.
  destruct (Z.eqb_spec M 0); [discriminate|].
  destruct (Z.eqb_spec M (2 ^ 53)) as [->|Hne]; [lia|].
  destruct (g <=? 971); [|discriminate].
  cbn [normal]. rewrite andb_true_iff, Z.leb_le, Z2Pos.id by lia. tauto.
Qed.

Lemma fmul_close a c :
  positive_finite a = true -> positive_finite c = true ->
  normal (fmul a c) = true ->
  ((1 - unit_roundoff) * value (fmul a c) <= value a * value c <= (1 + unit_roundoff) * value (fmul a c))%R.
Proof.
  intros Ha Hc.
  apply positive_finite_inv in Ha as (ma & ea & -> & Ha).
  apply positive_finite_inv in Hc as (mc & ec & -> & Hc).
  destruct (fmul_spec ma ea mc ec Ha Hc) as (Heq & Hnorm & HE).
  cbv zeta in Heq, Hnorm, HE.
  set (P := Zpos ma * Zpos mc) in *. set (E := ea + ec) in *.
  set (g := SpecFloat.fexp prec emax (Zdigits2 P + E)) in *.
  set (D := 2 ^ (g - E)) in *.
  rewrite Heq. intros Hnormal.
  pose proof (normalised_rne _ _ _ Hnorm) as [HM _].
  pose proof (normal_finalize _ _ HM Hnormal) as HM52.
  rewrite (value_finalize _ _ (conj HM52 (proj2 HM)) Hnormal).
  destruct Hnorm as (HP & HD & _).
  pose proof (rne_half P D HP HD) as Hhalf.
  set (M := rne P D) in *.
  assert (HMD : 2 ^ 52 * D <= M * D) by (apply Z.mul_le_mono_nonneg_r; lia).
  assert (Hlow : (2 ^ 53 * (M * D - P) <= M * D)%Z) by lia.
  assert (Hhigh : (2 ^ 53 * (P - M * D) <= M * D)%Z) by lia.
  cbn [value].
  assert (Hg : powerRZ 2 g = (IZR D * powerRZ 2 E)%R).
  { unfold D. rewrite IZR_pow2 by lia. rewrite <- powerRZ_add by lra.
    f_equal. lia. }
  assert (Hprod : (1 * IZR (Zpos ma) * powerRZ 2 ea * (1 * IZR (Zpos mc) * powerRZ 2 ec)
                   = IZR P * powerRZ 2 E)%R).
  { unfold P, E. rewrite mult_IZR, powerRZ_add by lra. ring. }
  rewrite Hprod, Hg.
  assert (HE0 : (0 < powerRZ 2 E)%R) by (apply powerRZ_lt; lra).
  apply IZR_le in Hlow, Hhigh.
  rewrite !mult_IZR, ?minus_IZR, ?mult_IZR in Hlow, Hhigh.
  assert (H53 : IZR (2 ^ 53) = (2 ^ 53)%R) by (rewrite (pow_IZR 2 53); reflexivity).
  rewrite H53 in Hlow, Hhigh.
  set (x := IZR M) in *. set (d := IZR D) in *. set (p := IZR P) in *.
  set (t := powerRZ 2 E) in *.
  assert (Hu : (unit_roundoff * 2 ^ 53 = 1)%R) by (unfold unit_roundoff; field).
  assert (Hxd : (p <= (1 + unit_roundoff) * (x * d) /\ (1 - unit_roundoff) * (x * d) <= p)%R).
  { assert (Hupos : (0 < unit_roundoff)%R) by (unfold unit_roundoff; apply Rinv_0_lt_compat; lra).
    split.
    - apply Rmult_le_reg_l with (2 ^ 53)%R; [lra|].
      replace (2 ^ 53 * ((1 + unit_roundoff) * (x * d)))%R
        with (2 ^ 53 * (x * d) + (unit_roundoff * 2 ^ 53) * (x * d))%R by ring.
      rewrite Hu. lra.
    - apply Rmult_le_reg_l with (2 ^ 53)%R; [lra|].
      replace (2 ^ 53 * ((1 - unit_roundoff) * (x * d)))%R
        with (2 ^ 53 * (x * d) - (unit_roundoff * 2 ^ 53) * (x * d))%R by ring.
      rewrite Hu. lra. }
  destruct Hxd as [Hup Hdown].
  split.
  - replace ((1 - unit_roundoff) * (x * (d * t)))%R with (((1 - unit_roundoff) * (x * d)) * t)%R by ring.
    apply Rmult_le_compat_r; lra.
  - replace ((1 + unit_roundoff) * (x * (d * t)))%R with (((1 + unit_roundoff) * (x * d)) * t)%R by ring.
    apply Rmult_le_compat_r; lra.
Qed.

Lemma value_positive x : positive_finite x = true -> (0 < value x)%R.
Proof.
  intros Hx. apply positive_finite_inv in Hx as (m & e & -> & _).
  cbn [value]. apply Rmult_lt_0_compat.
  - rewrite Rmult_1_l. apply IZR_lt. lia.
  - apply powerRZ_lt. lra.
Qed.

Lemma normal_positive_finite x : normal x = true -> positive_finite x = true.
Proof.
  destruct x as [s|s| |[] m e]; try discriminate.
  cbn [normal positive_finite]. rewrite andb_true_iff. tauto.
Qed.

End Rounding.

(** ** The order of the radii in binary64 *)

Section OrderInBinary64.
Import Floats.SpecFloat IEEE754.
Context {host : Host}.

Lemma orders_cases (m : Z) :
  1 <= m <= maxOrder ->
  m = 1 \/ m = 2 \/ m = 3 \/ m = 4 \/ m = 5 \/ m = 6 \/ m = 7 \/ m = 8 \/
  m = 9 \/ m = 10.
Proof. unfold maxOrder. lia. Qed.

Lemma int_positive (m : Z) :
  1 <= m <= maxOrder -> positive_finite (int m) = true.
Proof.
  intros Hm. apply orders_cases in Hm.
  repeat (destruct Hm as [->|Hm]; [vm_compute; reflexivity|]).
  subst m. vm_compute. reflexivity.
Qed.

Lemma int_mono (m m' : Z) :
  1 <= m <= m' -> m' <= maxOrder -> SFleb (int m) (int m') = true.
Proof.
  intros Hm Hm'.
  assert (Hc : 1 <= m <= maxOrder) by lia. apply orders_cases in Hc.
  assert (Hc' : 1 <= m' <= maxOrder) by lia. apply orders_cases in Hc'.
  repeat (destruct Hc as [->|Hc];
          [repeat (destruct Hc' as [->|Hc'];
                   [first [vm_compute; reflexivity | lia]|]);
           subst m'; first [vm_compute; reflexivity | lia]|]).
  subst m.
  repeat (destruct Hc' as [->|Hc']; [first [vm_compute; reflexivity | lia]|]).
  subst m'. vm_compute. reflexivity.
Qed.

Variable st : State float.
Hypothesis wavelength_positive : positive_finite (wavelengthSI st) = true.
Hypothesis particleSize_positive : positive_finite (particleSizeSI st) = true.
Hypothesis distance_positive : positive_finite (distanceSI st) = true.
Hypothesis scale_positive : positive_finite (scaleFactor st) = true.

Lemma sinTheta_ordinary (m : Z) :
  1 <= m <= maxOrder -> ordinary (sinTheta st m) = true.
Proof.
  intros Hm. apply fdiv_ordinary; [|exact particleSize_positive].
  apply fmul_ordinary; [|exact wavelength_positive].
  apply positive_ordinary, int_positive, Hm.
Qed.

(** The sine grows with the order: both roundings keep the order. *)
Lemma sinTheta_mono (m m' : Z) :
  1 <= m <= m' -> m' <= maxOrder ->
  SFleb (sinTheta st m) (sinTheta st m') = true.
Proof.
  intros Hm Hm'.
  assert (Hi : ordinary (int m) = true)
    by (apply positive_ordinary, int_positive; lia).
  assert (Hi' : ordinary (int m') = true)
    by (apply positive_ordinary, int_positive; lia).
  apply fdiv_mono; [| |exact particleSize_positive|].
  - apply fmul_ordinary; assumption.
  - apply fmul_ordinary; assumption.
  - apply fmul_mono; try assumption. apply int_mono; assumption.
Qed.

Lemma skipped_spec (m : Z) :
  1 <= m <= maxOrder -> skipped st m = SFleb (int 1) (sinTheta st m).
Proof.
  intros Hm. apply abs_ordinary.
  - apply sinTheta_ordinary, Hm.
  - vm_compute. reflexivity.
Qed.

(** An order below one that has an angle has an angle. *)
Lemma skipped_below (m m' : Z) :
  1 <= m <= m' -> m' <= maxOrder ->
  skipped st m' = false -> skipped st m = false.
Proof.
  intros Hm Hm'. rewrite !skipped_spec by lia. intros Hskip'.
  destruct (SFleb (int 1) (sinTheta st m)) eqn:Hskip; [|reflexivity].
  rewrite <- Hskip'. symmetry.
  apply leb_trans with (b := sinTheta st m).
  - vm_compute. reflexivity.
  - apply sinTheta_ordinary. lia.
  - apply sinTheta_ordinary. lia.
  - exact Hskip.
  - apply sinTheta_mono; assumption.
Qed.

Lemma scaled_ordinary (a : float) :
  ordinary a = true ->
  ordinary (fmul (fmul (distanceSI st) a) (scaleFactor st)) = true.
Proof.
  intros Ha. apply fmul_ordinary; [|exact scale_positive].
  rewrite fmul_comm. apply fmul_ordinary; assumption.
Qed.

(** From the tangent to the pixels: the two products keep the order. *)
Lemma scaled_mono (a b : float) :
  ordinary a = true -> ordinary b = true -> SFleb a b = true ->
  SFleb (fmul (fmul (distanceSI st) a) (scaleFactor st))
        (fmul (fmul (distanceSI st) b) (scaleFactor st)) = true.
Proof.
  intros Ha Hb Hle.
  rewrite !(fmul_comm (distanceSI st)).
  apply fmul_mono; [| |exact scale_positive|].
  - apply fmul_ordinary; assumption.
  - apply fmul_ordinary; assumption.
  - apply fmul_mono; assumption.
Qed.

Lemma pixelRadius_mono (m m' : Z) :
  ordinary (Math_tan (theta st m)) = true ->
  ordinary (Math_tan (theta st m')) = true ->
  SFleb (Math_tan (theta st m)) (Math_tan (theta st m')) = true ->
  SFleb (pixelRadius st m) (pixelRadius st m') = true.
Proof. apply scaled_mono. Qed.

Hypothesis tangents_ordered :
  forall m m' : Z,
    1 <= m <= m' -> m' <= maxOrder -> skipped st m' = false ->
    ordinary (Math_tan (theta st m)) = true /\
    ordinary (Math_tan (theta st m')) = true /\
    SFleb (Math_tan (theta st m)) (Math_tan (theta st m')) = true.

Lemma binary64_order (m m' : Z) :
  1 <= m <= m' -> m' <= maxOrder -> skipped st m' = false ->
  skipped st m = false /\
  SFleb (pixelRadius st m) (pixelRadius st m') = true.
Proof.
  intros Hm Hm' Hskip'. split.
  - apply (skipped_below m m'); assumption.
  - destruct (tangents_ordered m m' Hm Hm' Hskip') as (Ht & Ht' & Hle).
    apply pixelRadius_mono; assumption.
Qed.

Lemma binary64_sorted (canvas : Canvas float) :
  StronglySorted (fun a b => SFleb (ringRadius a) (ringRadius b) = true)
                 (computeRings st canvas).
Proof.
  apply StronglySorted_weaken with (R1 := fun a b => order a < order b).
  - apply (rings_sorted st canvas), orders_sorted.
  - intros a b Ha Hb Hlt.
    apply rings_in in Ha as (Hina & Hra & _ & _).
    apply rings_in in Hb as (Hinb & Hrb & Hskipb & _).
    rewrite range_1_maxOrder in Hina, Hinb.
    assert (H1 : 1 <= order a) by (cbn [In] in Hina; lia).
    assert (H10 : order b <= maxOrder) by (cbn [In] in Hinb; unfold maxOrder; lia).
    rewrite Hra, Hrb.
    apply binary64_order; [lia|exact H10|exact Hskipb].
Qed.

End OrderInBinary64.

(** ** The worked example in binary64 *)

Section SampleInBinary64.
Import Floats.SpecFloat IEEE754.
Context {host : Host}.

Let st : State float := Sample.lycopodium_red.

(** The pixel radius that the tangent [a] gives. *)
Let scaled (a : float) : float :=
  fmul (fmul (distanceSI st) a) (scaleFactor st).

(** The upper end of [tangent_in_range]. *)
Let above (m : Z) : float :=
  mul (sinTheta st m) (add (int 1) (mul (sinTheta st m) (sinTheta st m))).

Lemma sample64_sine (m : Z) :
  1 <= m <= maxOrder ->
  ordinary (sinTheta st m) = true /\ ordinary (above m) = true /\
  skipped st m = false.
Proof.
  intros Hm. apply orders_cases in Hm.
  repeat (destruct Hm as [->|Hm];
          [split; [|split]; vm_compute; reflexivity|]).
  subst m. split; [|split]; vm_compute; reflexivity.
Qed.

Lemma sample64_fits (r : float) : fits Sample.canvas r = SFleb r (int 200).
Proof.
  unfold fits.
  replace (div (Math_min (int (width Sample.canvas)) (int (height Sample.canvas)))
               (int 2))
    with (int 200) by (vm_compute; reflexivity).
  reflexivity.
Qed.

(** Orders 1 and 2 are within the canvas already at the upper end of the
    range of the tangent, orders 3 to 10 are beyond it already at the
    lower end. *)
Lemma sample64_ends (m : Z) :
  1 <= m <= maxOrder ->
  if m <=? 2 then SFleb (scaled (above m)) (int 200) = true
  else SFleb (scaled (sinTheta st m)) (int 200) = false.
Proof.
  intros Hm. apply orders_cases in Hm.
  repeat (destruct Hm as [->|Hm]; [vm_compute; reflexivity|]).
  subst m. vm_compute. reflexivity.
Qed.

Hypothesis tangents :
  forall m : Z,
    1 <= m <= maxOrder ->
    ordinary (Math_tan (theta st m)) = true /\ tangent_in_range st m = true.

Lemma sample64_between (m : Z) :
  1 <= m <= maxOrder ->
  ordinary (pixelRadius st m) = true /\
  SFleb (scaled (sinTheta st m)) (pixelRadius st m) = true /\
  SFleb (pixelRadius st m) (scaled (above m)) = true.
Proof.
  intros Hm.
  destruct (tangents m Hm) as [Hvalid Hrange].
  apply andb_true_iff in Hrange as [Hlow Hhigh].
  destruct (sample64_sine m Hm) as (Hsine & Habove & _).
  assert (HD : positive_finite (distanceSI st) = true) by (vm_compute; reflexivity).
  assert (HS : positive_finite (scaleFactor st) = true) by (vm_compute; reflexivity).
  split; [|split].
  - apply (scaled_ordinary st HD HS). exact Hvalid.
  - apply (scaled_mono st HD HS); assumption.
  - apply (scaled_mono st HD HS); assumption.
Qed.

Lemma sample64_ring (m : Z) :
  1 <= m <= maxOrder ->
  List.map order (ringOf st Sample.canvas m) = if m <=? 2 then [m] else [].
Proof.
  intros Hm.
  destruct (sample64_sine m Hm) as (Hsine & Habove & Hskip).
  destruct (sample64_between m Hm) as (Hpixel & Hlow & Hhigh).
  pose proof (sample64_ends m Hm) as Hends.
  assert (H200 : ordinary (int 200) = true) by (vm_compute; reflexivity).
  assert (HD : positive_finite (distanceSI st) = true) by (vm_compute; reflexivity).
  assert (HS : positive_finite (scaleFactor st) = true) by (vm_compute; reflexivity).
  unfold ringOf. rewrite Hskip, sample64_fits.
  destruct (m <=? 2).
  - replace (SFleb (pixelRadius st m) (int 200)) with true; [reflexivity|].
    symmetry. apply leb_trans with (b := scaled (above m)).
    + exact Hpixel.
    + apply (scaled_ordinary st HD HS). exact Habove.
    + exact H200.
    + exact Hhigh.
    + exact Hends.
  - destruct (SFleb (pixelRadius st m) (int 200)) eqn:Hfits; [exfalso|reflexivity].
    assert (Htrue : SFleb (scaled (sinTheta st m)) (int 200) = true).
    { apply leb_trans with (b := pixelRadius st m).
      - apply (scaled_ordinary st HD HS). exact Hsine.
      - exact Hpixel.
      - exact H200.
      - exact Hlow.
      - exact Hfits. }
    rewrite Htrue in Hends. discriminate.
Qed.

(** On every host that keeps the tangents in range: the first ring at
    86.6 to 86.8 pixels, and rings for the orders 1 and 2. *)
Lemma sample_in_binary64 :
  SFleb (lit 866 (-1)) (pixelRadius st 1) = true /\
  SFleb (pixelRadius st 1) (lit 868 (-1)) = true /\
  List.map order (computeRings st Sample.canvas) = [1; 2].
Proof.
  assert (H1 : 1 <= 1 <= maxOrder) by (unfold maxOrder; lia).
  destruct (sample64_sine 1 H1) as (Hsine & Habove & _).
  destruct (sample64_between 1 H1) as (Hpixel & Hlow & Hhigh).
  assert (HD : positive_finite (distanceSI st) = true) by (vm_compute; reflexivity).
  assert (HS : positive_finite (scaleFactor st) = true) by (vm_compute; reflexivity).
  split; [|split].
  - apply leb_trans with (b := scaled (sinTheta st 1)).
    + vm_compute. reflexivity.
    + apply (scaled_ordinary st HD HS). exact Hsine.
    + exact Hpixel.
    + vm_compute. reflexivity.
    + exact Hlow.
  - apply leb_trans with (b := scaled (above 1)).
    + exact Hpixel.
    + apply (scaled_ordinary st HD HS). exact Habove.
    + vm_compute. reflexivity.
    + exact Hhigh.
    + vm_compute. reflexivity.
  - unfold computeRings. rewrite range_1_maxOrder.
    rewrite flat_map_concat_map, concat_map, map_map.
    cbn [List.map].
    rewrite !sample64_ring by (unfold maxOrder; lia). reflexivity.
Qed.

End SampleInBinary64.

(** ** The worked example *)

Section WorkedExample.
Import Exact.
Local Open Scope R_scope.

#[local] Existing Instance Exact.number.

Let st : State xreal := Sample.lycopodium_red.
Let canvas : Canvas xreal := Sample.canvas.

Lemma sample_sine (m : Z) :
  IZR m * (650 / 1000000000) / (30 / 1000000) = IZR m * (13 / 600).
Proof. field. Qed.

Lemma sample_fields (m : Z) :
  let x := IZR m * (13 / 600) in
  sinTheta st m = XFin x /\
  (skipped st m = false <-> Rabs x < 1) /\
  (Rabs x < 1 ->
   theta st m = XFin (asin x) /\
   radius st m = XFin (100 / 100 * tan (asin x)) /\
   pixelRadius st m = XFin (100 / 100 * tan (asin x) * (4000 * 1))).
Proof.
  intros x. unfold x. rewrite <- sample_sine.
  apply (finite_fields st 650 100 30 1 m).
  - unfold parseFloat. replace (Parse.decimal (wavelength st)) with (DNum false 650 0) by reflexivity.
    cbn [ofDecimal Exact.number Exact.of_decimal]. f_equal.
    change (Z.of_N 650) with 650%Z. simpl powerRZ. lra.
  - unfold parseFloat. replace (Parse.decimal (distance st)) with (DNum false 100 0) by reflexivity.
    cbn [ofDecimal Exact.number Exact.of_decimal]. f_equal.
    change (Z.of_N 100) with 100%Z. simpl powerRZ. lra.
  - unfold parseFloat. replace (Parse.decimal (particleSize st)) with (DNum false 30 0) by reflexivity.
    cbn [ofDecimal Exact.number Exact.of_decimal]. f_equal.
    change (Z.of_N 30) with 30%Z. simpl powerRZ. lra.
  - change (zoom st) with (int (H := Exact.number) 1). apply int_exact.
  - lra.
Qed.

Lemma sample_order_range (m : Z) :
  (1 <= m <= 10)%Z -> 1 <= IZR m <= 10.
Proof. intros [Hlo Hhi]. split; apply IZR_le; assumption. Qed.

Lemma sample_half_min :
  div (Math_min (int (width canvas)) (int (height canvas))) (int 2) = XFin 200.
Proof.
  change (width canvas) with 800%Z. change (height canvas) with 400%Z.
  rewrite !int_exact. cbn [div Math_min Exact.number xmin xdiv xleb].
  destruct (Rle_dec 800 400); [lra|].
  cbn [xdiv]. rewrite is_zero_false by lra. f_equal. lra.
Qed.

Lemma sample_skipped (m : Z) : (1 <= m <= 10)%Z -> skipped st m = false.
Proof.
  intros Hm. apply sample_order_range in Hm.
  apply (proj1 (proj2 (sample_fields m))).
  apply Rabs_def1; lra.
Qed.

(** Pixel radius of order [m] in the example, between two polynomials
    in [x = 13 m / 600]. *)
Lemma sample_pixelRadius (m : Z) :
  (1 <= m <= 10)%Z ->
  exists p,
    pixelRadius st m = XFin p /\
    let x := IZR m * (13 / 600) in
    4000 * (x * (1 + x * x / 2)) <= p <= 4000 * (x * (1 + x * x)).
Proof.
  intros Hm. apply sample_order_range in Hm.
  destruct (sample_fields m) as (_ & _ & Hfields).
  destruct Hfields as (_ & _ & Hpixel); [apply Rabs_def1; lra|].
  eexists. split; [exact Hpixel|]. intros x. fold x.
  assert (Hx : 0 <= x <= 13 / 60) by (unfold x; lra).
  pose proof (tan_asin_between x ltac:(lra) ltac:(nra)) as [Hlow Hhigh].
  lra.
Qed.

Lemma sample_ring (m : Z) :
  (1 <= m <= 10)%Z ->
  List.map order (ringOf st canvas m) = if (m <=? 2)%Z then [m] else [].
Proof.
  intros Hm. unfold ringOf. rewrite (sample_skipped m Hm).
  destruct (sample_pixelRadius m Hm) as [p [Hpixel Hp]]. cbv zeta in Hp.
  unfold fits. rewrite Hpixel, sample_half_min.
  pose proof (sample_order_range m Hm) as HR.
  cbn [leb Exact.number].
  destruct (Z.leb_spec m 2) as [Hsmall|Hlarge].
  - assert (HR2 : IZR m <= 2) by (apply IZR_le; exact Hsmall).
    replace (xleb (XFin p) (XFin 200)) with true; [reflexivity|].
    symmetry. apply xleb_fin.
    assert (Hx : 0 <= IZR m * (13 / 600) <= 13 / 300) by lra.
    nra.
  - assert (HR3 : 3 <= IZR m) by (apply IZR_le; lia).
    replace (xleb (XFin p) (XFin 200)) with false; [reflexivity|].
    symmetry. apply xleb_fin_false.
    assert (Hx : 13 / 200 <= IZR m * (13 / 600)) by lra.
    nra.
Qed.


End WorkedExample.

(** ** Order and radius *)

Section Monotone.
Import Exact.
Local Open Scope R_scope.

#[local] Existing Instance Exact.number.

(** With wavelength, distance, particle size and zoom finite and positive,
    in exact arithmetic: if an order [m'] has an angle, so has every order
    [m] from 1 to [m'], and the pixel radius of [m] is at most that of
    [m']; hence the rings of [computeRings] come with non-decreasing pixel
    radius. *)
Lemma exact_order
    (st : State xreal) (canvas : Canvas xreal) (w d p z : R) :
  parseFloat (wavelength st) = XFin w ->
  parseFloat (distance st) = XFin d ->
  parseFloat (particleSize st) = XFin p ->
  zoom st = XFin z ->
  0 < w -> 0 < d -> 0 < p -> 0 < z ->
  (forall m m' : Z,
      (1 <= m <= m')%Z ->
      skipped st m' = false ->
      skipped st m = false /\
      exists r r',
        pixelRadius st m = XFin r /\ pixelRadius st m' = XFin r' /\ r <= r') /\
  StronglySorted (fun a b => leb (ringRadius a) (ringRadius b) = true)
                 (computeRings st canvas).
Proof.
  intros Hw Hd Hp Hz Hw0 Hd0 Hp0 Hz0.
  assert (Hpair : forall m m' : Z,
             (1 <= m <= m')%Z ->
             skipped st m' = false ->
             skipped st m = false /\
             exists r r',
               pixelRadius st m = XFin r /\ pixelRadius st m' = XFin r' /\ r <= r').
  { intros m m' [Hm Hmm'] Hskip'.
    destruct (finite_fields st w d p z m Hw Hd Hp Hz ltac:(lra))
      as (_ & Hskip_m & Hfields_m).
    destruct (finite_fields st w d p z m' Hw Hd Hp Hz ltac:(lra))
      as (_ & Hskip_m' & Hfields_m').
    cbv zeta in *.
    set (c := w / 1000000000 / (p / 1000000)).
    assert (Hc : 0 < c).
    { unfold c. apply Rdiv_lt_0_compat; lra. }
    assert (Hx : forall k, IZR k * (w / 1000000000) / (p / 1000000) = IZR k * c).
    { intros k. unfold c. field. lra. }
    rewrite Hx in *.
    assert (H1m : 1 <= IZR m) by (apply IZR_le; exact Hm).
    assert (Hmm : IZR m <= IZR m') by (apply IZR_le; exact Hmm').
    apply Hskip_m' in Hskip'. apply Rabs_def2 in Hskip' as [Hlt' _].
    assert (Hxm : 0 <= IZR m * c <= IZR m' * c) by nra.
    assert (Habs : Rabs (IZR m * c) < 1) by (apply Rabs_def1; lra).
    assert (Habs' : Rabs (IZR m' * c) < 1) by (apply Rabs_def1; nra).
    split; [apply Hskip_m; exact Habs|].
    destruct (Hfields_m Habs) as (_ & _ & Hpixel).
    destruct (Hfields_m' Habs') as (_ & _ & Hpixel').
    do 2 eexists. split; [exact Hpixel|]. split; [exact Hpixel'|].
    pose proof (tan_asin_monotone (IZR m * c) (IZR m' * c)
                  ltac:(lra) ltac:(lra) Hlt') as Hmono.
    apply Rmult_le_compat_r; [nra|].
    apply Rmult_le_compat_l; [lra|exact Hmono]. }
  split; [exact Hpair|].
  apply StronglySorted_weaken with (R1 := fun a b => (order a < order b)%Z).
  - apply (rings_sorted st canvas), orders_sorted.
  - intros a b Ha Hb Hlt.
    apply rings_in in Ha as (Hina & Hra & _ & _).
    apply rings_in in Hb as (_ & Hrb & Hskipb & _).
    assert (H1 : (1 <= order a)%Z).
    { rewrite range_1_maxOrder in Hina. simpl in Hina.
      repeat (destruct Hina as [<-|Hina]; [lia|]). destruct Hina. }
    destruct (Hpair (order a) (order b) ltac:(lia) Hskipb)
      as (_ & r & r' & Hr & Hr' & Hle).
    rewrite Hra, Hrb, Hr, Hr'. apply xleb_fin. exact Hle.
Qed.

End Monotone.

Section Order.
Import Floats.SpecFloat.

#[local] Existing Instance Exact.number.
#[local] Existing Instance IEEE754.number.

(** C6.  The pixel radius does not decrease with the order, over the
    orders that have an angle.

    In exact arithmetic, with wavelength, distance, particle size and zoom
    finite and positive: if an order [m'] has an angle, so has every order
    [m] from 1 to [m'], and the pixel radius of [m] is at most that of
    [m']; the rings of [computeRings] come with non-decreasing pixel
    radius.

    In binary64, with the three lengths in metres and the scale factor
    finite and positive, and on every host whose tangents of the angles
    of the orders are ordered as the orders are: the same, for the orders
    1 to [maxOrder] of the loop. *)
Theorem C6_pixel_radius_does_not_decrease_with_order :
  (forall (st : State Exact.xreal) (canvas : Canvas Exact.xreal) (w d p z : R),
      parseFloat (wavelength st) = Exact.XFin w ->
      parseFloat (distance st) = Exact.XFin d ->
      parseFloat (particleSize st) = Exact.XFin p ->
      zoom st = Exact.XFin z ->
      (0 < w)%R -> (0 < d)%R -> (0 < p)%R -> (0 < z)%R ->
      (forall m m' : Z,
          1 <= m <= m' ->
          skipped st m' = false ->
          skipped st m = false /\
          exists r r',
            pixelRadius st m = Exact.XFin r /\
            pixelRadius st m' = Exact.XFin r' /\ (r <= r')%R) /\
      StronglySorted (fun a b => leb (ringRadius a) (ringRadius b) = true)
                     (computeRings st canvas)) /\
  (forall (host : IEEE754.Host)
          (st : State IEEE754.float) (canvas : Canvas IEEE754.float),
      IEEE754.positive_finite (wavelengthSI st) = true ->
      IEEE754.positive_finite (particleSizeSI st) = true ->
      IEEE754.positive_finite (distanceSI st) = true ->
      IEEE754.positive_finite (scaleFactor st) = true ->
      (forall m m' : Z,
          1 <= m <= m' -> m' <= maxOrder -> skipped st m' = false ->
          IEEE754.ordinary (Math_tan (theta st m)) = true /\
          IEEE754.ordinary (Math_tan (theta st m')) = true /\
          leb (Math_tan (theta st m)) (Math_tan (theta st m')) = true) ->
      (forall m m' : Z,
          1 <= m <= m' -> m' <= maxOrder -> skipped st m' = false ->
          skipped st m = false /\
          leb (pixelRadius st m) (pixelRadius st m') = true) /\
      StronglySorted (fun a b => leb (ringRadius a) (ringRadius b) = true)
                     (computeRings st canvas)).
Proof.
  split.
  - intros st canvas w d p z. apply exact_order.
  - intros host st canvas HW HP HD HS Htan. split.
    + intros m m'. apply binary64_order; assumption.
    + apply binary64_sorted; assumption.
Qed.

End Order.


(** ** Zoom *)

Section ZoomExact.
Import Exact.
Local Open Scope R_scope.

#[local] Existing Instance Exact.number.

Lemma negative_scaled (x k : R) : 0 < k -> negative (x * k) = negative x.
Proof.
  intros Hk. unfold negative.
  destruct (Rlt_dec (x * k) 0), (Rlt_dec x 0); try reflexivity; exfalso; nra.
Qed.

Lemma is_zero_scaled (x k : R) : 0 < k -> is_zero (x * k) = is_zero x.
Proof.
  intros Hk. unfold is_zero.
  destruct (Req_dec_T (x * k) 0), (Req_dec_T x 0); try reflexivity; exfalso; nra.
Qed.

Lemma negative_positive (k : R) : 0 < k -> negative k = false.
Proof. intros Hk. unfold negative. destruct (Rlt_dec k 0); [lra|reflexivity]. Qed.

(** Scaling the second factor of a product by [k > 0] scales the
    product. *)
Lemma xmul_scaled (a b : xreal) (k : R) :
  0 < k -> xmul a (xmul b (XFin k)) = xmul (XFin k) (xmul a b).
Proof.
  intros Hk.
  assert (Hk0 : is_zero k = false) by (apply is_zero_false; lra).
  pose proof (negative_positive k Hk) as Hkn.
  destruct a as [|sa|x], b as [|sb|y]; cbn [xmul];
    rewrite ?Hk0, ?Hkn, ?xorb_false_r, ?xorb_false_l; try reflexivity.
  - rewrite is_zero_scaled, negative_scaled by exact Hk.
    destruct (is_zero y); reflexivity.
  - destruct (is_zero x); reflexivity.
  - f_equal. ring.
Qed.

Lemma xmul_comm (a b : xreal) : xmul a b = xmul b a.
Proof.
  destruct a as [|sa|x], b as [|sb|y]; cbn [xmul]; try reflexivity.
  - rewrite xorb_comm. reflexivity.
  - rewrite xorb_comm. reflexivity.
  - rewrite xorb_comm. reflexivity.
  - f_equal. ring.
Qed.

Lemma xmul_scaled_twice (a b c : xreal) (k : R) :
  0 < k ->
  xmul a (xmul b (xmul c (XFin k))) = xmul (XFin k) (xmul a (xmul b c)).
Proof.
  intros Hk. rewrite (xmul_scaled b c k Hk).
  rewrite (xmul_comm (XFin k) (xmul b c)).
  apply xmul_scaled. exact Hk.
Qed.

End ZoomExact.

(** ** The zoom in binary64 *)

Section ZoomInBinary64.
Import Floats.SpecFloat IEEE754.
Context {host : Host}.

Lemma unit_roundoff_small :
  (0 < unit_roundoff /\
   (1 + unit_roundoff) ^ 2 <= (1 + 6 * unit_roundoff) * (1 - unit_roundoff) ^ 3 /\
   (1 - 6 * unit_roundoff) * (1 + unit_roundoff) ^ 3 <= (1 - unit_roundoff) ^ 2)%R.
Proof. unfold unit_roundoff. split; [|split]; lra. Qed.

(** Five roundings lie between the new pixel radius and [k] times the
    old one: that of the new zoom, of the two scale factors and of the
    two pixel radii.  Where all five products are normal, each is within
    half a unit in the last place of the exact product. *)
Lemma zoom_close (r z k : float) :
  let z' := fmul z k in
  let s := fmul (int 4000) z in
  let s' := fmul (int 4000) z' in
  positive_finite r = true -> positive_finite z = true ->
  positive_finite k = true ->
  normal z' = true -> normal s = true -> normal s' = true ->
  normal (fmul r s) = true -> normal (fmul r s') = true ->
  (Rabs (value (fmul r s') - value k * value (fmul r s))
   <= 3 / 2 ^ 52 * (value k * value (fmul r s)))%R.
Proof.
  intros z' s s' Hr Hz Hk Hz' Hs Hs' HP HP'.
  set (c := int 4000) in *.
  assert (Hc : positive_finite c = true) by (vm_compute; reflexivity).
  pose proof (fmul_close z k Hz Hk Hz') as [Z1 Z2].
  pose proof (fmul_close c z Hc Hz Hs) as [S1 S2].
  pose proof (fmul_close c z' Hc (normal_positive_finite _ Hz') Hs') as [T1 T2].
  pose proof (fmul_close r s Hr (normal_positive_finite _ Hs) HP) as [P1 P2].
  pose proof (fmul_close r s' Hr (normal_positive_finite _ Hs') HP') as [Q1 Q2].
  fold z' in Z1, Z2, T1, T2. fold s in S1, S2, P1, P2. fold s' in T1, T2, Q1, Q2.
  pose proof (value_positive _ Hr) as Hr0.
  pose proof (value_positive _ Hz) as Hz0.
  pose proof (value_positive _ Hk) as Hk0.
  pose proof (value_positive _ Hc) as Hc0.
  pose proof (value_positive _ (normal_positive_finite _ Hz')) as Hz'0.
  pose proof (value_positive _ (normal_positive_finite _ Hs)) as Hs0.
  pose proof (value_positive _ (normal_positive_finite _ Hs')) as Hs'0.
  pose proof (value_positive _ (normal_positive_finite _ HP)) as HP0.
  pose proof (value_positive _ (normal_positive_finite _ HP')) as HP'0.
  set (vr := value r) in *. set (vz := value z) in *. set (vk := value k) in *.
  set (vc := value c) in *. set (vz' := value z') in *.
  set (vs := value s) in *. set (vs' := value s') in *.
  set (p := value (fmul r s)) in *. set (p' := value (fmul r s')) in *.
  destruct unit_roundoff_small as (Hu & Hup & Hdown).
  assert (Hu1 : (unit_roundoff < 1)%R) by (unfold unit_roundoff; lra).
  set (a := (1 - unit_roundoff)%R) in *. set (b := (1 + unit_roundoff)%R) in *.
  assert (Ha : (0 < a)%R) by (unfold a; lra).
  assert (Hb : (0 < b)%R) by (unfold b; lra).
  (* upper chain *)
  assert (U1 : (a * a * p' <= vr * (vc * vz'))%R).
  { apply Rle_trans with (a * (vr * vs'))%R.
    - rewrite Rmult_assoc. apply Rmult_le_compat_l; lra.
    - replace (a * (vr * vs'))%R with (vr * (a * vs'))%R by ring.
      apply Rmult_le_compat_l; lra. }
  assert (U2 : (a * a * a * p' <= vr * vc * (vz * vk))%R).
  { apply Rle_trans with (a * (vr * (vc * vz')))%R.
    - rewrite !Rmult_assoc. apply Rmult_le_compat_l; [lra|].
      rewrite <- Rmult_assoc. exact U1.
    - replace (a * (vr * (vc * vz')))%R with (vr * vc * (a * vz'))%R by ring.
      apply Rmult_le_compat_l; [|lra].
      apply Rlt_le, Rmult_lt_0_compat; lra. }
  assert (U3 : (a * a * a * p' <= b * b * (vk * p))%R).
  { apply Rle_trans with (vr * vc * (vz * vk))%R; [exact U2|].
    apply Rle_trans with (vr * vk * (b * vs))%R.
    - replace (vr * vc * (vz * vk))%R with (vr * vk * (vc * vz))%R by ring.
      apply Rmult_le_compat_l; [|lra].
      apply Rlt_le, Rmult_lt_0_compat; lra.
    - replace (vr * vk * (b * vs))%R with (vk * b * (vr * vs))%R by ring.
      replace (b * b * (vk * p))%R with (vk * b * (b * p))%R by ring.
      apply Rmult_le_compat_l; [|lra].
      apply Rlt_le, Rmult_lt_0_compat; lra. }
  (* lower chain *)
  assert (L1 : (vr * (vc * vz') <= b * b * p')%R).
  { apply Rle_trans with (vr * (b * vs'))%R.
    - apply Rmult_le_compat_l; lra.
    - replace (vr * (b * vs'))%R with (b * (vr * vs'))%R by ring.
      rewrite Rmult_assoc. apply Rmult_le_compat_l; lra. }
  assert (L2 : (vr * vc * (vz * vk) <= b * b * b * p')%R).
  { apply Rle_trans with (vr * vc * (b * vz'))%R.
    - apply Rmult_le_compat_l; [|lra].
      apply Rlt_le, Rmult_lt_0_compat; lra.
    - replace (vr * vc * (b * vz'))%R with (b * (vr * (vc * vz')))%R by ring.
      replace (b * b * b * p')%R with (b * (b * b * p'))%R by ring.
      apply Rmult_le_compat_l; lra. }
  assert (L3 : (a * a * (vk * p) <= b * b * b * p')%R).
  { apply Rle_trans with (vr * vc * (vz * vk))%R; [|exact L2].
    apply Rle_trans with (vr * vk * (a * vs))%R.
    - replace (a * a * (vk * p))%R with (vk * a * (a * p))%R by ring.
      replace (vr * vk * (a * vs))%R with (vk * a * (vr * vs))%R by ring.
      apply Rmult_le_compat_l; [|lra].
      apply Rlt_le, Rmult_lt_0_compat; lra.
    - replace (vr * vc * (vz * vk))%R with (vr * vk * (vc * vz))%R by ring.
      apply Rmult_le_compat_l; [|lra].
      apply Rlt_le, Rmult_lt_0_compat; lra. }
  set (x := (vk * p)%R) in *.
  assert (Hx : (0 < x)%R) by (apply Rmult_lt_0_compat; assumption).
  assert (Ha3 : (0 < a * a * a)%R) by (repeat apply Rmult_lt_0_compat; assumption).
  assert (Hb3 : (0 < b * b * b)%R) by (repeat apply Rmult_lt_0_compat; assumption).
  assert (Hupper : (p' <= (1 + 6 * unit_roundoff) * x)%R).
  { apply Rmult_le_reg_l with (a * a * a)%R; [exact Ha3|].
    apply Rle_trans with (b * b * x)%R; [exact U3|].
    replace (a * a * a * ((1 + 6 * unit_roundoff) * x))%R
      with (((1 + 6 * unit_roundoff) * a ^ 3) * x)%R by ring.
    replace (b * b * x)%R with (b ^ 2 * x)%R by ring.
    apply Rmult_le_compat_r; [lra|exact Hup]. }
  assert (Hlower : ((1 - 6 * unit_roundoff) * x <= p')%R).
  { apply Rmult_le_reg_l with (b * b * b)%R; [exact Hb3|].
    apply Rle_trans with (a * a * x)%R; [|exact L3].
    replace (b * b * b * ((1 - 6 * unit_roundoff) * x))%R
      with (((1 - 6 * unit_roundoff) * b ^ 3) * x)%R by ring.
    replace (a * a * x)%R with (a ^ 2 * x)%R by ring.
    apply Rmult_le_compat_r; [lra|exact Hdown]. }
  assert (H6 : (6 * unit_roundoff = 3 / 2 ^ 52)%R) by (unfold unit_roundoff; field).
  rewrite <- H6. apply Rabs_le. split; lra.
Qed.

End ZoomInBinary64.

(** C5, amended.  In exact arithmetic, multiplying the zoom by [k > 0]
    leaves the radius in metres of every order as it was and multiplies
    its pixel radius by exactly [k], for every state.  In binary64 the
    new zoom is the rounded product of the zoom and [k]; the radius in
    metres is as it was, and the new pixel radius is the rounded product
    of that radius and the rounded product of 4000 and the new zoom.
    For a radius, a zoom and a factor that are finite and above zero,
    and as long as the new zoom, the two scale factors and the two pixel
    radii are normal numbers, the new pixel radius is within 3 / 2^52 of
    [k] times the old one, relative to it. *)
Theorem C5_zoom_scales_pixel_radius_up_to_rounding
    (st : State Exact.xreal) (k : R) (m : Z) :
  (0 < k)%R ->
  let exact := Exact.number in
  let st' := setZoomLevel [mul (zoom st) (Exact.XFin k)] st in
  radius st' m = radius st m /\
  pixelRadius st' m = mul (Exact.XFin k) (pixelRadius st m) /\
  (forall (host : IEEE754.Host) (st64 : State IEEE754.float)
          (k64 : IEEE754.float),
      let ieee := IEEE754.number (host := host) in
      let st64' := setZoomLevel [mul (zoom st64) k64] st64 in
      radius st64' m = radius st64 m /\
      pixelRadius st64' m
      = mul (radius st64 m) (mul (int 4000) (mul (zoom st64) k64)) /\
      (IEEE754.positive_finite (radius st64 m) = true ->
       IEEE754.positive_finite (zoom st64) = true ->
       IEEE754.positive_finite k64 = true ->
       IEEE754.normal (zoom st64') = true ->
       IEEE754.normal (scaleFactor st64) = true ->
       IEEE754.normal (scaleFactor st64') = true ->
       IEEE754.normal (pixelRadius st64 m) = true ->
       IEEE754.normal (pixelRadius st64' m) = true ->
       (Rabs (IEEE754.value (pixelRadius st64' m)
              - IEEE754.value k64 * IEEE754.value (pixelRadius st64 m))
        <= 3 / 2 ^ 52
           * (IEEE754.value k64 * IEEE754.value (pixelRadius st64 m)))%R)).
Proof.
  intros Hk exact st'. split; [reflexivity|]. split.
  - unfold pixelRadius, scaleFactor, baseScaleFactor.
    change (radius st' m) with (radius st m).
    change (zoom st') with (mul (zoom st) (Exact.XFin k)).
    cbn [mul Exact.number exact].
    apply xmul_scaled_twice. exact Hk.
  - intros host st64 k64 ieee st64'.
    split; [reflexivity|]. split; [reflexivity|].
    intros Hr Hz Hk64 Hz' Hs Hs' Hp Hp'.
    exact (zoom_close (radius st64 m) (zoom st64) k64
             Hr Hz Hk64 Hz' Hs Hs' Hp Hp').
Qed.

(** ** Counterexamples in binary64 *)

Section Binary64.
Import Floats.SpecFloat IEEE754.

(** Where the zoom overflows, the two sides differ on every host that
    maps zero to zero: with wavelength 0 and zoom 1e200 every pixel
    radius is 0, and after multiplying the zoom by 1e200 it is NaN. *)
Lemma zoom_overflow_breaks_scaling (host : Host) (m : Z) :
  asin (S754_zero false) = S754_zero false ->
  tan (S754_zero false) = S754_zero false ->
  1 <= m <= 10 ->
  let st := {| wavelength := "0"; distance := "100"; particleSize := "30";
               selectedMaterial := custom; zoomLevel := [lit 1 200] |} in
  let st' := setZoomLevel [mul (zoom st) (lit 1 200)] st in
  pixelRadius st m = S754_zero false /\
  mul (lit 1 200) (pixelRadius st m) = S754_zero false /\
  pixelRadius st' m = S754_nan.
Proof.
  intros Hasin Htan Hm st st'.
  assert (Hsin : sinTheta st m = S754_zero false).
  { assert (Hcases : m = 1 \/ m = 2 \/ m = 3 \/ m = 4 \/ m = 5 \/ m = 6 \/
                     m = 7 \/ m = 8 \/ m = 9 \/ m = 10) by lia.
    repeat (destruct Hcases as [->|Hcases]; [vm_compute; reflexivity|]).
    subst m. vm_compute. reflexivity. }
  assert (Hradius : radius st m = S754_zero false).
  { unfold radius, theta. rewrite Hsin.
    change (fmul (distanceSI st) (tan (asin (S754_zero false))) = S754_zero false).
    rewrite Hasin, Htan. vm_compute. reflexivity. }
  unfold pixelRadius.
  change (radius st' m) with (radius st m). rewrite Hradius.
  split; [|split]; vm_compute; reflexivity.
Qed.

(** C3, counterexample.  The distance field cleared, 650 nm and 30
    micrometres in the other two: the distance parses to NaN and radius
    and pixel radius of order 1 are NaN, but [sinTheta] is the number
    0.021666..., and [theta] on the reference host is a number as
    well. *)
Lemma C3_cleared_distance_leaves_the_sine_a_number :
  let ieee := Sample.ieee in
  let st := setDistance EmptyString (Sample.lycopodium_red (H := ieee)) in
  Parse.decimal (distance st) = DNaN /\
  sinTheta st 1 = S754_finite false 6244991483287089 (-58) /\
  sinTheta st 1 <> S754_nan /\
  theta st 1 <> S754_nan /\
  leb (lit 2166 (-5)) (theta st 1) && leb (theta st 1) (lit 2167 (-5)) = true /\
  radius st 1 = S754_nan /\
  pixelRadius st 1 = S754_nan.
Proof.
  intros ieee st.
  assert (Hsin : sinTheta st 1 = S754_finite false 6244991483287089 (-58))
    by (vm_compute; reflexivity).
  split; [reflexivity|]. split; [exact Hsin|].
  split; [rewrite Hsin; discriminate|].
  split; [vm_compute; discriminate|].
  split; [vm_compute; reflexivity|].
  split; vm_compute; reflexivity.
Qed.

(** C5, counterexample.  650 nm, 100 cm, 30 micrometres, zoom 0.7, on the
    reference host: order 1 is drawn before and after the zoom is
    multiplied by 3, but its new pixel radius is one unit in the last
    place below three times the old one.  The same happens for every
    radius in metres within eight units in the last place of the
    reference host's, so the difference does not hinge on how the host
    rounds the arcsine and the tangent. *)
Lemma C5_three_times_the_zoom_is_not_three_times_the_radius :
  let ieee := Sample.ieee in
  let st := setZoomLevel [lit 7 (-1)] (Sample.lycopodium_red (H := ieee)) in
  let k := int (H := ieee) 3 in
  let st' := setZoomLevel [mul (zoom st) k] st in
  In 1 (List.map order (computeRings st Sample.canvas)) /\
  In 1 (List.map order (computeRings st' Sample.canvas)) /\
  pixelRadius st' 1 = S754_finite false 6405059306404553 (-45) /\
  mul k (pixelRadius st 1) = S754_finite false 6405059306404554 (-45) /\
  pixelRadius st' 1 <> mul k (pixelRadius st 1) /\
  forallb (fun r => negb (SFeqb (fmul r (scaleFactor st'))
                                (fmul k (fmul r (scaleFactor st)))))
          (around (radius st 1) 8) = true.
Proof.
  intros ieee st k st'.
  assert (Hnew : pixelRadius st' 1 = S754_finite false 6405059306404553 (-45))
    by (vm_compute; reflexivity).
  assert (Hold : mul k (pixelRadius st 1) = S754_finite false 6405059306404554 (-45))
    by (vm_compute; reflexivity).
  split; [|split; [|split; [|split; [|split]]]].
  - vm_compute. tauto.
  - vm_compute. tauto.
  - exact Hnew.
  - exact Hold.
  - rewrite Hnew, Hold. discriminate.
  - vm_compute. reflexivity.
Qed.

(** The order of the radii in binary64 on the reference host: at zoom
    0.7 the worked example draws orders 1, 2 and 3, each ring strictly
    wider than the one before. *)
Lemma three_orders_increase_in_binary64 :
  let ieee := Sample.ieee in
  let st := setZoomLevel [lit 7 (-1)] (Sample.lycopodium_red (H := ieee)) in
  List.map order (computeRings st Sample.canvas) = [1; 2; 3] /\
  ltb (pixelRadius st 1) (pixelRadius st 2) = true /\
  ltb (pixelRadius st 2) (pixelRadius st 3) = true.
Proof.
  intros ieee st. split; [|split]; vm_compute; reflexivity.
Qed.

(** C7, counterexample.  The revision with zoom, on the 800 by 400
    canvas with the default parameters: [generatePattern] returns, and
    none of its calls writes the caption. *)
Lemma C7_revision_with_zoom_draws_no_caption :
  let ieee := Sample.ieee in
  let after := generatePattern (H := ieee) Sample.lycopodium_red Sample.world in
  threw after = false /\
  option_map (fun c => existsb Captioned.is_caption (bitmap c))
             (canvasRef (reached after)) = Some false.
Proof. vm_compute. split; reflexivity. Qed.

End Binary64.

(** ** Witnesses *)

Section Witnesses.
Import Exact.

#[local] Existing Instance Sample.ieee.
#[local] Existing Instance Exact.number.

(** C2, witness: with 0.5 micrometre particles in 650 nm light the first
    order has [sinTheta = 1.3]. *)
Lemma C2_skipped_witness :
  ~ In 1 (List.map order
            (computeRings (H := Sample.ieee) Sample.too_small Sample.canvas)).
Proof.
  exact (proj2 (C2_order_beyond_90_degrees_is_skipped (H := Sample.ieee)
                  Sample.too_small Sample.canvas 1
                  ltac:(unfold maxOrder; lia) ltac:(vm_compute; reflexivity))).
Defined.

(** C3, witness: the wavelength field cleared, on the reference host. *)
Lemma C3_cleared_wavelength_witness :
  computeRings (H := Sample.ieee) Sample.cleared Sample.canvas = [] /\
  generatePattern (H := Sample.ieee) Sample.cleared Sample.world
  = Returned (onCanvas Sample.world Sample.canvas ([] ++ emptyPattern Sample.canvas)).
Proof.
  exact (proj2 (proj2 (proj2 (proj2 (proj2
    (C3_malformed_input_draws_only_the_spot (host := IEEE754.Reference.host)
       Sample.cleared Sample.world Sample.canvas []
       eq_refl eq_refl (or_introl eq_refl) eq_refl eq_refl)))))).
Defined.

(** C5, witness: tripling the zoom of the worked example, in exact
    arithmetic and from zoom 0.7 on the reference host. *)
Lemma C5_tripled_zoom_witness :
  let st64 := setZoomLevel [lit (H := Sample.ieee) 7 (-1)]
                (Sample.lycopodium_red (H := Sample.ieee)) in
  let k64 := int (H := Sample.ieee) 3 in
  let st64' := setZoomLevel [mul (zoom st64) k64] st64 in
  pixelRadius
    (setZoomLevel [mul (zoom Sample.lycopodium_red) (XFin 3)] Sample.lycopodium_red) 1
  = mul (XFin 3) (pixelRadius (H := Exact.number) Sample.lycopodium_red 1) /\
  (Rabs (IEEE754.value (pixelRadius st64' 1)
         - IEEE754.value k64 * IEEE754.value (pixelRadius st64 1))
   <= 3 / 2 ^ 52 * (IEEE754.value k64 * IEEE754.value (pixelRadius st64 1)))%R.
Proof.
  intros st64 k64 st64'.
  pose proof (C5_zoom_scales_pixel_radius_up_to_rounding
                Sample.lycopodium_red 3 1 ltac:(lra)) as Hzoom.
  cbv zeta in Hzoom. destruct Hzoom as (_ & Hexact & Hbinary64).
  split; [exact Hexact|].
  destruct (Hbinary64 IEEE754.Reference.host st64 k64) as (_ & _ & Hclose).
  apply Hclose; vm_compute; reflexivity.
Defined.


(** C6, witness: the worked example. *)
Lemma C6_worked_example_witness :
  StronglySorted (fun a b => leb (ringRadius a) (ringRadius b) = true)
                 (computeRings (H := Exact.number)
                    Sample.lycopodium_red Sample.canvas) /\
  StronglySorted (fun a b => leb (ringRadius a) (ringRadius b) = true)
                 (computeRings (H := Sample.ieee)
                    (setZoomLevel [lit 7 (-1)] Sample.lycopodium_red)
                    Sample.canvas).
Proof.
  split.
  - exact (proj2
      (proj1 C6_pixel_radius_does_not_decrease_with_order
         Sample.lycopodium_red Sample.canvas
         (1 * IZR (Z.of_N 650) * powerRZ 10 0)%R
         (1 * IZR (Z.of_N 100) * powerRZ 10 0)%R
         (1 * IZR (Z.of_N 30) * powerRZ 10 0)%R
         (1 * IZR (Z.of_N (Z.abs_N 1)) * powerRZ 10 0)%R
         eq_refl eq_refl eq_refl eq_refl
         ltac:(simpl; lra) ltac:(simpl; lra) ltac:(simpl; lra) ltac:(simpl; lra))).
  - refine (proj2
      (proj2 C6_pixel_radius_does_not_decrease_with_order
         IEEE754.Reference.host
         (setZoomLevel [lit 7 (-1)] Sample.lycopodium_red) Sample.canvas
         ltac:(vm_compute; reflexivity) ltac:(vm_compute; reflexivity)
         ltac:(vm_compute; reflexivity) ltac:(vm_compute; reflexivity) _)).
    intros m m' Hm Hm' _.
    assert (Hc : (m = 1 \/ m = 2 \/ m = 3 \/ m = 4 \/ m = 5 \/ m = 6 \/
                  m = 7 \/ m = 8 \/ m = 9 \/ m = 10)%Z)
      by (unfold maxOrder in Hm'; lia).
    assert (Hc' : (m' = 1 \/ m' = 2 \/ m' = 3 \/ m' = 4 \/ m' = 5 \/ m' = 6 \/
                   m' = 7 \/ m' = 8 \/ m' = 9 \/ m' = 10)%Z)
      by (unfold maxOrder in Hm'; lia).
    set (t := fun k : Z =>
                Math_tan (Number := Sample.ieee)
                  (theta (H := Sample.ieee)
                     (setZoomLevel [lit 7 (-1)] Sample.lycopodium_red) k)).
    change (IEEE754.ordinary (t m) = true /\ IEEE754.ordinary (t m') = true /\
            leb (Number := Sample.ieee) (t m) (t m') = true).
    assert (E1 : t 1%Z = ltac:(let v := eval vm_compute in (t 1%Z) in exact v))
      by (vm_compute; reflexivity).
    assert (E2 : t 2%Z = ltac:(let v := eval vm_compute in (t 2%Z) in exact v))
      by (vm_compute; reflexivity).
    assert (E3 : t 3%Z = ltac:(let v := eval vm_compute in (t 3%Z) in exact v))
      by (vm_compute; reflexivity).
    assert (E4 : t 4%Z = ltac:(let v := eval vm_compute in (t 4%Z) in exact v))
      by (vm_compute; reflexivity).
    assert (E5 : t 5%Z = ltac:(let v := eval vm_compute in (t 5%Z) in exact v))
      by (vm_compute; reflexivity).
    assert (E6 : t 6%Z = ltac:(let v := eval vm_compute in (t 6%Z) in exact v))
      by (vm_compute; reflexivity).
    assert (E7 : t 7%Z = ltac:(let v := eval vm_compute in (t 7%Z) in exact v))
      by (vm_compute; reflexivity).
    assert (E8 : t 8%Z = ltac:(let v := eval vm_compute in (t 8%Z) in exact v))
      by (vm_compute; reflexivity).
    assert (E9 : t 9%Z = ltac:(let v := eval vm_compute in (t 9%Z) in exact v))
      by (vm_compute; reflexivity).
    assert (E10 : t 10%Z = ltac:(let v := eval vm_compute in (t 10%Z) in exact v))
      by (vm_compute; reflexivity).
    clearbody t.
    repeat (destruct Hc as [->|Hc];
            [repeat (destruct Hc' as [->|Hc'];
                     [first [lia
                            | rewrite ?E1, ?E2, ?E3, ?E4, ?E5, ?E6, ?E7, ?E8, ?E9, ?E10;
                              split; [|split]; vm_compute; reflexivity]|]);
             subst m';
             first [lia
                   | rewrite ?E1, ?E2, ?E3, ?E4, ?E5, ?E6, ?E7, ?E8, ?E9, ?E10;
                     split; [|split]; vm_compute; reflexivity]|]).
    subst m.
    repeat (destruct Hc' as [->|Hc'];
            [first [lia
                   | rewrite ?E1, ?E2, ?E3, ?E4, ?E5, ?E6, ?E7, ?E8, ?E9, ?E10;
                     split; [|split]; vm_compute; reflexivity]|]).
    subst m'. rewrite ?E10. split; [|split]; vm_compute; reflexivity.
Defined.

(** C7, witness: the worked example in the revision without zoom. *)
Lemma C7_caption_witness :
  exists calls,
    reached (generatePattern (H := Sample.ieee) Sample.lycopodium_red Sample.world)
    = onCanvas Sample.world Sample.canvas ([] ++ calls) /\
    existsb Captioned.is_caption calls = false.
Proof.
  exact (proj2
    (C7_caption_only_in_revision_without_zoom (H := Sample.ieee)
       Sample.lycopodium_red Sample.world Sample.canvas [] eq_refl eq_refl)).
Defined.

(** C8, witness: nothing is attached. *)
Lemma C8_no_op_witness :
  generatePattern (H := Sample.ieee) Sample.lycopodium_red Sample.detached
  = Returned Sample.detached.
Proof.
  exact (proj1 (proj1 (C8_missing_canvas_or_context_is_a_no_op (H := Sample.ieee)
                         Sample.browser Sample.lycopodium_red Sample.detached) I)).
Defined.

(** C9, witness: the same numbers under another material. *)
Lemma C9_material_witness :
  generatePattern (H := Sample.ieee) Sample.lycopodium_red Sample.world
  = generatePattern (H := Sample.ieee)
      (setSelectedMaterial custom Sample.lycopodium_red) Sample.world.
Proof.
  exact (proj1 (C9_material_is_not_read (H := Sample.ieee) Sample.lycopodium_red
                  (setSelectedMaterial custom Sample.lycopodium_red) Sample.world
                  eq_refl eq_refl eq_refl eq_refl)).
Defined.

End Witnesses.

(** * Further results *)

(** ** The parameters over a session *)

Section Store.
Context {num : Type} `{Number num}.

Lemma materialEffect_presetHeld (st : State num) : presetHeld (materialEffect st).
Proof.
  unfold presetHeld, materialEffect.
  destruct st as [wl d p mat z]. destruct mat; reflexivity.
Qed.

Lemma handle_presetHeld (ev : Event num) (st : State num) :
  presetHeld st -> presetHeld (handle ev st).
Proof.
  intros Hst. destruct ev as [v|v|v|v|v]; cbn [handle].
  - exact Hst.
  - exact Hst.
  - unfold particleSizeDisabled.
    destruct (Material_eqb (selectedMaterial st) custom) eqn:Hmat; cbn [negb].
    + unfold presetHeld. cbn [setParticleSize selectedMaterial].
      destruct (selectedMaterial st); try discriminate. exact I.
    + exact Hst.
  - destruct (Material_eqb v (selectedMaterial st)); [exact Hst|].
    apply materialEffect_presetHeld.
  - exact Hst.
Qed.

Lemma run_presetHeld (evs : list (Event num)) (st : State num) :
  presetHeld st -> presetHeld (run evs st).
Proof.
  revert st. induction evs as [|ev evs IH]; intros st Hst; [exact Hst|].
  apply IH, handle_presetHeld, Hst.
Qed.

(** X1.  After mounting and any sequence of change events, a selected
    material other than custom has its preset in the particle-size
    field, "30" for lycopodium and "5" for silica, and the field is
    disabled exactly then; the fallback "10" of the material effect is
    never what it writes. *)
Theorem X1_preset_is_held_while_a_material_is_selected (evs : list (Event num)) :
  let st := run evs mounted in
  (selectedMaterial st = lycopodium -> particleSize st = "30") /\
  (selectedMaterial st = silica -> particleSize st = "5") /\
  (particleSizeDisabled st = true <-> selectedMaterial st <> custom) /\
  (forall st0 : State num,
      materialEffect st0 = st0 \/
      exists n, materialsData (selectedMaterial st0) = Some n /\
                materialEffect st0 = setParticleSize (JSString.of_Z n) st0).
Proof.
  intros st.
  assert (Hheld : presetHeld st).
  { apply run_presetHeld. apply materialEffect_presetHeld. }
  unfold presetHeld in Hheld.
  split; [|split; [|split]].
  - intros Hmat. rewrite Hmat in Hheld. exact Hheld.
  - intros Hmat. rewrite Hmat in Hheld. exact Hheld.
  - unfold particleSizeDisabled.
    destruct (selectedMaterial st); cbn; split; intros Hx;
      first [reflexivity | discriminate | congruence].
  - intros st0. unfold materialEffect.
    destruct st0 as [wl d p mat z]. destruct mat; cbn.
    + right. exists 30. split; reflexivity.
    + right. exists 5. split; reflexivity.
    + left. reflexivity.
Qed.

End Store.

(** ** Paintings do not look back *)

Section Oblivious.
Context {num : Type} `{Number num}.

Local Notation "a ;; b" := (andThen a b) (at level 61, right associativity).

Lemma outcome_map_app (log calls : list (Cmd num)) (o : Outcome (list (Cmd num))) :
  outcome_map (app log) (outcome_map (app calls) o)
  = outcome_map (app (log ++ calls)) o.
Proof. destruct o; simpl; rewrite app_assoc; reflexivity. Qed.

Lemma oblivious_done : oblivious (done (num := num)).
Proof. intros log. unfold painted, done. simpl. rewrite app_nil_r. reflexivity. Qed.

Lemma oblivious_call (c : Cmd num) : oblivious (call c).
Proof. intros log. reflexivity. Qed.

Lemma oblivious_throw (e : string) : oblivious (throw (num := num) e).
Proof. intros log. unfold painted, throw. simpl. rewrite app_nil_r. reflexivity. Qed.

Lemma oblivious_arc (x y r a0 a1 : num) : oblivious (arc x y r a0 a1).
Proof.
  intros log. unfold painted, arc.
  destruct (forallb (fun a => isFinite (narrow a)) [x; y; r; a0; a1]
            && ltb (narrow r) (int 0)); simpl.
  - rewrite app_nil_r. reflexivity.
  - reflexivity.
Qed.

Lemma oblivious_andThen (a b : Draw num) :
  oblivious a -> oblivious b -> oblivious (a ;; b).
Proof.
  intros Ha Hb log. unfold painted. rewrite !andThen_run.
  rewrite (Ha log). unfold painted.
  destruct (a []) as [calls|e calls]; simpl.
  - rewrite (Hb (log ++ calls)), (Hb calls). apply eq_sym, outcome_map_app.
  - reflexivity.
Qed.

Lemma oblivious_forEach {A : Type} (ms : list A) (body : A -> Draw num) :
  (forall m, In m ms -> oblivious (body m)) -> oblivious (forEach ms body).
Proof.
  induction ms as [|m ms IH]; intros Hbody.
  - apply oblivious_done.
  - rewrite forEach_cons. apply oblivious_andThen.
    + apply Hbody. left. reflexivity.
    + apply IH. intros m' Hm'. apply Hbody. right. exact Hm'.
Qed.

Lemma oblivious_drawImage (source : Canvas num) (dx dy : num) :
  oblivious (drawImage source dx dy).
Proof.
  unfold drawImage.
  destruct (orb (width source =? 0) (height source =? 0)).
  - apply oblivious_throw.
  - apply oblivious_call.
Qed.

Create HintDb oblivious.

#[local] Hint Resolve oblivious_done oblivious_call oblivious_throw
  oblivious_arc oblivious_andThen oblivious_drawImage : oblivious.

Lemma oblivious_drawBackground (canvas : Canvas num) :
  oblivious (drawBackground canvas).
Proof. unfold drawBackground. auto 12 with oblivious. Qed.

Lemma oblivious_drawCentralSpot (canvas : Canvas num) :
  oblivious (drawCentralSpot canvas).
Proof. unfold drawCentralSpot. auto 12 with oblivious. Qed.

Lemma oblivious_drawRing (canvas : Canvas num) (m : Z) (r : num) :
  oblivious (drawRing canvas m r).
Proof. unfold drawRing. auto 12 with oblivious. Qed.

Lemma oblivious_ringBody (st : State num) (canvas : Canvas num) (m : Z) :
  oblivious (ringBody st canvas m).
Proof.
  unfold ringBody. destruct (skipped st m); [apply oblivious_done|].
  destruct (fits canvas (pixelRadius st m));
    [apply oblivious_drawRing|apply oblivious_done].
Qed.

Lemma oblivious_paint (st : State num) (canvas : Canvas num) :
  oblivious (paint st canvas).
Proof.
  unfold paint.
  apply oblivious_andThen; [apply oblivious_drawBackground|].
  apply oblivious_andThen; [apply oblivious_drawCentralSpot|].
  apply oblivious_forEach. intros m _. apply oblivious_ringBody.
Qed.

Lemma oblivious_captioned (st : State num) (canvas : Canvas num) :
  oblivious (Captioned.paint st canvas).
Proof.
  unfold Captioned.paint.
  apply oblivious_andThen; [apply oblivious_drawBackground|].
  apply oblivious_andThen; [apply oblivious_drawCentralSpot|].
  apply oblivious_andThen.
  - apply oblivious_forEach. intros m _. unfold Captioned.ringBody.
    destruct (skipped st m); [apply oblivious_done|].
    destruct (fits canvas (Captioned.pixelRadius st m));
      [apply oblivious_drawRing|apply oblivious_done].
  - unfold Captioned.drawCaption. auto 12 with oblivious.
Qed.

Lemma oblivious_original (st : State num) (canvas : Canvas num) :
  oblivious (Original.paint st canvas).
Proof.
  unfold Original.paint.
  apply oblivious_andThen; [apply oblivious_drawBackground|].
  apply oblivious_forEach. intros m _. unfold Original.ringBody.
  destruct (skipped st m); [apply oblivious_done|].
  unfold Original.drawRing. auto 12 with oblivious.
Qed.

Lemma oblivious_compose (st : State num) (mainCanvas shot : Canvas num)
    (clock : Clock) :
  oblivious (compose st mainCanvas shot clock).
Proof.
  unfold compose. cbv zeta.
  destruct (zoomLevel st) as [|z zs]; auto 20 with oblivious.
Qed.

End Oblivious.

(** ** The painting as a list of calls *)

Section Structure.
Context {num : Type} `{Number num}.

Local Notation "a ;; b" := (andThen a b) (at level 61, right associativity).

Lemma drawRing_run (canvas : Canvas num) (m : Z) (r : num) log :
  drawRing canvas m r log
  = if refused canvas r then Thrown "IndexSizeError" (log ++ ringStart)
    else Returned (log ++ ringCalls canvas m r).
Proof.
  unfold drawRing, call. rewrite !andThen_run. unfold arc. fold (refused canvas r).
  destruct (refused canvas r).
  - rewrite <- !app_assoc. reflexivity.
  - rewrite !andThen_run, <- !app_assoc. reflexivity.
Qed.

Lemma drawRings_run (canvas : Canvas num) (rings : list (RingGeometry num)) log :
  drawRings canvas rings log = outcome_map (app log) (ringsPainted canvas rings).
Proof.
  revert log. induction rings as [|r rings IH]; intros log.
  - simpl. rewrite app_nil_r. reflexivity.
  - unfold drawRings. rewrite forEach_cons, andThen_run, drawRing_run.
    cbn [ringsPainted].
    destruct (refused canvas (ringRadius r)); [reflexivity|].
    fold (drawRings canvas rings). rewrite IH. apply eq_sym, outcome_map_app.
Qed.

Lemma ringsPainted_returns (canvas : Canvas num) (rings : list (RingGeometry num)) :
  Forall (fun r => refused canvas (ringRadius r) = false) rings ->
  ringsPainted canvas rings
  = Returned (flat_map (fun r => ringCalls canvas (order r) (ringRadius r)) rings).
Proof.
  induction 1 as [|r rings Hr Hrest IH]; [reflexivity|].
  cbn [ringsPainted flat_map]. rewrite Hr, IH. reflexivity.
Qed.

Lemma ringsPainted_throws (canvas : Canvas num) (rings : list (RingGeometry num)) :
  threw (ringsPainted canvas rings)
  = existsb (fun r => refused canvas (ringRadius r)) rings.
Proof.
  induction rings as [|r rings IH]; [reflexivity|].
  cbn [ringsPainted existsb].
  destruct (refused canvas (ringRadius r)); [reflexivity|].
  rewrite <- IH. destruct (ringsPainted canvas rings); reflexivity.
Qed.

Lemma ringsPainted_error (canvas : Canvas num) (rings : list (RingGeometry num))
    e calls :
  ringsPainted canvas rings = Thrown e calls -> e = "IndexSizeError".
Proof.
  revert calls. induction rings as [|r rings IH]; intros calls; [discriminate|].
  cbn [ringsPainted].
  destruct (refused canvas (ringRadius r)); [intros [= <- _]; reflexivity|].
  destruct (ringsPainted canvas rings) as [l|e' l]; [discriminate|].
  intros [= <- _]. apply (IH l). reflexivity.
Qed.

Lemma ringCalls_length (canvas : Canvas num) (rings : list (RingGeometry num)) :
  List.length (flat_map (fun r => ringCalls canvas (order r) (ringRadius r)) rings)
  = (8 * List.length rings)%nat.
Proof.
  induction rings as [|r rings IH]; [reflexivity|].
  cbn [flat_map]. rewrite length_app, IH. cbn [ringCalls List.length]. lia.
Qed.

(** Where 5 is not below 0, the painting is the empty pattern followed
    by the calls of the computed rings. *)
Lemma paint_run (st : State num) (canvas : Canvas num) log :
  ltb (narrow (int 5)) (int 0) = false ->
  paint st canvas log
  = outcome_map (fun calls => log ++ emptyPattern canvas ++ calls)
                (ringsPainted canvas (computeRings st canvas)).
Proof.
  intros Hspot. unfold paint.
  assert (Hstart : (drawBackground canvas ;; drawCentralSpot canvas) log
                   = Returned (log ++ emptyPattern canvas)).
  { assert (Harc : forall x y a0 a1 l,
               arc x y (int 5) a0 a1 l = Returned (l ++ [Arc x y (int 5) a0 a1])).
    { intros x y a0 a1 l. unfold arc. rewrite Hspot, andb_false_r. reflexivity. }
    unfold drawBackground, drawCentralSpot, call.
    repeat (rewrite andThen_run; try rewrite Harc).
    repeat rewrite <- app_assoc. reflexivity. }
  transitivity (((drawBackground canvas ;; drawCentralSpot canvas) ;;
                 forEach (range 1 maxOrder) (ringBody st canvas)) log).
  { rewrite !andThen_run. destruct (drawBackground canvas log); reflexivity. }
  rewrite andThen_run, Hstart, loop_draws_rings.
  fold (computeRings st canvas). rewrite drawRings_run.
  destruct (ringsPainted canvas (computeRings st canvas)); simpl;
    rewrite <- app_assoc; reflexivity.
Qed.

End Structure.

(** ** What a render leaves on the canvas *)

Section RenderInBinary64.
Import Floats.SpecFloat IEEE754.
Context {host : Host}.

Lemma generatePattern_run (st : State float) (w : World float)
    (canvas : Canvas float) log :
  canvasRef w = Some canvas ->
  context2d canvas = Some log ->
  generatePattern st w
  = outcome_map (fun calls => onCanvas w canvas (log ++ emptyPattern canvas ++ calls))
                (ringsPainted canvas (computeRings st canvas)).
Proof.
  intros Hcanvas Hcontext. unfold generatePattern.
  rewrite Hcanvas, Hcontext, paint_run by reflexivity.
  destruct (ringsPainted canvas (computeRings st canvas)); reflexivity.
Qed.

(** X3.  In binary64, on every host, a render on a canvas with a context
    keeps the calls made before, then makes the thirteen calls of
    background, crosshair and central spot, whether it goes on to return
    or to throw; it leaves the screenshot canvas and the downloads alone;
    and when [ctx.arc] refuses none of the computed rings it returns,
    having made after those thirteen the eight calls of each ring in the
    order of [computeRings], and nothing else. *)
Theorem X3_render_starts_with_the_empty_pattern
    (st : State float) (w : World float) (canvas : Canvas float) log :
  canvasRef w = Some canvas ->
  context2d canvas = Some log ->
  let rings := computeRings st canvas in
  let after := reached (generatePattern st w) in
  (exists rest,
      canvasRef after
      = Some (with_context (log ++ emptyPattern canvas ++ rest) canvas)) /\
  screenshotCanvasRef after = screenshotCanvasRef w /\
  downloads after = downloads w /\
  (Forall (fun r => refused canvas (ringRadius r) = false) rings ->
   generatePattern st w
   = Returned
       (onCanvas w canvas
          (log ++ emptyPattern canvas ++
           flat_map (fun r => ringCalls canvas (order r) (ringRadius r)) rings)) /\
   option_map (fun c => List.length (bitmap c)) (canvasRef after)
   = Some (List.length log + 13 + 8 * List.length rings)%nat).
Proof.
  intros Hcanvas Hcontext rings after. unfold after.
  rewrite (generatePattern_run st w canvas log Hcanvas Hcontext). fold rings.
  split; [|split; [|split]].
  - destruct (ringsPainted canvas rings) as [calls|e calls];
      exists calls; reflexivity.
  - destruct (ringsPainted canvas rings); reflexivity.
  - destruct (ringsPainted canvas rings); reflexivity.
  - intros Hrings. rewrite (ringsPainted_returns canvas rings Hrings).
    split; [reflexivity|].
    cbn [outcome_map reached onCanvas canvasRef option_map bitmap with_context
         context2d].
    rewrite !length_app, ringCalls_length. cbn [emptyPattern List.length].
    f_equal. lia.
Qed.

(** The single kept of a double has the double's sign: a narrowed radius
    that is finite and below zero comes from a finite double below zero
    that is not beyond the largest single. *)
Lemma to_single_below_zero (r : float) :
  is_finite (to_single r) = true ->
  SFltb (to_single r) (S754_zero false) = true ->
  exists m e, r = S754_finite true m e /\ SFltb single_max (SFabs r) = false.
Proof.
  destruct r as [s|s| |s m e]; try discriminate.
  unfold to_single.
  destruct (SFltb single_max (SFabs (S754_finite s m e))) eqn:Hmax;
    [discriminate|].
  destruct s; [eauto|].
  unfold binary_normalize, cond_Zopp, binary_round.
  destruct (shl_align m e _) as [mz ez].
  unfold binary_round_aux.
  destruct (shr_fexp 24 128 (Z.pos mz) ez loc_Exact) as [mrs e'].
  destruct (shr_fexp 24 128 _ e' _) as [mrs' e''].
  destruct (shr_m mrs'); try discriminate.
  destruct (_ <=? _); discriminate.
Qed.


End RenderInBinary64.

(** ** Zero among the parameters *)

Section Zero.
Import Floats.SpecFloat IEEE754 Magnitude.
Context {host : Host}.

(** A number that is at least 1 times a number above zero is above
    zero: the product does not round to zero. *)
Lemma fmul_at_least_one (a c : float) :
  at_least_one a = true -> positive_finite c = true ->
  above_zero (fmul a c) = true.
Proof.
  intros Ha Hc.
  destruct a as [s|s| |[] ma ea]; try discriminate.
  cbn [at_least_one] in Ha.
  apply andb_true_iff in Ha as [Ha Hea]. apply andb_true_iff in Ha as [Ha Hma].
  apply Z.leb_le in Hea, Hma.
  apply positive_finite_inv in Hc as (mc & ec & -> & Hc).
  destruct (fmul_spec ma ea mc ec Ha Hc) as (-> & Hn & HE).
  pose proof Hn as (HP & HD & Hg & Hsmall & Hlarge).
  apply valid_normalised in Hc as [(_ & _ & Hec & _) _].
  set (P := Zpos ma * Zpos mc) in *.
  set (g := SpecFloat.fexp prec emax (Zdigits2 P + (ea + ec))) in *.
  set (D := 2 ^ (g - (ea + ec))) in *.
  assert (Hq : 1 <= P / D).
  { destruct (Z.eq_dec g (-1074)) as [Hsub|Hnorm].
    - apply Z.div_le_lower_bound; [exact HD|].
      assert (HD52 : D <= 2 ^ 52).
      { unfold D. apply Z.pow_le_mono_r; lia. }
      assert (HmaP : Zpos ma <= P) by (unfold P; nia).
      lia.
    - assert (0 < 2 ^ 52) by (apply pow2_pos; lia).
      specialize (Hlarge ltac:(lia)). lia. }
  pose proof (rne_between P D HP HD) as Hrne.
  unfold finalize.
  destruct (Z.eqb_spec (rne P D) 0); [lia|].
  repeat match goal with
         | |- context [if ?c then _ else _] => destruct c
         end; reflexivity.
Qed.

Lemma int_at_least_one (m : Z) :
  1 <= m <= maxOrder -> at_least_one (int m) = true.
Proof.
  intros Hm. apply orders_cases in Hm.
  repeat (destruct Hm as [->|Hm]; [vm_compute; reflexivity|]).
  subst m. vm_compute. reflexivity.
Qed.

Lemma zero_times_micro (neg : bool) (e : Z) :
  fmul (round_decimal neg 0 e) (lit 1 (-6)) = S754_zero neg.
Proof. destruct neg; reflexivity. Qed.

Lemma zero_times_nano (neg : bool) (e : Z) :
  fmul (round_decimal neg 0 e) (lit 1 (-9)) = S754_zero neg.
Proof. destruct neg; reflexivity. Qed.

(** X6.  In binary64, on every host: with "0" (or any decimal zero) in
    the particle-size field and a wavelength above zero, the sine of
    every order is an infinity, every order is skipped before
    [Math.asin] is reached, and [generatePattern] returns with
    background, crosshair and central spot and no ring: the division by
    zero raises nothing. *)
Theorem X6_no_particle_size_no_rings
    (st : State float) (w : World float) (canvas : Canvas float) log
    (neg : bool) (e : Z) :
  Parse.decimal (particleSize st) = DNum neg 0 e ->
  positive_finite (wavelengthSI st) = true ->
  canvasRef w = Some canvas ->
  context2d canvas = Some log ->
  (forall m, 1 <= m <= maxOrder ->
     sinTheta st m = S754_infinity neg /\ skipped st m = true) /\
  computeRings st canvas = [] /\
  generatePattern st w = Returned (onCanvas w canvas (log ++ emptyPattern canvas)).
Proof.
  intros Hsize Hwave Hcanvas Hlog.
  assert (Hp : particleSizeSI st = S754_zero neg).
  { unfold particleSizeSI, parseFloat. rewrite Hsize. apply zero_times_micro. }
  assert (Hsin : forall m, 1 <= m <= maxOrder -> sinTheta st m = S754_infinity neg).
  { intros m Hm. unfold sinTheta. rewrite Hp.
    pose proof (fmul_at_least_one (int m) (wavelengthSI st)
                  (int_at_least_one m Hm) Hwave) as Hpos.
    change (mul (int m) (wavelengthSI st)) with (fmul (int m) (wavelengthSI st)).
    destruct (fmul (int m) (wavelengthSI st)) as [s|[]| |[] mx ex];
      try discriminate; reflexivity. }
  assert (Hskip : forall m, 1 <= m <= maxOrder -> skipped st m = true).
  { intros m Hm. unfold skipped. rewrite (Hsin m Hm). destruct neg; reflexivity. }
  assert (Hrings : computeRings st canvas = []).
  { unfold computeRings. rewrite range_1_maxOrder. cbn [flat_map].
    unfold ringOf. rewrite !Hskip by (unfold maxOrder; lia). reflexivity. }
  split; [|split].
  - intros m Hm. split; [apply Hsin|apply Hskip]; exact Hm.
  - exact Hrings.
  - rewrite (generatePattern_run st w canvas log Hcanvas Hlog), Hrings.
    cbn [ringsPainted outcome_map]. rewrite app_nil_r. reflexivity.
Qed.

(** X7.  In binary64, on every host whose [Math.asin] and [Math.tan] map
    a zero to itself, as ECMAScript requires: with "0" (or any decimal
    zero) in the wavelength field, the other parameters above zero and
    a canvas whose half side is not below zero, no order is skipped,
    every pixel radius is zero, all ten rings pass the test against the
    canvas, and [generatePattern] returns having drawn ten rings of
    radius zero at the centre, each with its label. *)
Theorem X7_no_wavelength_ten_rings_of_radius_zero
    (st : State float) (w : World float) (canvas : Canvas float) log
    (neg : bool) (e : Z) :
  (forall s, asin (S754_zero s) = S754_zero s) ->
  (forall s, tan (S754_zero s) = S754_zero s) ->
  Parse.decimal (wavelength st) = DNum neg 0 e ->
  positive_finite (particleSizeSI st) = true ->
  positive_finite (distanceSI st) = true ->
  positive_finite (scaleFactor st) = true ->
  fits canvas (int 0) = true ->
  canvasRef w = Some canvas ->
  context2d canvas = Some log ->
  (forall m, 1 <= m <= maxOrder ->
     skipped st m = false /\ pixelRadius st m = S754_zero neg) /\
  computeRings st canvas
  = List.map (fun m => {| order := m; ringRadius := S754_zero neg |})
             (range 1 maxOrder) /\
  generatePattern st w
  = Returned
      (onCanvas w canvas
         (log ++ emptyPattern canvas ++
          flat_map (fun m => ringCalls canvas m (S754_zero neg))
                   (range 1 maxOrder))).
Proof.
  intros Hasin Htan Hwave Hsize Hdist Hscale Hfits Hcanvas Hlog.
  assert (Hw : wavelengthSI st = S754_zero neg).
  { unfold wavelengthSI, parseFloat. rewrite Hwave. apply zero_times_nano. }
  apply positive_finite_inv in Hsize as (mp & ep & Hp & _).
  apply positive_finite_inv in Hdist as (md & ed & Hd & _).
  apply positive_finite_inv in Hscale as (ms & es & Hs & _).
  assert (Hint : forall m, 1 <= m <= maxOrder ->
                   exists mi ei, @int float _ m = S754_finite false mi ei).
  { intros m Hm. pose proof (int_positive (host := host) m Hm) as Hi.
    apply positive_finite_inv in Hi as (mi & ei & Hi & _). eauto. }
  assert (Hsin : forall m, 1 <= m <= maxOrder -> sinTheta st m = S754_zero neg).
  { intros m Hm. destruct (Hint m Hm) as (mi & ei & Hi).
    unfold sinTheta. rewrite Hw, Hp, Hi. destruct neg; reflexivity. }
  assert (Hpixel : forall m, 1 <= m <= maxOrder -> pixelRadius st m = S754_zero neg).
  { intros m Hm. unfold pixelRadius, radius, theta. rewrite (Hsin m Hm).
    change (fmul (fmul (distanceSI st) (tan (asin (S754_zero neg)))) (scaleFactor st)
            = S754_zero neg).
    rewrite Hasin, Htan, Hd, Hs. destruct neg; reflexivity. }
  assert (Hskip : forall m, 1 <= m <= maxOrder -> skipped st m = false).
  { intros m Hm. unfold skipped. rewrite (Hsin m Hm). destruct neg; reflexivity. }
  assert (Hzero : fits canvas (S754_zero neg) = true).
  { revert Hfits. unfold fits.
    destruct (div (Math_min (int (width canvas)) (int (height canvas))) (int 2))
      as [s|[]| |[] mh eh]; destruct neg; intros Hfits;
      first [reflexivity | discriminate Hfits]. }
  assert (Hring : forall m, 1 <= m <= maxOrder ->
                    ringOf st canvas m
                    = [ {| order := m; ringRadius := S754_zero neg |} ]).
  { intros m Hm. unfold ringOf. rewrite (Hskip m Hm), (Hpixel m Hm), Hzero.
    reflexivity. }
  assert (Hrings : computeRings st canvas
                   = List.map (fun m => {| order := m; ringRadius := S754_zero neg |})
                              (range 1 maxOrder)).
  { unfold computeRings. rewrite range_1_maxOrder. cbn [flat_map List.map].
    rewrite !Hring by (unfold maxOrder; lia). reflexivity. }
  split; [|split].
  - intros m Hm. split; [apply Hskip|apply Hpixel]; exact Hm.
  - exact Hrings.
  - rewrite (generatePattern_run st w canvas log Hcanvas Hlog), Hrings.
    rewrite ringsPainted_returns.
    + cbn [outcome_map]. rewrite flat_map_concat_map, map_map.
      rewrite <- flat_map_concat_map. reflexivity.
    + apply Forall_forall. intros r Hr. apply in_map_iff in Hr as (m & <- & _).
      cbn [ringRadius]. unfold refused.
      replace (ltb (S754_zero neg) (int 0)) with false by (destruct neg; reflexivity).
      apply andb_false_r.
Qed.

End Zero.

(** ** The rings drawn are the first ones *)

Section Prefix.
Context {num : Type} `{Number num}.

Lemma orders_are_the_drawn (st : State num) (canvas : Canvas num) (ms : list Z) :
  List.map order (flat_map (ringOf st canvas) ms) = filter (drawn st canvas) ms.
Proof.
  induction ms as [|m ms IH]; [reflexivity|].
  cbn [flat_map filter]. rewrite map_app, IH.
  unfold ringOf at 1, drawn at 2.
  destruct (skipped st m); [reflexivity|].
  destruct (fits canvas (pixelRadius st m)); reflexivity.
Qed.

Lemma range_from_1 (n : nat) :
  range 1 (Z.of_nat n) = List.map (fun i => 1 + Z.of_nat i) (seq 0 n).
Proof.
  unfold range. replace (Z.to_nat (Z.of_nat n - 1 + 1)) with n by lia. reflexivity.
Qed.

Lemma range_succ (n : nat) :
  range 1 (Z.of_nat (S n)) = range 1 (Z.of_nat n) ++ [Z.of_nat (S n)].
Proof.
  rewrite !range_from_1, seq_S, map_app. cbn [List.map Nat.add].
  do 2 f_equal. lia.
Qed.

Lemma in_range_1 (n : nat) (m : Z) :
  In m (range 1 (Z.of_nat n)) <-> 1 <= m <= Z.of_nat n.
Proof.
  rewrite range_from_1, in_map_iff. split.
  - intros (i & <- & Hi). apply in_seq in Hi. lia.
  - intros Hm. exists (Z.to_nat (m - 1)). split; [lia|]. apply in_seq. lia.
Qed.

(** A test that holds below wherever it holds keeps a first part of
    [1 .. n]. *)
Lemma filter_keeps_a_prefix (f : Z -> bool) (n : nat) :
  (forall m m', 1 <= m <= m' -> m' <= Z.of_nat n -> f m' = true -> f m = true) ->
  exists k, (k <= n)%nat /\ filter f (range 1 (Z.of_nat n)) = range 1 (Z.of_nat k).
Proof.
  induction n as [|n IH]; intros Hdown.
  - exists O. split; [lia|reflexivity].
  - rewrite range_succ, filter_app. cbn [filter].
    destruct (f (Z.of_nat (S n))) eqn:Hlast.
    + exists (S n). split; [lia|]. rewrite range_succ. f_equal.
      apply forallb_filter_id. apply forallb_forall. intros m Hm.
      apply in_range_1 in Hm.
      apply (Hdown m (Z.of_nat (S n))); [lia|lia|exact Hlast].
    + destruct IH as (k & Hk & Hfilter).
      { intros m m' Hm Hm'. apply Hdown; lia. }
      exists k. split; [lia|]. rewrite Hfilter, app_nil_r. reflexivity.
Qed.

Lemma drawn_orders_are_a_prefix (st : State num) (canvas : Canvas num) :
  (forall m m', 1 <= m <= m' -> m' <= maxOrder ->
                drawn st canvas m' = true -> drawn st canvas m = true) ->
  exists k, 0 <= k <= maxOrder /\
            List.map order (computeRings st canvas) = range 1 k.
Proof.
  intros Hdown. unfold computeRings. rewrite orders_are_the_drawn.
  destruct (filter_keeps_a_prefix (drawn st canvas) 10) as (k & Hk & Hfilter).
  { intros m m' Hm Hm'. apply Hdown; [exact Hm|exact Hm']. }
  exists (Z.of_nat k). split; [unfold maxOrder; lia|exact Hfilter].
Qed.

End Prefix.

Section PrefixInBothArithmetics.
Import Floats.SpecFloat.

#[local] Existing Instance Exact.number.
#[local] Existing Instance IEEE754.number.

(** X8.  The orders that get a ring are the first [k] orders, for some
    [k] from 0 to 10: no order is drawn beyond one that is not.  This
    holds in exact arithmetic with wavelength, distance, particle size
    and zoom finite and above zero; and in binary64 with the three
    lengths in metres and the scale factor finite and above zero, a
    canvas whose half side is neither NaN nor negative, and a host whose
    tangents of the angles of the orders are ordered as the orders
    are. *)
Theorem X8_rings_drawn_are_the_first_orders :
  (forall (st : State Exact.xreal) (canvas : Canvas Exact.xreal) (w d p z : R),
      parseFloat (wavelength st) = Exact.XFin w ->
      parseFloat (distance st) = Exact.XFin d ->
      parseFloat (particleSize st) = Exact.XFin p ->
      zoom st = Exact.XFin z ->
      (0 < w)%R -> (0 < d)%R -> (0 < p)%R -> (0 < z)%R ->
      exists k, 0 <= k <= maxOrder /\
                List.map order (computeRings st canvas) = range 1 k) /\
  (forall (host : IEEE754.Host)
          (st : State IEEE754.float) (canvas : Canvas IEEE754.float),
      IEEE754.positive_finite (wavelengthSI st) = true ->
      IEEE754.positive_finite (particleSizeSI st) = true ->
      IEEE754.positive_finite (distanceSI st) = true ->
      IEEE754.positive_finite (scaleFactor st) = true ->
      IEEE754.ordinary
        (div (Math_min (int (width canvas)) (int (height canvas))) (int 2))
      = true ->
      (forall m m' : Z,
          1 <= m <= m' -> m' <= maxOrder -> skipped st m' = false ->
          IEEE754.ordinary (Math_tan (theta st m)) = true /\
          IEEE754.ordinary (Math_tan (theta st m')) = true /\
          leb (Math_tan (theta st m)) (Math_tan (theta st m')) = true) ->
      exists k, 0 <= k <= maxOrder /\
                List.map order (computeRings st canvas) = range 1 k).
Proof.
  split.
  - intros st canvas w d p z Hw Hd Hp Hz Hw0 Hd0 Hp0 Hz0.
    apply drawn_orders_are_a_prefix. intros m m' Hm Hm'. unfold drawn.
    intros Hdrawn. apply andb_true_iff in Hdrawn as [Hskip' Hfits'].
    apply negb_true_iff in Hskip'.
    destruct (proj1 (exact_order st canvas w d p z Hw Hd Hp Hz Hw0 Hd0 Hp0 Hz0)
                m m' Hm Hskip') as (Hskip & r & r' & Hr & Hr' & Hle).
    rewrite Hskip. cbn [negb andb].
    revert Hfits'. unfold fits. rewrite Hr, Hr'.
    destruct (div (Math_min (int (width canvas)) (int (height canvas))) (int 2))
      as [|s|h]; cbn [leb Exact.number Exact.xleb]; try (intros; assumption).
    destruct (Rle_dec r' h); [|discriminate].
    intros _. destruct (Rle_dec r h); [reflexivity|lra].
  - intros host st canvas HW HP HD HS Hhalf Htan.
    apply drawn_orders_are_a_prefix. intros m m' Hm Hm'. unfold drawn.
    intros Hdrawn. apply andb_true_iff in Hdrawn as [Hskip' Hfits'].
    apply negb_true_iff in Hskip'.
    destruct (binary64_order st HW HP HD HS Htan m m' Hm Hm' Hskip')
      as (Hskip & Hle).
    destruct (Htan m m' Hm Hm' Hskip') as (Ht & Ht' & _).
    rewrite Hskip. cbn [negb andb]. unfold fits in *.
    apply (leb_trans _ (pixelRadius st m')); try assumption.
    + apply (scaled_ordinary st HD HS). exact Ht.
    + apply (scaled_ordinary st HD HS). exact Ht'.
Qed.

End PrefixInBothArithmetics.

(** ** The two later revisions side by side *)

Section Revisions.
Context {num : Type} `{Number num}.

Local Notation "a ;; b" := (andThen a b) (at level 61, right associativity).

Lemma forEach_ext {A : Type} (ms : list A) (f g : A -> Draw num) :
  (forall m, In m ms -> f m = g m) -> forEach ms f = forEach ms g.
Proof.
  induction ms as [|m ms IH]; intros Hfg; [reflexivity|].
  rewrite !forEach_cons, (Hfg m (or_introl eq_refl)), IH; [reflexivity|].
  intros m' Hm'. apply Hfg. right. exact Hm'.
Qed.

(** Where the scale factors are the same number, the revision without
    zoom paints what the revision with zoom paints, and then the
    caption. *)
Lemma same_scale_same_rings (st : State num) (canvas : Canvas num) log :
  scaleFactor st = Captioned.scaleFactor ->
  Captioned.paint st canvas log
  = match paint st canvas log with
    | Returned log' => Returned (log' ++ Captioned.captionCalls canvas)
    | Thrown e log' => Thrown e log'
    end.
Proof.
  intros Hscale.
  assert (Hbody : forall m, ringBody st canvas m = Captioned.ringBody st canvas m).
  { intros m. unfold ringBody, Captioned.ringBody, pixelRadius, Captioned.pixelRadius.
    rewrite Hscale. reflexivity. }
  rewrite captioned_paint_run, andThen_run.
  unfold Captioned.paintRings, paint.
  rewrite (forEach_ext (range 1 maxOrder) (Captioned.ringBody st canvas)
             (ringBody st canvas)) by (intros m _; symmetry; apply Hbody).
  match goal with
  | |- context [match ?d with Returned _ => _ | Thrown _ _ => _ end] =>
      destruct d as [log'|e log']; [apply drawCaption_run|reflexivity]
  end.
Qed.

End Revisions.

Section RevisionsAtZoomOne.

(** X9.  At zoom 1 the revision with the zoom slider paints exactly what
    the revision before it paints, less the caption: the same calls with
    the same radii, in binary64 on every host and in exact arithmetic;
    the earlier revision then adds the three calls of the caption, and
    where one throws so does the other, after the same calls. *)
Theorem X9_zoom_one_is_the_earlier_revision :
  (forall (host : IEEE754.Host) (st : State IEEE754.float)
          (canvas : Canvas IEEE754.float) log,
      let ieee := IEEE754.number (host := host) in
      zoom (H := ieee) st = int (H := ieee) 1 ->
      Captioned.paint (H := ieee) st canvas log
      = match paint (H := ieee) st canvas log with
        | Returned log' => Returned (log' ++ Captioned.captionCalls (H := ieee) canvas)
        | Thrown e log' => Thrown e log'
        end) /\
  (forall (st : State Exact.xreal) (canvas : Canvas Exact.xreal) log,
      zoom (H := Exact.number) st = int (H := Exact.number) 1 ->
      Captioned.paint (H := Exact.number) st canvas log
      = match paint (H := Exact.number) st canvas log with
        | Returned log' =>
            Returned (log' ++ Captioned.captionCalls (H := Exact.number) canvas)
        | Thrown e log' => Thrown e log'
        end).
Proof.
  split.
  - intros host st canvas log ieee Hzoom.
    apply (same_scale_same_rings (H := ieee)).
    unfold scaleFactor. rewrite Hzoom. vm_compute. reflexivity.
  - intros st canvas log Hzoom.
    apply (same_scale_same_rings (H := Exact.number)).
    unfold scaleFactor, baseScaleFactor, Captioned.scaleFactor.
    rewrite Hzoom, !(int_exact). cbn [mul Exact.number Exact.xmul].
    f_equal. lra.
Qed.

End RevisionsAtZoomOne.

(** ** Zooming in *)

Section ZoomingIn.
Import Floats.SpecFloat IEEE754 Magnitude.
Context {host : Host}.

Lemma ring_drawn (st : State float) (canvas : Canvas float) (m : Z) :
  In m (List.map order (computeRings st canvas)) <->
  In m (range 1 maxOrder) /\ skipped st m = false /\
  fits canvas (pixelRadius st m) = true.
Proof.
  split.
  - intros Hin. apply in_map_iff in Hin as (r & <- & Hr).
    apply rings_in in Hr as (Hrange & _ & Hskip & Hfits). auto.
  - intros (Hrange & Hskip & Hfits). apply in_map_iff.
    exists {| order := m; ringRadius := pixelRadius st m |}. split; [reflexivity|].
    unfold computeRings. apply in_flat_map. exists m. split; [exact Hrange|].
    unfold ringOf. rewrite Hskip, Hfits. left. reflexivity.
Qed.

Lemma above_zero_below_finite (a b : float) :
  ordinary a = true -> above_zero a = true ->
  positive_finite b = true -> SFleb a b = true ->
  positive_finite a = true.
Proof.
  destruct a as [s|[]| |[] ma ea]; try discriminate;
    destruct b as [s'|s'| |[] mb eb]; try discriminate.
  intros Ha _ _ _. exact Ha.
Qed.

(** Multiplying a number that is neither NaN nor negative by a larger
    positive factor does not make it smaller. *)
Lemma fmul_mono_factor (r a b : float) :
  ordinary r = true ->
  positive_finite a = true -> positive_finite b = true ->
  SFleb a b = true ->
  ordinary (fmul r a) = true /\ ordinary (fmul r b) = true /\
  SFleb (fmul r a) (fmul r b) = true.
Proof.
  intros Hr Ha Hb Hle.
  split; [apply fmul_ordinary; assumption|].
  split; [apply fmul_ordinary; assumption|].
  destruct r as [s|[]| |[] mr er] eqn:Er; try discriminate.
  - apply positive_finite_inv in Ha as (ma & ea & -> & _).
    apply positive_finite_inv in Hb as (mb & eb & -> & _). reflexivity.
  - apply positive_finite_inv in Ha as (ma & ea & -> & _).
    apply positive_finite_inv in Hb as (mb & eb & -> & _). reflexivity.
  - rewrite (fmul_comm _ a), (fmul_comm _ b).
    apply fmul_mono; try assumption; apply positive_ordinary; assumption.
Qed.

(** X10.  In binary64, zooming in never adds a ring.  Take two states
    with the same three fields and zoom levels [z <= z'], both finite
    and above zero, the larger scale factor still finite, on a canvas
    whose half side is neither NaN nor negative and on any host that
    gives the orders with an angle a radius in metres that is neither
    NaN nor negative.  Then no pixel radius is smaller at [z'] than at
    [z], and every order drawn at [z'] is drawn at [z]. *)
Theorem X10_zooming_in_never_adds_a_ring
    (st st' : State float) (canvas : Canvas float) :
  wavelength st = wavelength st' ->
  distance st = distance st' ->
  particleSize st = particleSize st' ->
  positive_finite (zoom st) = true ->
  positive_finite (zoom st') = true ->
  SFleb (zoom st) (zoom st') = true ->
  positive_finite (scaleFactor st') = true ->
  ordinary (div (Math_min (int (width canvas)) (int (height canvas))) (int 2))
  = true ->
  (forall m, 1 <= m <= maxOrder -> skipped st m = false ->
             ordinary (radius st m) = true) ->
  (forall m, 1 <= m <= maxOrder -> skipped st m = false ->
             SFleb (pixelRadius st m) (pixelRadius st' m) = true) /\
  incl (List.map order (computeRings st' canvas))
       (List.map order (computeRings st canvas)).
Proof.
  intros Hwave Hdist Hsize Hz Hz' Hle Hscale' Hhalf Hradius.
  assert (Hsame : forall m, skipped st' m = skipped st m /\ radius st' m = radius st m).
  { intros m. unfold skipped, radius, theta, sinTheta, wavelengthSI, particleSizeSI,
      distanceSI. rewrite Hwave, Hdist, Hsize. split; reflexivity. }
  assert (H4000 : positive_finite (int 4000) = true) by (vm_compute; reflexivity).
  assert (Hfactors : SFleb (scaleFactor st) (scaleFactor st') = true).
  { unfold scaleFactor, baseScaleFactor.
    change (SFleb (fmul (int 4000) (zoom st)) (fmul (int 4000) (zoom st')) = true).
    rewrite !(fmul_comm (int 4000)).
    apply fmul_mono; try assumption; apply positive_ordinary; assumption. }
  assert (Hscale : positive_finite (scaleFactor st) = true).
  { apply above_zero_below_finite with (b := scaleFactor st'); try assumption.
    - unfold scaleFactor, baseScaleFactor.
      change (ordinary (fmul (int 4000) (zoom st)) = true).
      apply fmul_ordinary; [apply positive_ordinary|]; assumption.
    - unfold scaleFactor, baseScaleFactor.
      change (above_zero (fmul (int 4000) (zoom st)) = true).
      apply fmul_at_least_one; [vm_compute; reflexivity|assumption]. }
  assert (Hpixels : forall m, 1 <= m <= maxOrder -> skipped st m = false ->
            ordinary (pixelRadius st m) = true /\
            ordinary (pixelRadius st' m) = true /\
            SFleb (pixelRadius st m) (pixelRadius st' m) = true).
  { intros m Hm Hskip. unfold pixelRadius.
    rewrite (proj2 (Hsame m)).
    apply (fmul_mono_factor (radius st m) (scaleFactor st) (scaleFactor st'));
      try assumption.
    apply Hradius; assumption. }
  split.
  - intros m Hm Hskip. apply (Hpixels m Hm Hskip).
  - intros m Hin. apply ring_drawn in Hin as (Hrange & Hskip' & Hfits').
    apply ring_drawn. split; [exact Hrange|].
    assert (Hskip : skipped st m = false)
      by (rewrite <- (proj1 (Hsame m)); exact Hskip').
    split; [exact Hskip|].
    assert (Hm : 1 <= m <= maxOrder).
    { rewrite range_1_maxOrder in Hrange. unfold maxOrder. cbn [In] in Hrange. lia. }
    destruct (Hpixels m Hm Hskip) as (Hp & Hp' & Hpp).
    unfold fits in *.
    apply leb_trans with (b := pixelRadius st' m); assumption.
Qed.

End ZoomingIn.

(** ** The zoom level as text *)

Section ZoomText.
Import Floats.SpecFloat IEEE754.
Context {host : Host}.

Lemma in_range (first last n : Z) :
  first <= n <= last -> In n (range first last).
Proof.
  intros Hn. unfold range. apply in_map_iff.
  exists (Z.to_nat (n - first)). split; [lia|].
  apply in_seq. lia.
Qed.

(** X11.  In binary64, for each of the fifty positions of the slider,
    0.1 to 5.0 in steps of 0.1, [toFixed(1)] of the double nearest to
    the position gives back its decimal: the label under the slider and
    the screenshot read 0.1, 0.2, ... 5.0, never a digit more. *)
Theorem X11_zoom_text_is_the_slider_position (n : Z) :
  1 <= n <= 50 ->
  toFixed1 (lit (Z.to_N n) (-1))
  = (JSString.of_Z (n / 10) ++ "." ++ JSString.of_Z (n mod 10))%string /\
  zoomLabel (lit (Z.to_N n) (-1))
  = ("Zoom: " ++ (JSString.of_Z (n / 10) ++ "." ++ JSString.of_Z (n mod 10))
     ++ "x")%string.
Proof.
  intros Hn.
  assert (Hall : forallb (fun k =>
                    String.eqb (toFixed1 (lit (Z.to_N k) (-1)))
                               (JSString.of_Z (k / 10) ++ "."
                                ++ JSString.of_Z (k mod 10))%string)
                  (range 1 50) = true) by (vm_compute; reflexivity).
  rewrite forallb_forall in Hall.
  specialize (Hall n (in_range 1 50 n Hn)). apply String.eqb_eq in Hall.
  split; [exact Hall|]. unfold zoomLabel. rewrite Hall. reflexivity.
Qed.

End ZoomText.

(** ** The canvas follows the parameters *)

Section Session.
Context {num : Type} `{Number num}.
Import App.

(** The painting reads the size of the canvas and nothing else of it. *)
Lemma paint_reads_the_size (st : State num) (a b : Canvas num) :
  width a = width b -> height a = height b -> paint st a = paint st b.
Proof.
  destruct a as [wa ha ca], b as [wb hb cb]. cbn [width height].
  intros -> ->. reflexivity.
Qed.

Lemma generatePattern_shows (st : State num) (canvas : Canvas num)
    (w w' : World num) :
  sized canvas w ->
  generatePattern st w = Returned w' ->
  sized canvas w' /\ shows st w'.
Proof.
  intros (c & log & Hc & Hlog & Hwidth & Hheight).
  unfold generatePattern. rewrite Hc, Hlog.
  rewrite (oblivious_paint st c log). unfold painted.
  destruct (paint st c []) as [calls|e calls] eqn:Hpaint; [|discriminate].
  cbn [outcome_map]. intros [= <-]. split.
  - exists (with_context (log ++ calls) c), (log ++ calls).
    repeat split; assumption.
  - unfold shows. cbn [onCanvas canvasRef].
    exists log, calls. split; [|reflexivity].
    unfold painted.
    rewrite (paint_reads_the_size st (with_context (log ++ calls) c) c)
      by reflexivity.
    exact Hpaint.
Qed.

Lemma generatePattern_throws_sized (st : State num) (canvas : Canvas num)
    (w w' : World num) e :
  sized canvas w ->
  generatePattern st w = Thrown e w' ->
  sized canvas w'.
Proof.
  intros (c & log & Hc & Hlog & Hwidth & Hheight).
  unfold generatePattern. rewrite Hc, Hlog.
  destruct (paint st c log) as [calls|e' calls]; [discriminate|].
  cbn [outcome_map]. intros [= _ <-].
  exists (with_context calls c), calls. repeat split; assumption.
Qed.

(** Effects that ran were preceded by a render that returned. *)
Lemma rendering_returned (st : State num) (w : World num)
    (effects : Outcome (Page num)) (p : Page num) :
  rendering st w effects = Returned p ->
  zoomLevel st <> [] /\ effects = Returned p.
Proof.
  unfold rendering, render. destruct (zoomLevel st); [discriminate|].
  intros ->. split; [discriminate|reflexivity].
Qed.

Lemma rendering_some (st : State num) (w : World num)
    (effects : Outcome (Page num)) z zs :
  zoomLevel st = z :: zs -> rendering st w effects = effects.
Proof. intros Hzoom. unfold rendering, render. rewrite Hzoom. reflexivity. Qed.

Lemma paintNow_shows (st : State num) (canvas : Canvas num)
    (w : World num) (p : Page num) :
  sized canvas w ->
  paintNow st w = Returned p ->
  state p = st /\ sized canvas (world p) /\ shows st (world p).
Proof.
  intros Hsized. unfold paintNow, within.
  destruct (generatePattern st w) as [w'|e w'] eqn:Hpaint; [|discriminate].
  cbn [outcome_map]. intros [= <-]. cbn [state world].
  split; [reflexivity|]. apply (generatePattern_shows st canvas w w' Hsized Hpaint).
Qed.

Lemma repaint_shows (st : State num) (canvas : Canvas num)
    (w : World num) (p : Page num) :
  sized canvas w ->
  repaint st w = Returned p ->
  state p = st /\ sized canvas (world p) /\ shows st (world p).
Proof.
  intros Hsized Hrun. apply rendering_returned in Hrun as [_ Hrun].
  apply (paintNow_shows st canvas w p Hsized Hrun).
Qed.

Lemma afterMaterial_shows (st : State num) (canvas : Canvas num)
    (w : World num) (p : Page num) :
  sized canvas w ->
  afterMaterial st w = Returned p ->
  state p = materialEffect st /\ sized canvas (world p) /\
  shows (materialEffect st) (world p).
Proof.
  intros Hsized Hrun. apply rendering_returned in Hrun as [_ Hrun].
  revert Hrun.
  destruct (generatePattern st w) as [w'|e w'] eqn:Hpaint; [|discriminate].
  destruct (generatePattern_shows st canvas w w' Hsized Hpaint) as [Hsized' Hshows].
  destruct (String.eqb_spec (particleSize (materialEffect st)) (particleSize st))
    as [Hsame|Hnew].
  - intros [= <-]. cbn [state world].
    assert (Hst : materialEffect st = st).
    { revert Hsame. unfold materialEffect.
      destruct (negb (Material_eqb (selectedMaterial st) custom) &&
                truthy_entry (materialsData (selectedMaterial st)));
        [|reflexivity].
      destruct st as [wl d ps mat z]. cbn. intros ->. reflexivity. }
    rewrite Hst. repeat split; assumption.
  - apply repaint_shows. exact Hsized'.
Qed.

Lemma setWavelength_same (st : State num) : setWavelength (wavelength st) st = st.
Proof. destruct st; reflexivity. Qed.

Lemma setDistance_same (st : State num) : setDistance (distance st) st = st.
Proof. destruct st; reflexivity. Qed.

Lemma setParticleSize_same (st : State num) :
  setParticleSize (particleSize st) st = st.
Proof. destruct st; reflexivity. Qed.

Lemma input_shows (ev : Event num) (canvas : Canvas num) (p p' : Page num) :
  sized canvas (world p) ->
  shows (state p) (world p) ->
  input ev p = Returned p' ->
  state p' = handle ev (state p) /\ sized canvas (world p') /\
  shows (state p') (world p').
Proof.
  intros Hsized Hshows. destruct ev as [v|v|v|v|v]; cbn [input handle].
  - destruct (String.eqb_spec v (wavelength (state p))) as [->|Hnew].
    + intros [= <-]. rewrite setWavelength_same. auto.
    + intros Hrun.
      destruct (repaint_shows _ canvas _ _ Hsized Hrun) as (Hst & Hs & Hsh).
      rewrite Hst. auto.
  - destruct (String.eqb_spec v (distance (state p))) as [->|Hnew].
    + intros [= <-]. rewrite setDistance_same. auto.
    + intros Hrun.
      destruct (repaint_shows _ canvas _ _ Hsized Hrun) as (Hst & Hs & Hsh).
      rewrite Hst. auto.
  - destruct (particleSizeDisabled (state p)).
    + intros [= <-]. auto.
    + destruct (String.eqb_spec v (particleSize (state p))) as [->|Hnew].
      * intros [= <-]. rewrite setParticleSize_same. auto.
      * intros Hrun.
        destruct (repaint_shows _ canvas _ _ Hsized Hrun) as (Hst & Hs & Hsh).
        rewrite Hst. auto.
  - destruct (Material_eqb v (selectedMaterial (state p))).
    + intros [= <-]. auto.
    + intros Hrun.
      destruct (afterMaterial_shows _ canvas _ _ Hsized Hrun) as (Hst & Hs & Hsh).
      rewrite Hst. auto.
  - intros Hrun.
    destruct (repaint_shows _ canvas _ _ Hsized Hrun) as (Hst & Hs & Hsh).
    rewrite Hst. auto.
Qed.

Lemma takeScreenshot_keeps_the_canvas (browser : Browser num) (st : State num)
    (w : World num) :
  canvasRef (reached (takeScreenshot browser st w)) = canvasRef w.
Proof.
  unfold takeScreenshot.
  destruct (canvasRef w) as [mainCanvas|] eqn:Hmain; [|exact Hmain].
  destruct (screenshotCanvasRef w) as [shot|]; [|exact Hmain].
  destruct (context2d shot); [|exact Hmain].
  match goal with
  | |- context [match ?d with Returned _ => _ | Thrown _ _ => _ end] =>
      destruct d; reflexivity
  end.
Qed.

Lemma step_shows (a : Action num) (canvas : Canvas num) (p p' : Page num) :
  sized canvas (world p) ->
  shows (state p) (world p) ->
  step a p = Returned p' ->
  state p' = run (inputs [a]) (state p) /\ sized canvas (world p') /\
  shows (state p') (world p').
Proof.
  intros Hsized Hshows. destruct a as [ev| |browser]; cbn [step inputs flat_map app].
  - apply input_shows; assumption.
  - intros Hrun.
    destruct (paintNow_shows _ canvas _ _ Hsized Hrun) as (Hst & Hs & Hsh).
    rewrite Hst. auto.
  - unfold within.
    pose proof (takeScreenshot_keeps_the_canvas browser (state p) (world p)) as Hkeep.
    destruct (takeScreenshot browser (state p) (world p)) as [w'|e w'];
      [|discriminate].
    cbn [reached] in Hkeep. cbn [outcome_map]. intros [= <-]. cbn [state world run fold_left].
    split; [reflexivity|]. split.
    + destruct Hsized as (c & log & Hc & Hrest). exists c, log.
      rewrite Hkeep. split; assumption.
    + unfold shows in *. rewrite Hkeep. exact Hshows.
Qed.

(** *** The zoom level is never empty *)

Lemma materialEffect_zoomLevel (st : State num) :
  zoomLevel (materialEffect st) = zoomLevel st.
Proof.
  unfold materialEffect.
  destruct (negb (Material_eqb (selectedMaterial st) custom) &&
            truthy_entry (materialsData (selectedMaterial st)));
    destruct st; reflexivity.
Qed.

Lemma within_state (st : State num) (o : Outcome (World num)) (p : Page num) :
  within st o = Returned p -> state p = st.
Proof. unfold within. destruct o; [|discriminate]. intros [= <-]. reflexivity. Qed.

Lemma repaint_rendered (st : State num) (w : World num) (p : Page num) :
  repaint st w = Returned p -> zoomLevel (state p) <> [].
Proof.
  intros Hrun. apply rendering_returned in Hrun as [Hzoom Hrun].
  rewrite (within_state _ _ _ Hrun). exact Hzoom.
Qed.

Lemma afterMaterial_rendered (st : State num) (w : World num) (p : Page num) :
  afterMaterial st w = Returned p -> zoomLevel (state p) <> [].
Proof.
  intros Hrun. apply rendering_returned in Hrun as [Hzoom Hrun]. revert Hrun.
  destruct (generatePattern st w) as [w'|e w']; [|discriminate].
  destruct (String.eqb (particleSize (materialEffect st)) (particleSize st)).
  - intros [= <-]. cbn [state]. rewrite materialEffect_zoomLevel. exact Hzoom.
  - apply repaint_rendered.
Qed.

Lemma step_rendered (a : Action num) (p p' : Page num) :
  zoomLevel (state p) <> [] ->
  step a p = Returned p' ->
  zoomLevel (state p') <> [].
Proof.
  intros Hzoom. destruct a as [[v|v|v|v|v]| |browser]; cbn [step input].
  - destruct (String.eqb v (wavelength (state p)));
      [intros [= <-]; exact Hzoom|apply repaint_rendered].
  - destruct (String.eqb v (distance (state p)));
      [intros [= <-]; exact Hzoom|apply repaint_rendered].
  - destruct (particleSizeDisabled (state p)); [intros [= <-]; exact Hzoom|].
    destruct (String.eqb v (particleSize (state p)));
      [intros [= <-]; exact Hzoom|apply repaint_rendered].
  - destruct (Material_eqb v (selectedMaterial (state p)));
      [intros [= <-]; exact Hzoom|apply afterMaterial_rendered].
  - apply repaint_rendered.
  - intros Hrun. unfold paintNow in Hrun.
    rewrite (within_state _ _ _ Hrun). exact Hzoom.
  - intros Hrun. rewrite (within_state _ _ _ Hrun). exact Hzoom.
Qed.

Lemma perform_rendered (actions : list (Action num)) (p p' : Page num) :
  zoomLevel (state p) <> [] ->
  perform actions p = Returned p' ->
  zoomLevel (state p') <> [].
Proof.
  revert p. induction actions as [|a actions IH]; intros p Hzoom.
  - intros [= <-]. exact Hzoom.
  - cbn [perform].
    destruct (step a p) as [p1|e p1] eqn:Hstep; [|discriminate].
    apply IH. exact (step_rendered a p p1 Hzoom Hstep).
Qed.

(** An empty [zoomLevel] ends the session: the render after the event
    throws, and the canvas is left as it was. *)
Lemma empty_zoom_throws (p : Page num) :
  step (Input (ChangeZoom [])) p
  = Thrown "TypeError" {| state := setZoomLevel [] (state p); world := world p |}.
Proof. reflexivity. Qed.

Lemma inputs_app (xs ys : list (Action num)) :
  inputs (xs ++ ys) = inputs xs ++ inputs ys.
Proof. apply flat_map_app. Qed.

Lemma run_shows (actions : list (Action num)) (canvas : Canvas num)
    (p p' : Page num) :
  sized canvas (world p) ->
  shows (state p) (world p) ->
  perform actions p = Returned p' ->
  state p' = run (inputs actions) (state p) /\ sized canvas (world p') /\
  shows (state p') (world p').
Proof.
  revert p. induction actions as [|a actions IH]; intros p Hsized Hshows.
  - intros [= <-]. auto.
  - cbn [perform].
    destruct (step a p) as [p1|e p1] eqn:Hstep; [|discriminate].
    destruct (step_shows a canvas p p1 Hsized Hshows Hstep) as (Hst & Hs & Hsh).
    intros Hrun. destruct (IH p1 Hs Hsh Hrun) as (Hst' & Hs' & Hsh').
    split; [|split; assumption].
    rewrite Hst', Hst.
    change (a :: actions) with ([a] ++ actions).
    rewrite inputs_app. unfold run. rewrite fold_left_app. reflexivity.
Qed.

Lemma session_invariant
    (w : World num) (canvas : Canvas num) (log : list (Cmd num))
    (actions : list (Action num)) (p : Page num) :
  canvasRef w = Some canvas ->
  context2d canvas = Some log ->
  launch w actions = Returned p ->
  state p = run (inputs actions) mounted /\
  (exists c, canvasRef (world p) = Some c /\
             width c = width canvas /\ height c = height canvas) /\
  shows (state p) (world p) /\
  (exists z zs, zoomLevel (state p) = z :: zs /\
                render (state p) = Some (zoomLabel z)).
Proof.
  intros Hcanvas Hlog. unfold launch, mount.
  assert (Hsized : sized canvas w).
  { exists canvas, log. repeat split; assumption. }
  destruct (afterMaterial initialState w) as [p0|e p0] eqn:Hmount; [|discriminate].
  destruct (afterMaterial_shows _ canvas _ _ Hsized Hmount) as (Hst & Hs & Hsh).
  rewrite <- Hst in Hsh. intros Hrun.
  destruct (run_shows actions canvas p0 p Hs Hsh Hrun) as (Hst' & Hs' & Hsh').
  split; [rewrite Hst', Hst; reflexivity|]. split; [|split; [exact Hsh'|]].
  - destruct Hs' as (c & l & Hc & _ & Hwidth & Hheight).
    exists c. repeat split; assumption.
  - pose proof (perform_rendered actions p0 p
                  (afterMaterial_rendered _ _ _ Hmount) Hrun) as Hzoom.
    unfold render. destruct (zoomLevel (state p)) as [|z zs]; [contradiction|].
    exists z, zs. split; reflexivity.
Qed.

(** X12.  Mount the component on a canvas with a context and let the user
    act: change fields, move the slider, click the two buttons.  As long
    as nothing throws (no painting, no export, and no render, which
    throws on an empty [zoomLevel]), the state is the one the change
    events lead to from the mounted state, the canvas keeps its size, the
    last calls on its context are the painting of the current state, and
    the state has a zoom level, whose text the last render put under the
    slider: the picture never lags behind the parameters. *)
Theorem X12_canvas_follows_the_state
    (w : World num) (canvas : Canvas num) (log : list (Cmd num))
    (actions : list (Action num)) (p : Page num) :
  canvasRef w = Some canvas ->
  context2d canvas = Some log ->
  launch w actions = Returned p ->
  state p = run (inputs actions) mounted /\
  (exists c, canvasRef (world p) = Some c /\
             width c = width canvas /\ height c = height canvas) /\
  shows (state p) (world p) /\
  (exists z zs, zoomLevel (state p) = z :: zs /\
                render (state p) = Some (zoomLabel z)).
Proof. apply session_invariant. Qed.

End Session.

(** ** The screenshot *)

Section Screenshot.
Context {num : Type} `{Number num}.

Local Notation "a ;; b" := (andThen a b) (at level 61, right associativity).

(** The screenshot canvas as [takeScreenshot] resizes it. *)
Lemma resized (mainCanvas shot : Canvas num) log :
  context2d shot = Some log ->
  set_height (height mainCanvas + 100) (set_width (width mainCanvas) shot)
  = {| width := width mainCanvas; height := height mainCanvas + 100;
       context2d := Some [] |}.
Proof. intros Hlog. unfold set_height, set_width. cbn. rewrite Hlog. reflexivity. Qed.

Lemma compose_run (st : State num) (mainCanvas : Canvas num) (clock : Clock) log :
  let shot := {| width := width mainCanvas; height := height mainCanvas + 100;
                 context2d := Some [] |} in
  compose st mainCanvas shot clock log
  = if orb (width mainCanvas =? 0) (height mainCanvas =? 0)
    then Thrown "InvalidStateError"
           (log ++ firstn 2 (screenshotCalls st mainCanvas clock NaN))
    else match zoomLevel st with
         | [] => Thrown "TypeError"
                   (log ++ firstn 9 (screenshotCalls st mainCanvas clock NaN))
         | z :: _ => Returned (log ++ screenshotCalls st mainCanvas clock z)
         end.
Proof.
  intros shot. unfold compose, drawImage, call, throw. cbv zeta.
  cbn [width height shot].
  destruct (orb (width mainCanvas =? 0) (height mainCanvas =? 0)).
  - rewrite !andThen_run, <- !app_assoc. reflexivity.
  - destruct (zoomLevel st) as [|z zs];
      rewrite !andThen_run, <- !app_assoc; reflexivity.
Qed.

Lemma takeScreenshot_run
    (browser : Browser num) (st : State num) (w : World num)
    (mainCanvas shot : Canvas num) (log : list (Cmd num))
    (z : num) (zs : list num) :
  canvasRef w = Some mainCanvas ->
  screenshotCanvasRef w = Some shot ->
  context2d shot = Some log ->
  width mainCanvas <> 0 ->
  height mainCanvas <> 0 ->
  zoomLevel st = z :: zs ->
  let final :=
    {| width := width mainCanvas; height := height mainCanvas + 100;
       context2d := Some (screenshotCalls st mainCanvas (now browser) z) |} in
  takeScreenshot browser st w
  = Returned
      {| canvasRef := Some mainCanvas;
         screenshotCanvasRef := Some final;
         downloads :=
           downloads w ++
           [ {| download :=
                  ("laser-diffraction-"
                   ++ JSString.of_Z (getTime (now browser)) ++ ".png")%string;
                href := toDataURL browser final |} ] |}.
Proof.
  intros Hmain Hshot Hlog Hwidth Hheight Hzoom final.
  unfold takeScreenshot. rewrite Hmain, Hshot, Hlog.
  rewrite (resized mainCanvas shot log Hlog).
  cbn [bitmap context2d].
  rewrite (compose_run st mainCanvas (now browser) []).
  rewrite (proj2 (Z.eqb_neq _ _) Hwidth), (proj2 (Z.eqb_neq _ _) Hheight), Hzoom.
  cbn [orb app]. reflexivity.
Qed.

(** X13.  With both canvases there, a context on the screenshot canvas, a
    main canvas that has area and a zoom level, [takeScreenshot] returns;
    the screenshot canvas then has the width of the main canvas and its
    height plus 100, and holds the eleven calls of [screenshotCalls] and
    nothing of what it held before; the main canvas is as it was; and
    one download has been added, named laser-diffraction-, the clock's
    milliseconds, .png, with the PNG of that screenshot canvas. *)
Theorem X13_screenshot_is_composed_and_downloaded
    (browser : Browser num) (st : State num) (w : World num)
    (mainCanvas shot : Canvas num) (log : list (Cmd num))
    (z : num) (zs : list num) :
  canvasRef w = Some mainCanvas ->
  screenshotCanvasRef w = Some shot ->
  context2d shot = Some log ->
  width mainCanvas <> 0 ->
  height mainCanvas <> 0 ->
  zoomLevel st = z :: zs ->
  let final :=
    {| width := width mainCanvas; height := height mainCanvas + 100;
       context2d := Some (screenshotCalls st mainCanvas (now browser) z) |} in
  takeScreenshot browser st w
  = Returned
      {| canvasRef := Some mainCanvas;
         screenshotCanvasRef := Some final;
         downloads :=
           downloads w ++
           [ {| download :=
                  ("laser-diffraction-"
                   ++ JSString.of_Z (getTime (now browser)) ++ ".png")%string;
                href := toDataURL browser final |} ] |}.
Proof. apply takeScreenshot_run. Qed.

(** X14.  Whatever the state and the document, [takeScreenshot] leaves the
    main canvas as it is and adds at most one download, at the end of
    the list; when it throws it adds none, and it throws in two cases
    only: InvalidStateError from [drawImage] when the main canvas has no
    area, after the screenshot canvas has been resized and filled, and
    TypeError from [toFixed] when [zoomLevel] is empty. *)
Theorem X14_screenshot_adds_at_most_one_download
    (browser : Browser num) (st : State num) (w : World num) :
  let after := takeScreenshot browser st w in
  canvasRef (reached after) = canvasRef w /\
  (exists added,
      downloads (reached after) = downloads w ++ added /\
      (List.length added <= 1)%nat /\
      (threw after = true -> added = [])) /\
  (forall e w',
      after = Thrown e w' ->
      (e = "InvalidStateError" /\
       exists mainCanvas,
         canvasRef w = Some mainCanvas /\
         (width mainCanvas = 0 \/ height mainCanvas = 0) /\
         option_map bitmap (screenshotCanvasRef w')
         = Some [ SetFillStyle "#f5f5f5";
                  FillRect (int 0) (int 0) (int (width mainCanvas))
                           (int (height mainCanvas + 100)) ]) \/
      (e = "TypeError" /\ zoomLevel st = [])).
Proof.
  intros after. split; [apply takeScreenshot_keeps_the_canvas|].
  unfold after, takeScreenshot.
  destruct (canvasRef w) as [mainCanvas|] eqn:Hmain.
  2:{ split; [exists []; rewrite app_nil_r; cbn; auto|discriminate]. }
  destruct (screenshotCanvasRef w) as [shot|] eqn:Hshot.
  2:{ split; [exists []; rewrite app_nil_r; cbn; auto|discriminate]. }
  destruct (context2d shot) as [log|] eqn:Hlog.
  2:{ split; [exists []; rewrite app_nil_r; cbn; auto|discriminate]. }
  rewrite (resized mainCanvas shot log Hlog).
  cbn [bitmap context2d].
  rewrite (compose_run st mainCanvas (now browser) []).
  destruct (orb (width mainCanvas =? 0) (height mainCanvas =? 0)) eqn:Harea.
  - split; [exists []; rewrite app_nil_r; cbn; auto|].
    intros e w' [= <- <-]. left. split; [reflexivity|].
    exists mainCanvas. split; [reflexivity|]. split; [|reflexivity].
    apply orb_true_iff in Harea as [Hz|Hz]; apply Z.eqb_eq in Hz; auto.
  - destruct (zoomLevel st) as [|z zs] eqn:Hzoom.
    + split; [exists []; rewrite app_nil_r; cbn; auto|].
      intros e w' [= <- <-]. right. split; reflexivity.
    + split; [|discriminate].
      eexists. split; [reflexivity|]. cbn. split; [lia|discriminate].
Qed.

End Screenshot.

(** ** Mounting, and exporting after a session *)

Section AfterASession.
Context {num : Type} `{Number num}.
Import App.

(** X15.  Mounting paints twice.  The painting effect of the first render
    runs with the particle size "10" of the initial state, the material
    effect of the same render asks for the preset "30", and the render
    that follows paints again: where both paintings return, the canvas
    holds the calls made before, then the painting for "10", then the
    painting for "30", and the state is the mounted one. *)
Theorem X15_mounting_paints_twice
    (w : World num) (canvas : Canvas num) (log first second : list (Cmd num)) :
  canvasRef w = Some canvas ->
  context2d canvas = Some log ->
  painted (paint initialState canvas) = Returned first ->
  painted (paint mounted canvas) = Returned second ->
  particleSize (num := num) initialState = "10" /\
  particleSize (num := num) mounted = "30" /\
  mount w
  = Returned {| state := mounted;
                world := onCanvas w canvas (log ++ first ++ second) |}.
Proof.
  intros Hcanvas Hlog Hfirst Hsecond.
  split; [reflexivity|]. split; [reflexivity|].
  unfold mount, afterMaterial, repaint.
  rewrite (rendering_some initialState w _ (int 1) []) by reflexivity.
  unfold paintNow, within, generatePattern.
  rewrite Hcanvas, Hlog, (oblivious_paint initialState canvas log), Hfirst.
  cbn [outcome_map onCanvas canvasRef with_context context2d].
  change (materialEffect initialState) with (mounted (num := num)).
  replace (String.eqb (particleSize mounted) (particleSize initialState))
    with false by reflexivity.
  rewrite (rendering_some mounted _ _ (int 1) []) by reflexivity.
  cbn [outcome_map onCanvas canvasRef with_context context2d].
  rewrite (paint_reads_the_size mounted (with_context (log ++ first) canvas) canvas)
    by reflexivity.
  rewrite (oblivious_paint mounted canvas (log ++ first)), Hsecond.
  cbn [outcome_map]. rewrite <- app_assoc. reflexivity.
Qed.

(** X16.  An export at the end of a session that did not throw shows the
    parameters it prints.  With both canvases there and with contexts,
    and a main canvas that has area: the state has a zoom level (a render
    with none would have thrown), the image that [takeScreenshot] copies
    ends with the painting of the current state, the rows of text
    beneath it are those of the same state, and the export does not
    throw. *)
Theorem X16_export_shows_the_parameters_it_prints
    (w : World num) (canvas shot : Canvas num) (log held : list (Cmd num))
    (actions : list (Action num)) (p : Page num)
    (browser : Browser num) :
  canvasRef w = Some canvas ->
  context2d canvas = Some log ->
  launch w actions = Returned p ->
  screenshotCanvasRef (world p) = Some shot ->
  context2d shot = Some held ->
  width canvas <> 0 ->
  height canvas <> 0 ->
  exists c before calls final z zs,
    zoomLevel (state p) = z :: zs /\
    canvasRef (world p) = Some c /\
    painted (paint (state p) c) = Returned calls /\
    bitmap c = before ++ calls /\
    screenshotCanvasRef (reached (takeScreenshot browser (state p) (world p)))
    = Some final /\
    bitmap final = screenshotCalls (state p) c (now browser) z /\
    In (DrawImage (before ++ calls) (int 0) (int 0)) (bitmap final) /\
    threw (takeScreenshot browser (state p) (world p)) = false.
Proof.
  intros Hcanvas Hlog Hlaunch Hshot Hheld Hwidth Hheight.
  destruct (session_invariant w canvas log actions p Hcanvas Hlog Hlaunch)
    as (_ & (c & Hc & Hcw & Hch) & Hshows & (z & zs & Hzoom & _)).
  unfold shows in Hshows. rewrite Hc in Hshows.
  destruct Hshows as (before & calls & Hpainted & Hcontext).
  assert (Hbitmap : bitmap c = before ++ calls).
  { unfold bitmap. rewrite Hcontext. reflexivity. }
  rewrite <- Hcw in Hwidth. rewrite <- Hch in Hheight.
  pose proof (takeScreenshot_run browser (state p) (world p)
                c shot held z zs Hc Hshot Hheld Hwidth Hheight Hzoom) as Hexport.
  cbv zeta in Hexport. rewrite Hexport.
  eexists c, before, calls, _, z, zs.
  split; [exact Hzoom|].
  split; [exact Hc|]. split; [exact Hpainted|]. split; [exact Hbitmap|].
  split; [reflexivity|]. split; [reflexivity|]. split; [|reflexivity].
  change (In (DrawImage (before ++ calls) (int 0) (int 0))
             (screenshotCalls (state p) c (now browser) z)).
  unfold screenshotCalls. rewrite Hbitmap.
  right. right. left. reflexivity.
Qed.

End AfterASession.

(** ** The first revision *)

Section FirstRevision.
Context {num : Type} `{Number num}.

Local Notation "a ;; b" := (andThen a b) (at level 61, right associativity).

Lemma original_drawRing_run (canvas : Canvas num) (r : num) log :
  Original.drawRing canvas r log
  = if refused canvas r then Thrown "IndexSizeError" (log ++ Original.ringStart)
    else Returned (log ++ Original.ringCalls canvas r).
Proof.
  unfold Original.drawRing, call. rewrite !andThen_run. unfold arc.
  fold (refused canvas r).
  destruct (refused canvas r).
  - rewrite <- !app_assoc. reflexivity.
  - rewrite ?andThen_run, <- !app_assoc. reflexivity.
Qed.

Lemma original_loop_run (st : State num) (canvas : Canvas num) (ms : list Z) log :
  forEach ms (Original.ringBody st canvas) log
  = outcome_map (app log)
      (Original.ringsPainted canvas
         (List.map (Original.pixelRadius st canvas)
                   (filter (fun m => negb (skipped st m)) ms))).
Proof.
  revert log. induction ms as [|m ms IH]; intros log.
  - simpl. rewrite app_nil_r. reflexivity.
  - rewrite forEach_cons, andThen_run. unfold Original.ringBody at 1.
    cbn [filter]. destruct (skipped st m); cbn [negb].
    + apply IH.
    + rewrite original_drawRing_run. cbn [List.map Original.ringsPainted].
      destruct (refused canvas (Original.pixelRadius st canvas m)); [reflexivity|].
      rewrite IH. apply eq_sym, outcome_map_app.
Qed.

Lemma original_paint_run (st : State num) (canvas : Canvas num) log :
  Original.paint st canvas log
  = outcome_map (fun calls => log ++ Original.backgroundCalls canvas ++ calls)
      (Original.ringsPainted canvas (Original.radii st canvas)).
Proof.
  unfold Original.paint. rewrite andThen_run.
  assert (Hstart : drawBackground canvas log
                   = Returned (log ++ Original.backgroundCalls canvas)).
  { unfold drawBackground, call. rewrite !andThen_run, <- !app_assoc. reflexivity. }
  rewrite Hstart, original_loop_run. fold (Original.angles st).
  fold (Original.radii st canvas).
  destruct (Original.ringsPainted canvas (Original.radii st canvas)); simpl;
    rewrite <- app_assoc; reflexivity.
Qed.

Lemma original_returns (canvas : Canvas num) (rs : list num) :
  Forall (fun r => refused canvas r = false) rs ->
  Original.ringsPainted canvas rs
  = Returned (flat_map (Original.ringCalls canvas) rs).
Proof.
  induction 1 as [|r rs Hr Hrest IH]; [reflexivity|].
  cbn [Original.ringsPainted flat_map]. rewrite Hr, IH. reflexivity.
Qed.

Lemma original_error (canvas : Canvas num) (rs : list num) e calls :
  Original.ringsPainted canvas rs = Thrown e calls -> e = "IndexSizeError".
Proof.
  revert calls. induction rs as [|r rs IH]; intros calls; [discriminate|].
  cbn [Original.ringsPainted].
  destruct (refused canvas r); [intros [= <- _]; reflexivity|].
  destruct (Original.ringsPainted canvas rs) as [l|e' l]; [discriminate|].
  intros [= <- _]. apply (IH l). reflexivity.
Qed.

(** X17.  The first revision of [generatePattern] paints background and
    crosshair and then, for every order from 1 to 5 that the angle test
    lets through, a ring of its pixel radius, however large: there is no
    test against the canvas, no central spot, no label and no caption.
    Where [ctx.arc] refuses no radius it returns after the 9 calls of
    the background and 5 for each such order; it throws nothing but
    IndexSizeError. *)
Theorem X17_first_revision_draws_every_order_with_an_angle
    (st : State num) (w : World num) (canvas : Canvas num) log :
  canvasRef w = Some canvas ->
  context2d canvas = Some log ->
  Original.radii st canvas
  = List.map (Original.pixelRadius st canvas)
      (filter (fun m => negb (skipped st m)) [1; 2; 3; 4; 5]) /\
  (List.length (Original.radii st canvas) <= 5)%nat /\
  (Forall (fun r => refused canvas r = false) (Original.radii st canvas) ->
   Original.generatePattern st w
   = Returned
       (onCanvas w canvas
          (log ++ Original.backgroundCalls canvas ++
           flat_map (Original.ringCalls canvas) (Original.radii st canvas)))) /\
  (forall e w', Original.generatePattern st w = Thrown e w' -> e = "IndexSizeError").
Proof.
  intros Hcanvas Hlog.
  split; [reflexivity|]. split.
  { unfold Original.radii, Original.angles. rewrite length_map.
    change (range 1 Original.maxOrder) with [1; 2; 3; 4; 5].
    pose proof (filter_length_le (fun m => negb (skipped st m)) [1; 2; 3; 4; 5]) as Hle.
    cbn [List.length] in Hle. exact Hle. }
  unfold Original.generatePattern. rewrite Hcanvas, Hlog, original_paint_run.
  split.
  - intros Hok. rewrite (original_returns canvas _ Hok). reflexivity.
  - intros e w'.
    destruct (Original.ringsPainted canvas (Original.radii st canvas))
      as [calls|e' calls] eqn:Hrings; [discriminate|].
    intros [= <- _]. apply (original_error _ _ _ _ Hrings).
Qed.

End FirstRevision.

Section FirstRevisionScale.
Import Exact.
Local Open Scope R_scope.

#[local] Existing Instance Exact.number.

(** X18.  In exact arithmetic, on the 800 by 400 canvas, with finite
    fields, a particle size other than zero and an angle for order [m]:
    the pixel radius of the first revision is 25 times that of the
    revision that followed it, [distance * tangent * 1e3 * 100] against
    [distance * tangent * 4000]. *)
Theorem X18_first_revision_is_25_times_wider
    (st : State xreal) (canvas : Canvas xreal) (l d p : R) (m : Z) :
  parseFloat (wavelength st) = XFin l ->
  parseFloat (distance st) = XFin d ->
  parseFloat (particleSize st) = XFin p ->
  p <> 0 ->
  Rabs (IZR m * (l / 1000000000) / (p / 1000000)) < 1 ->
  width canvas = 800%Z -> height canvas = 400%Z ->
  exists r,
    Captioned.pixelRadius st m = XFin r /\
    Original.pixelRadius st canvas m = XFin (25 * r).
Proof.
  intros Hl Hd Hp Hp0 Hangle Hwidth Hheight.
  assert (Hzoom : zoom (setZoomLevel [int 1] st) = XFin 1) by apply int_exact.
  destruct (finite_fields (setZoomLevel [int 1] st) l d p 1 m Hl Hd Hp Hzoom Hp0)
    as (_ & _ & Hfields).
  destruct (Hfields Hangle) as (_ & Hradius & _).
  change (radius (setZoomLevel [int 1] st) m) with (radius st m) in Hradius.
  set (x := IZR m * (l / 1000000000) / (p / 1000000)) in *.
  exists (d / 100 * tan (asin x) * 4000). split.
  - unfold Captioned.pixelRadius, Captioned.scaleFactor.
    rewrite Hradius, int_exact. reflexivity.
  - unfold Original.pixelRadius, Original.radius, Original.scaleFactor.
    fold (radius st m). rewrite Hradius, Hwidth, Hheight, !int_exact.
    assert (Hkilo : lit 1 3 = XFin 1000).
    { unfold lit. cbn [ofDecimal Exact.number Exact.of_decimal]. f_equal.
      change (Z.of_N 1) with 1%Z. simpl powerRZ. lra. }
    rewrite Hkilo. cbn [mul div Math_min Exact.number xmul xmin xleb xdiv].
    destruct (Rle_dec 800 400); [lra|].
    cbn [xdiv]. rewrite is_zero_false by lra.
    f_equal. lra.
Qed.

End FirstRevisionScale.

(** ** Witnesses of the further results *)

Section FurtherWitnesses.

#[local] Existing Instance Sample.ieee.
#[local] Existing Instance Exact.number.

(** The default parameters on the 800 by 400 canvas. *)
Lemma X3_render_starts_with_the_empty_pattern_witness :
  exists rest,
    canvasRef (reached (generatePattern (H := Sample.ieee)
                          Sample.lycopodium_red Sample.world))
    = Some (with_context ([] ++ emptyPattern Sample.canvas ++ rest) Sample.canvas).
Proof.
  exact (proj1 (X3_render_starts_with_the_empty_pattern
                  (host := IEEE754.Reference.host)
                  Sample.lycopodium_red Sample.world Sample.canvas []
                  eq_refl eq_refl)).
Defined.


(** Radii below zero that the canvas does not refuse, on the reference
    host: the first ring of [Cases.faint] narrows to the zero below
    zero, that of [Cases.far] to the infinity below zero; both pass the
    two tests of the loop and are drawn. *)
Lemma negative_radii_that_are_drawn :
  let ieee := Sample.ieee in
  let r := pixelRadius Cases.faint 1 in
  let r' := pixelRadius Cases.far 1 in
  ltb r (int 0) = true /\ ltb r' (int 0) = true /\
  narrow r = SpecFloat.S754_zero true /\
  narrow r' = SpecFloat.S754_infinity true /\
  drawn Cases.faint Sample.canvas 1 = true /\
  drawn Cases.far Sample.canvas 1 = true /\
  refused Sample.canvas r = false /\
  refused Sample.canvas r' = false.
Proof.
  intros ieee r r'. repeat split; vm_compute; reflexivity.
Qed.

(** Mounting on the sample page, then a new wavelength and a click on
    the button. *)
Lemma X12_canvas_follows_the_state_witness :
  let actions := [App.Input (ChangeWavelength "532"); App.ClickGenerate] in
  let p := reached (App.launch (H := Sample.ieee) Sample.world actions) in
  wavelength (App.state p) = "532" /\
  App.shows (App.state p) (App.world p).
Proof.
  intros actions p.
  destruct (X12_canvas_follows_the_state (H := Sample.ieee)
              Sample.world Sample.canvas [] actions p
              eq_refl eq_refl ltac:(vm_compute; reflexivity))
    as (Hstate & _ & Hshows & _).
  split; [rewrite Hstate; reflexivity|exact Hshows].
Defined.

(** The sample page at the default parameters. *)
Lemma X13_screenshot_is_composed_and_downloaded_witness :
  List.map download
    (downloads (reached (takeScreenshot (H := Sample.ieee) Sample.browser
                           Sample.lycopodium_red Sample.world)))
  = ["laser-diffraction-1793613600000.png"].
Proof.
  rewrite (X13_screenshot_is_composed_and_downloaded (H := Sample.ieee)
             Sample.browser Sample.lycopodium_red Sample.world
             Sample.canvas Sample.hidden [] (int 1) []
             eq_refl eq_refl eq_refl
             ltac:(simpl; lia) ltac:(simpl; lia) eq_refl).
  reflexivity.
Defined.

(** "0" in the particle-size field. *)
Lemma X6_no_particle_size_no_rings_witness :
  generatePattern (H := Sample.ieee) Cases.no_size Sample.world
  = Returned (onCanvas Sample.world Sample.canvas ([] ++ emptyPattern Sample.canvas)).
Proof.
  exact (proj2 (proj2
    (X6_no_particle_size_no_rings (host := IEEE754.Reference.host)
       Cases.no_size Sample.world Sample.canvas [] false 0
       eq_refl ltac:(vm_compute; reflexivity) eq_refl eq_refl))).
Defined.

(** "0" in the wavelength field, on the reference host. *)
Lemma X7_no_wavelength_ten_rings_of_radius_zero_witness :
  computeRings (H := Sample.ieee) Cases.dark Sample.canvas
  = List.map (fun m => {| order := m;
                          ringRadius := SpecFloat.S754_zero false |})
             (range 1 maxOrder).
Proof.
  exact (proj1 (proj2
    (X7_no_wavelength_ten_rings_of_radius_zero (host := IEEE754.Reference.host)
       Cases.dark Sample.world Sample.canvas [] false 0
       ltac:(intros []; vm_compute; reflexivity)
       ltac:(intros []; vm_compute; reflexivity)
       eq_refl
       ltac:(vm_compute; reflexivity) ltac:(vm_compute; reflexivity)
       ltac:(vm_compute; reflexivity) ltac:(vm_compute; reflexivity)
       eq_refl eq_refl))).
Defined.

(** The default parameters, whose zoom is 1. *)
Lemma X9_zoom_one_is_the_earlier_revision_witness :
  Captioned.paint (H := Sample.ieee) Sample.lycopodium_red Sample.canvas []
  = match paint (H := Sample.ieee) Sample.lycopodium_red Sample.canvas [] with
    | Returned log' =>
        Returned (log' ++ Captioned.captionCalls (H := Sample.ieee) Sample.canvas)
    | Thrown e log' => Thrown e log'
    end.
Proof.
  exact (proj1 X9_zoom_one_is_the_earlier_revision IEEE754.Reference.host
           Sample.lycopodium_red Sample.canvas [] eq_refl).
Defined.

(** From zoom 0.7 to zoom 1 at the default parameters. *)
Lemma X10_zooming_in_never_adds_a_ring_witness :
  incl (List.map order (computeRings (H := Sample.ieee)
                          Sample.lycopodium_red Sample.canvas))
       (List.map order (computeRings (H := Sample.ieee)
                          (setZoomLevel [lit (H := Sample.ieee) 7 (-1)] Sample.lycopodium_red)
                          Sample.canvas)).
Proof.
  refine (proj2
    (X10_zooming_in_never_adds_a_ring (host := IEEE754.Reference.host)
       (setZoomLevel [lit (H := Sample.ieee) 7 (-1)] Sample.lycopodium_red)
       (Sample.lycopodium_red (H := Sample.ieee))
       Sample.canvas eq_refl eq_refl eq_refl
       ltac:(vm_compute; reflexivity) ltac:(vm_compute; reflexivity)
       ltac:(vm_compute; reflexivity) ltac:(vm_compute; reflexivity)
       ltac:(vm_compute; reflexivity) _)).
  intros m Hm _.
  assert (Hc : m = 1 \/ m = 2 \/ m = 3 \/ m = 4 \/ m = 5 \/ m = 6 \/
               m = 7 \/ m = 8 \/ m = 9 \/ m = 10)
    by (unfold maxOrder in Hm; lia).
  repeat (destruct Hc as [->|Hc]; [vm_compute; reflexivity|]).
  subst m. vm_compute. reflexivity.
Defined.

(** The slider at 0.7. *)
Lemma X11_zoom_text_is_the_slider_position_witness :
  toFixed1 (Number := Sample.ieee) (lit 7 (-1)) = "0.7".
Proof.
  exact (proj1 (X11_zoom_text_is_the_slider_position
                  (host := IEEE754.Reference.host) 7 ltac:(lia))).
Defined.

(** The initial state on the sample page. *)
Lemma X17_first_revision_draws_every_order_with_an_angle_witness :
  (List.length (Original.radii (H := Sample.ieee) initialState Sample.canvas)
   <= 5)%nat.
Proof.
  exact (proj1 (proj2
    (X17_first_revision_draws_every_order_with_an_angle (H := Sample.ieee)
       initialState Sample.world Sample.canvas [] eq_refl eq_refl))).
Defined.

(** Order 1 at the default parameters. *)
Lemma X18_first_revision_is_25_times_wider_witness :
  exists r,
    Captioned.pixelRadius (H := Exact.number) Sample.lycopodium_red 1
    = Exact.XFin r /\
    Original.pixelRadius (H := Exact.number) Sample.lycopodium_red Sample.canvas 1
    = Exact.XFin (25 * r)%R.
Proof.
  exact (X18_first_revision_is_25_times_wider Sample.lycopodium_red Sample.canvas
           (1 * IZR (Z.of_N 650) * powerRZ 10 0)%R
           (1 * IZR (Z.of_N 100) * powerRZ 10 0)%R
           (1 * IZR (Z.of_N 30) * powerRZ 10 0)%R
           1 eq_refl eq_refl eq_refl
           ltac:(simpl; lra)
           ltac:(apply Rabs_def1; simpl; lra)
           eq_refl eq_refl).
Defined.

(** Mounting on the sample page. *)
Lemma X15_mounting_paints_twice_witness :
  let first := reached (painted (paint (H := Sample.ieee) initialState Sample.canvas)) in
  let second := reached (painted (paint (H := Sample.ieee) mounted Sample.canvas)) in
  App.mount (H := Sample.ieee) Sample.world
  = Returned {| App.state := mounted;
                App.world := onCanvas Sample.world Sample.canvas
                               ([] ++ first ++ second) |}.
Proof.
  intros first second.
  exact (proj2 (proj2
    (X15_mounting_paints_twice (H := Sample.ieee) Sample.world Sample.canvas []
       first second eq_refl eq_refl
       ltac:(vm_compute; reflexivity) ltac:(vm_compute; reflexivity)))).
Defined.

(** An export after mounting on the sample page and moving the slider
    to 0.7. *)
Lemma X16_export_shows_the_parameters_it_prints_witness :
  let actions := [App.Input (ChangeZoom [lit (H := Sample.ieee) 7 (-1)])] in
  let p := reached (App.launch (H := Sample.ieee) Sample.world actions) in
  threw (takeScreenshot Sample.browser (App.state p) (App.world p)) = false.
Proof.
  intros actions p.
  destruct (X16_export_shows_the_parameters_it_prints (H := Sample.ieee)
              Sample.world Sample.canvas Sample.hidden [] [] actions p
              Sample.browser
              eq_refl eq_refl ltac:(vm_compute; reflexivity)
              ltac:(vm_compute; reflexivity) eq_refl
              ltac:(simpl; lia) ltac:(simpl; lia))
    as (c & before & calls & final & z & zs
        & _ & _ & _ & _ & _ & _ & _ & Hreturned).
  exact Hreturned.
Defined.

(** The default parameters in exact arithmetic, and at zoom 0.7 on the
    reference host. *)
Lemma X8_rings_drawn_are_the_first_orders_witness :
  (exists k, 0 <= k <= maxOrder /\
     List.map order (computeRings (H := Exact.number)
                       Sample.lycopodium_red Sample.canvas) = range 1 k) /\
  (exists k, 0 <= k <= maxOrder /\
     List.map order (computeRings (H := Sample.ieee)
                       (setZoomLevel [lit (H := Sample.ieee) 7 (-1)]
                          Sample.lycopodium_red)
                       Sample.canvas) = range 1 k).
Proof.
  split.
  - exact (proj1 X8_rings_drawn_are_the_first_orders
             Sample.lycopodium_red Sample.canvas
             (1 * IZR (Z.of_N 650) * powerRZ 10 0)%R
             (1 * IZR (Z.of_N 100) * powerRZ 10 0)%R
             (1 * IZR (Z.of_N 30) * powerRZ 10 0)%R
             (1 * IZR (Z.of_N (Z.abs_N 1)) * powerRZ 10 0)%R
             eq_refl eq_refl eq_refl eq_refl
             ltac:(simpl; lra) ltac:(simpl; lra) ltac:(simpl; lra)
             ltac:(simpl; lra)).
  - refine (proj2 X8_rings_drawn_are_the_first_orders
              IEEE754.Reference.host
              (setZoomLevel [lit (H := Sample.ieee) 7 (-1)] Sample.lycopodium_red)
              Sample.canvas
              ltac:(vm_compute; reflexivity) ltac:(vm_compute; reflexivity)
              ltac:(vm_compute; reflexivity) ltac:(vm_compute; reflexivity)
              ltac:(vm_compute; reflexivity) _).
    intros m m' Hm Hm' _.
    assert (Hc : m = 1 \/ m = 2 \/ m = 3 \/ m = 4 \/ m = 5 \/ m = 6 \/
                 m = 7 \/ m = 8 \/ m = 9 \/ m = 10)
      by (unfold maxOrder in Hm'; lia).
    assert (Hc' : m' = 1 \/ m' = 2 \/ m' = 3 \/ m' = 4 \/ m' = 5 \/ m' = 6 \/
                  m' = 7 \/ m' = 8 \/ m' = 9 \/ m' = 10)
      by (unfold maxOrder in Hm'; lia).
    set (t := fun k : Z =>
                Math_tan (Number := Sample.ieee)
                  (theta (H := Sample.ieee)
                     (setZoomLevel [lit (H := Sample.ieee) 7 (-1)]
                        Sample.lycopodium_red) k)).
    change (IEEE754.ordinary (t m) = true /\ IEEE754.ordinary (t m') = true /\
            leb (Number := Sample.ieee) (t m) (t m') = true).
    assert (E1 : t 1 = ltac:(let v := eval vm_compute in (t 1) in exact v))
      by (vm_compute; reflexivity).
    assert (E2 : t 2 = ltac:(let v := eval vm_compute in (t 2) in exact v))
      by (vm_compute; reflexivity).
    assert (E3 : t 3 = ltac:(let v := eval vm_compute in (t 3) in exact v))
      by (vm_compute; reflexivity).
    assert (E4 : t 4 = ltac:(let v := eval vm_compute in (t 4) in exact v))
      by (vm_compute; reflexivity).
    assert (E5 : t 5 = ltac:(let v := eval vm_compute in (t 5) in exact v))
      by (vm_compute; reflexivity).
    assert (E6 : t 6 = ltac:(let v := eval vm_compute in (t 6) in exact v))
      by (vm_compute; reflexivity).
    assert (E7 : t 7 = ltac:(let v := eval vm_compute in (t 7) in exact v))
      by (vm_compute; reflexivity).
    assert (E8 : t 8 = ltac:(let v := eval vm_compute in (t 8) in exact v))
      by (vm_compute; reflexivity).
    assert (E9 : t 9 = ltac:(let v := eval vm_compute in (t 9) in exact v))
      by (vm_compute; reflexivity).
    assert (E10 : t 10 = ltac:(let v := eval vm_compute in (t 10) in exact v))
      by (vm_compute; reflexivity).
    clearbody t.
    repeat (destruct Hc as [->|Hc];
            [repeat (destruct Hc' as [->|Hc'];
                     [first [lia
                            | rewrite ?E1, ?E2, ?E3, ?E4, ?E5, ?E6, ?E7, ?E8, ?E9, ?E10;
                              split; [|split]; vm_compute; reflexivity]|]);
             subst m';
             first [lia
                   | rewrite ?E1, ?E2, ?E3, ?E4, ?E5, ?E6, ?E7, ?E8, ?E9, ?E10;
                     split; [|split]; vm_compute; reflexivity]|]).
    subst m.
    repeat (destruct Hc' as [->|Hc'];
            [first [lia
                   | rewrite ?E1, ?E2, ?E3, ?E4, ?E5, ?E6, ?E7, ?E8, ?E9, ?E10;
                     split; [|split]; vm_compute; reflexivity]|]).
    subst m'. rewrite ?E10. split; [|split]; vm_compute; reflexivity.
Defined.

End FurtherWitnesses.
